(** * objectUtils.js: tree walking and structural copy over a JavaScript heap

    A shallow embedding of [src/utils/objectUtils.js].  JavaScript objects
    have identity and are mutated in place, so the embedding works over an
    explicit heap: a value is a primitive or a reference, an object is a
    record of its kind, its own enumerable properties in [Object.keys]
    order, and (for arrays) its [length].  Functions that throw return an
    [outcome]; functions that mutate thread the heap through a state and
    error monad.

    The data model holds the own enumerable data properties with string
    keys.  What lies outside it is either a parameter of the function
    that meets it (what a read finds on the prototype chain, the
    behaviour of the unpinned ramda dependency) or the outcome
    [OutsideModel] (an assignment that changes a prototype). *)

From Stdlib Require Import ZArith String List Lia Decimal DecimalString DecimalNat.
From stdpp Require Import base tactics option list strings.

Local Open Scope string_scope.
Local Open Scope nat_scope.
Local Open Scope list_scope.

(** ** Values and objects *)

Abbreviation loc := nat.

(** Numbers are the integers plus [NaN] (the one value that is not
    [===] to itself).  Fractional numbers are outside the embedding, and
    so are the integers of magnitude [2^53] and more, which JavaScript
    does not hold exactly and, from [10^21] on, prints with an exponent. *)
Inductive value :=
  | VUndefined
  | VNull
  | VBool (b : bool)
  | VNum (n : Z)
  | VNaN
  | VStr (s : string)
  | VRef (l : loc).

Global Instance value_eq_dec : EqDecision value.
Proof. solve_decision. Defined.

(** [Plain]: what [isPlainObject] accepts, an object that inherits from
    [Object.prototype].  [Arr]: what [Array.isArray] accepts.  [Exotic]:
    every other object (a Date, a class instance, a function). *)
Inductive okind := Plain | Arr | Exotic.

Global Instance okind_eq_dec : EqDecision okind.
Proof. solve_decision. Defined.

(** [o_props] lists the own enumerable properties in the order
    [Object.keys] reports them; an array element is the property whose key
    is the decimal form of its index, an empty slot is an absent key. *)
Record obj := Obj { o_kind : okind; o_props : list (string * value); o_len : nat }.

Abbreviation heap := (list obj).

Inductive error :=
  | TypeError
  | RangeError
  | InvalidInput                         (* 'The input must be an object.' *)
  | UnrecognizedPathType (pathType : value).

Inductive outcome (A : Type) :=
  | Returned (a : A)
  | Threw (e : error)
  | OutOfFuel
  | OutsideModel.
Arguments Returned {A} a.
Arguments Threw {A} e.
Arguments OutOfFuel {A}.
Arguments OutsideModel {A}.

(** ** Strings of numbers and array indices *)

Definition key_of_index (n : nat) : string :=
  NilEmpty.string_of_uint (Nat.to_uint n).

(** The array index a key denotes: the key is the canonical decimal form
    of a natural number ("7" but not "07", "" or "x") below [2^32 - 1];
    every other key is an ordinary property name. *)
Definition index_of_key (k : string) : option nat :=
  match NilEmpty.uint_of_string k with
  | Some d =>
      if (N.of_uint d <? 4294967295)%N then
        let n := N.to_nat (N.of_uint d) in
        if String.eqb (key_of_index n) k then Some n else None
      else None
  | None => None
  end.

Definition string_of_Z (n : Z) : string := NilZero.string_of_int (Z.to_int n).

(** ** Primitive operations of the language *)

(** [a === b] *)
Definition strictEqual (a b : value) : bool :=
  match a, b with
  | VNaN, _ | _, VNaN => false
  | _, _ => bool_decide (a = b)
  end.

(** Truthiness, as tested by [if (...)], [||] and [&&]. *)
Definition truthy (v : value) : bool :=
  match v with
  | VUndefined | VNull | VNaN => false
  | VBool b => b
  | VNum n => negb (n =? 0)%Z
  | VStr s => negb (String.eqb s "")
  | VRef _ => true
  end.

Fixpoint assoc (k : string) (ps : list (string * value)) : option value :=
  match ps with
  | [] => None
  | (k', v) :: ps' => if String.eqb k k' then Some v else assoc k ps'
  end.

Definition obj_keys (o : obj) : list string := map fst (o_props o).

Definition kind_of (h : heap) (v : value) : option okind :=
  match v with
  | VRef l => o_kind <$> h !! l
  | _ => None
  end.

Definition isPlainObject (h : heap) (v : value) : bool :=
  bool_decide (kind_of h v = Some Plain).

Definition isArray (h : heap) (v : value) : bool :=
  bool_decide (kind_of h v = Some Arr).

(** [Object.keys(object)] for an object reference. *)
Definition Object_keys (h : heap) (l : loc) : list string :=
  match h !! l with
  | Some o => obj_keys o
  | None => []
  end.

(** [object[key]] as the walk reads it, for a [key] that
    [Object.keys(object)] has reported: the own property.  (An array
    answers its [length]; a key the visitor has deleted in the meantime
    reads as [undefined], nothing of that name being inherited.) *)
Definition obj_get (o : obj) (k : string) : value :=
  match assoc k (o_props o) with
  | Some v => v
  | None =>
      if bool_decide (o_kind o = Arr) && String.eqb k "length"
      then VNum (Z.of_nat (o_len o))
      else VUndefined
  end.

Definition heap_get (h : heap) (l : loc) (k : string) : value :=
  match h !! l with
  | Some o => obj_get o k
  | None => VUndefined
  end.

(** [v[k]] for any value that is not [null] or [undefined], and any key:
    the own enumerable property of an object, the [length] of an array,
    the characters and the length of a string.  Every other read goes to
    the prototype chain (or to a property that is not enumerable), which
    the heap does not hold: [hidden v k] is what the read finds there,
    [Object.prototype.toString] for [k = "toString"] on a plain object,
    [undefined] for a name that occurs nowhere on the chain.  ([null] and
    [undefined] have no properties; [R.prop] does not read them.) *)
Definition value_get (hidden : value → string → value) (h : heap)
    (v : value) (k : string) : value :=
  match v with
  | VRef l =>
      match h !! l with
      | Some o =>
          match assoc k (o_props o) with
          | Some x => x
          | None =>
              if bool_decide (o_kind o = Arr) && String.eqb k "length"
              then VNum (Z.of_nat (o_len o))
              else hidden v k
          end
      | None => hidden v k
      end
  | VStr s =>
      if String.eqb k "length" then VNum (Z.of_nat (String.length s))
      else match index_of_key k with
           | Some i => match String.get i s with
                       | Some c => VStr (String c EmptyString)
                       | None => hidden v k
                       end
           | None => hidden v k
           end
  | VUndefined | VNull => VUndefined
  | _ => hidden v k
  end.

(** ** shallowEqual *)

Module Ramda.
(** [R.keys]: the own enumerable keys of an object, [[]] for anything
    that is not an object. *)
Definition keys (h : heap) (v : value) : list string :=
  match v with
  | VRef l => Object_keys h l
  | _ => []
  end.

(** [R.prop(p, obj)].  Up to ramda 0.26 this is [obj[p]], which throws
    on [null] and [undefined]; later versions return [undefined] there.
    The version is not pinned by the sources, so [strict] selects. *)
Definition prop (strict : bool) (hidden : value → string → value) (h : heap)
    (p : string) (v : value) : outcome value :=
  match v with
  | VUndefined | VNull => if strict then Threw TypeError else Returned VUndefined
  | _ => Returned (value_get hidden h v p)
  end.

(** [R.max(a, b)] on lengths, [None] standing for [undefined].  Up to
    ramda 0.28 this is [b > a ? b : a], which answers [a] when [b] is
    [undefined]; from 0.29 on the answer is [undefined] as soon as one
    argument is.  The version is not pinned, so [legacy] selects. *)
Definition max (legacy : bool) (a b : option nat) : option nat :=
  match a, b with
  | Some x, Some y => Some (if Nat.ltb x y then y else x)
  | Some x, None => if legacy then Some x else None
  | None, _ => None
  end.
End Ramda.

(** [xs.map(f)] for an [f] that may throw: stops at the first throw. *)
Fixpoint map_outcome {A B} (f : A → outcome B) (xs : list A) : outcome (list B) :=
  match xs with
  | [] => Returned []
  | x :: xs' =>
      match f x with
      | Returned y =>
          match map_outcome f xs' with
          | Returned ys => Returned (y :: ys)
          | Threw e => Threw e
          | OutOfFuel => OutOfFuel
          | OutsideModel => OutsideModel
          end
      | Threw e => Threw e
      | OutOfFuel => OutOfFuel
      | OutsideModel => OutsideModel
      end
  end.

Definition shallowEqual (strict : bool) (hidden : value → string → value)
    (h : heap) (a b : value) : outcome bool :=
  if strictEqual a b then Returned true
  else
    let keysA := Ramda.keys h a in
    match map_outcome (λ k, Ramda.prop strict hidden h k a) keysA with
    | Returned valsA =>
        match map_outcome (λ k, Ramda.prop strict hidden h k b) keysA with
        | Returned valsB =>
            let pairs := zip valsA valsB in
            Returned (bool_decide (length keysA = length (Ramda.keys h b))
                      && forallb (λ p, strictEqual p.1 p.2) pairs)
        | Threw e => Threw e
        | OutOfFuel => OutOfFuel
        | OutsideModel => OutsideModel
        end
    | Threw e => Threw e
    | OutOfFuel => OutOfFuel
    | OutsideModel => OutsideModel
    end.

(** The heap holding [{x: 1}] at 0 and [{x: 1, y: 2}] at 1. *)
Definition heap_x_xy : heap :=
  [ Obj Plain [("x", VNum 1)] 0; Obj Plain [("x", VNum 1); ("y", VNum 2)] 0 ].

(** ** The state and error monad

    A computation reads and writes a state and returns, throws, or runs out
    of the recursion budget.  The state survives a throw, as a mutated
    JavaScript heap does. *)

Definition M (St A : Type) : Type := St → outcome A * St.

Definition ret {St A} (a : A) : M St A := λ st, (Returned a, st).

Definition bind {St A B} (c : M St A) (k : A → M St B) : M St B :=
  λ st,
    match c st with
    | (Returned a, st') => k a st'
    | (Threw e, st') => (Threw e, st')
    | (OutOfFuel, st') => (OutOfFuel, st')
    | (OutsideModel, st') => (OutsideModel, st')
    end.

Definition throw {St A} (e : error) : M St A := λ st, (Threw e, st).
Definition out_of_fuel {St A} : M St A := λ st, (OutOfFuel, st).
Definition outside_model {St A} : M St A := λ st, (OutsideModel, st).
Definition gets {St A} (f : St → A) : M St A := λ st, (Returned (f st), st).
Definition modify {St} (f : St → St) : M St unit := λ st, (Returned tt, f st).

Notation "x <- c ;; k" := (bind c (λ x, k))
  (at level 100, c at next level, right associativity).
Notation "c ;;; k" := (bind c (λ _, k))
  (at level 100, right associativity).

(** [xs.forEach(f)] *)
Fixpoint forEach {St A} (xs : list A) (f : A → M St unit) : M St unit :=
  match xs with
  | [] => ret tt
  | x :: xs' => f x ;;; forEach xs' f
  end.

(** ** Writing properties *)

Fixpoint props_replace (k : string) (v : value) (ps : list (string * value))
  : list (string * value) :=
  match ps with
  | [] => []
  | (k', v') :: ps' =>
      if String.eqb k k' then (k, v) :: ps' else (k', v') :: props_replace k v ps'
  end.

(** A new index key goes before the first larger index and before every
    key that is not an index: integer keys enumerate first, ascending. *)
Fixpoint props_insert_index (i : nat) (k : string) (v : value)
    (ps : list (string * value)) : list (string * value) :=
  match ps with
  | [] => [(k, v)]
  | (k', v') :: ps' =>
      match index_of_key k' with
      | Some j =>
          if Nat.ltb i j then (k, v) :: ps
          else (k', v') :: props_insert_index i k v ps'
      | None => (k, v) :: ps
      end
  end.

Definition props_set (k : string) (v : value) (ps : list (string * value))
  : list (string * value) :=
  match assoc k ps with
  | Some _ => props_replace k v ps
  | None =>
      match index_of_key k with
      | Some i => props_insert_index i k v ps
      | None => ps ++ [(k, v)]
      end
  end.

(** [o[k] = v] for a key other than an array's [length]; writing an index
    at or past the end of an array extends the array. *)
Definition obj_set (o : obj) (k : string) (v : value) : obj :=
  Obj (o_kind o) (props_set k v (o_props o))
      (match o_kind o, index_of_key k with
       | Arr, Some i => Nat.max (o_len o) (S i)
       | _, _ => o_len o
       end).

(** [array.length = n]: elements at [n] and beyond are dropped, new slots
    are empty. *)
Definition set_length (o : obj) (n : nat) : obj :=
  Obj (o_kind o)
      (List.filter (λ p, match index_of_key p.1 with
                         | Some i => Nat.ltb i n
                         | None => true
                         end) (o_props o))
      n.

(** [target[k] = v] where [target] is an object reference.  The key
    [__proto__] goes to the setter that plain objects and arrays inherit
    from [Object.prototype]: no own property is created; a primitive [v]
    is ignored, an object or [null] becomes the prototype of the target,
    which the heap does not record.  The [length] of an array takes a
    number below [2^32]. *)
Definition assign (l : loc) (k : string) (v : value) : M heap unit :=
  λ h,
    match h !! l with
    | None => (OutsideModel, h)
    | Some o =>
        if String.eqb k "__proto__" then
          match o_kind o, v with
          | Exotic, _ => (OutsideModel, h)
          | _, VRef _ | _, VNull => (OutsideModel, h)
          | _, _ => (Returned tt, h)
          end
        else if bool_decide (o_kind o = Arr) && String.eqb k "length" then
          match v with
          | VNum n =>
              if (0 <=? n)%Z && (n <? 4294967296)%Z
              then (Returned tt, <[l := set_length o (Z.to_nat n)]> h)
              else (Threw RangeError, h)
          | _ => (OutsideModel, h)
          end
        else (Returned tt, <[l := obj_set o k v]> h)
    end.

(** A fresh object; its reference is the next free location. *)
Definition alloc (o : obj) : M heap loc := λ h, (Returned (length h), h ++ [o]).

Definition empty_object : obj := Obj Plain [] 0.
Definition empty_array : obj := Obj Arr [] 0.

(** ** align *)

(** [array.length] as read by the mapper of [align], for the element kinds
    the function is documented for: an array has its length, reading a
    property of [undefined] or [null] throws. *)
Definition length_of (h : heap) (v : value) : outcome nat :=
  match v with
  | VRef l =>
      match h !! l with
      | Some o => if bool_decide (o_kind o = Arr) then Returned (o_len o) else OutsideModel
      | None => OutsideModel
      end
  | VUndefined | VNull => Threw TypeError
  | _ => OutsideModel
  end.

(** [data.map(array => array.length)]: empty slots of [data] are skipped
    and stay empty in the result. *)
Fixpoint map_lengths (h : heap) (o : obj) (indices : list nat)
  : outcome (list (option nat)) :=
  match indices with
  | [] => Returned []
  | i :: rest =>
      match assoc (key_of_index i) (o_props o) with
      | None =>
          match map_lengths h o rest with
          | Returned ls => Returned (None :: ls)
          | r => r
          end
      | Some v =>
          match length_of h v with
          | Returned n =>
              match map_lengths h o rest with
              | Returned ls => Returned (Some n :: ls)
              | r => r
              end
          | Threw e => Threw e
          | OutOfFuel => OutOfFuel
          | OutsideModel => OutsideModel
          end
      end
  end.

(** [reduce(max, 0, lengths)]; an empty slot reads as [undefined]. *)
Definition reduce_max (legacy : bool) (lengths : list (option nat)) : option nat :=
  fold_left (Ramda.max legacy) lengths (Some 0).

(** [for (let i = 0; i < data.length; i++) data[i].length = maxLength;]
    The bound [data.length] is read again on every iteration; the
    element [data[i]] is read before the length is converted, so an
    element that is not there throws the TypeError before an [undefined]
    length throws the RangeError. *)
Fixpoint align_loop (fuel : nat) (data : loc) (maxLength : option nat) (i : nat)
  : M heap unit :=
  match fuel with
  | 0 => out_of_fuel
  | S fuel' =>
      o <- gets (λ h, h !! data) ;;
      match o with
      | None => outside_model
      | Some o =>
          if bool_decide (i < o_len o) then
            match assoc (key_of_index i) (o_props o) with
            | None | Some VUndefined | Some VNull => throw TypeError
            | Some (VRef l) =>
                a <- gets (λ h, h !! l) ;;
                match a with
                | Some a =>
                    if bool_decide (o_kind a = Arr) then
                      match maxLength with
                      | Some n =>
                          modify (λ h, <[l := set_length a n]> h) ;;;
                          align_loop fuel' data maxLength (S i)
                      | None => throw RangeError
                      end
                    else outside_model
                | None => outside_model
                end
            | Some _ => outside_model
            end
          else ret tt
      end
  end.

Definition align (legacy : bool) (data : loc) : M heap value :=
  o <- gets (λ h, h !! data) ;;
  match o with
  | Some o =>
      if bool_decide (o_kind o = Arr) then
        lengths <- (λ h, (map_lengths h o (seq 0 (o_len o)), h)) ;;
        let maxLength := reduce_max legacy lengths in
        align_loop (S (Nat.max (o_len o) (default 0 maxLength))) data maxLength 0 ;;;
        ret (VRef data)
      else outside_model
  | None => outside_model
  end.

(** ** Path accumulation *)

(** A path is an array of keys or a nestedProperty string. *)
Inductive pathval :=
  | PathArr (segments : list string)
  | PathStr (s : string).

Global Instance pathval_eq_dec : EqDecision pathval.
Proof. solve_decision. Defined.

Definition path_truthy (p : pathval) : bool :=
  match p with
  | PathArr _ => true
  | PathStr s => negb (String.eqb s "")
  end.

Definition path_length (p : pathval) : nat :=
  match p with
  | PathArr l => length l
  | PathStr s => String.length s
  end.

(** The string an array of strings converts to: its elements joined by
    commas. *)
Definition path_to_string (p : pathval) : string :=
  match p with
  | PathArr l => String.concat "," l
  | PathStr s => s
  end.

(** The object [getPath] returns: its mode and its [_path]. *)
Record accumulator := Accumulator { acc_pathType : value; acc_path : pathval }.

Definition getPath (pathType : value) (_path : option pathval) : accumulator :=
  let pathType :=
    if bool_decide (pathType = VUndefined) then VStr "array" else pathType in
  let initial :=
    if strictEqual pathType (VStr "array") then PathArr [] else PathStr "" in
  Accumulator pathType
    (match _path with
     | Some p => if path_truthy p then p else initial
     | None => initial
     end).

Definition getPath_set (this : accumulator) (h : heap) (parent : loc) (key : string)
  : outcome accumulator :=
  let pathType := acc_pathType this in
  if strictEqual pathType (VStr "array") then
    Returned (getPath pathType (Some
      match acc_path this with
      | PathArr l => PathArr (l ++ [key])
      | PathStr s => PathStr (s +:+ key)
      end))
  else if strictEqual pathType (VStr "nestedProperty") then
    Returned (getPath pathType (Some
      (if bool_decide (path_length (acc_path this) = 0) then PathStr key
       else if isArray h (VRef parent)
            then PathStr (path_to_string (acc_path this) +:+ "[" +:+ key +:+ "]")
            else PathStr (path_to_string (acc_path this) +:+ "." +:+ key))))
  else Threw (UnrecognizedPathType pathType).

Definition getPath_get (this : accumulator) (h : heap) (parent : loc) (key : string)
  : outcome pathval :=
  if strictEqual (acc_pathType this) (VStr "array") then Returned (acc_path this)
  else
    match getPath_set this h parent key with
    | Returned next => Returned (acc_path next)
    | Threw e => Threw e
    | OutOfFuel => OutOfFuel
    | OutsideModel => OutsideModel
    end.

(** ** makeAttrSetterPath *)

(** A path part: a string, a number, or an array of parts. *)
#[local] Set Warnings "-register-all".
Inductive part :=
  | PartStr (s : string)
  | PartNum (n : Z)
  | PartArr (items : list part).

(** The string a part converts to under [+]. *)
Fixpoint part_to_string (p : part) : string :=
  match p with
  | PartStr s => s
  | PartNum n => string_of_Z n
  | PartArr items => String.concat "," (map part_to_string items)
  end.

Definition part_is (p : option part) (s : string) : bool :=
  match p with
  | Some (PartStr s') => String.eqb s' s
  | _ => false
  end.

Definition makeAttrSetterPath (parts : list part) : string :=
  let i0 := 0 in
  let i0 := if part_is (parts !! i0) "_fullData" then i0 + 2 else i0 in
  let i0 := if part_is (parts !! i0) "_fullInput" then i0 + 1 else i0 in
  let i0 := if part_is (parts !! i0) "_fullLayout" then i0 + 1 else i0 in
  fold_left
    (λ path i,
       match parts !! i with
       | Some (PartNum n) => path +:+ "[" +:+ string_of_Z n +:+ "]"
       | Some (PartArr items) =>
           path +:+ "[" +:+
             (match items with
              | first :: _ => part_to_string first
              | [] => "undefined"
              end) +:+ "]"
       | Some (PartStr s) => path +:+ (if Nat.ltb i0 i then "." else "") +:+ s
       | None => path
       end)
    (seq i0 (length parts - i0)) "".

(** ** walkObject *)

(** One completed call of the visitor: its arguments and what it
    returned.  The log of events is a ghost of the embedding; the code
    keeps no such record. *)
Record event := Event {
  ev_key : string;
  ev_parent : loc;
  ev_path : pathval;
  ev_result : value
}.

(** What a walk acts on: the heap, the state the visitor closes over, and
    the ghost log. *)
Record world (St : Type) := World { w_heap : heap; w_state : St; w_log : list event }.
Arguments World {St} _ _ _.
Arguments w_heap {St} _.
Arguments w_state {St} _.
Arguments w_log {St} _.

(** A visitor receives the key, the parent object and the path; it may read
    and change the heap and its own state, and returns a value or throws. *)
Definition visitor (St : Type) : Type :=
  string → loc → pathval → M (heap * St) value.

Record config := Config {
  walkArrays : value;
  walkArraysMatchingKeys : option (list value);
  pathType : value
}.

(** [{}], the default configuration. *)
Definition default_config : config := Config VUndefined None VUndefined.

(** [keys.includes(key)] for a string [key]. *)
Definition includes (keys : list value) (key : string) : bool :=
  existsb (λ v, bool_decide (v = VStr key)) keys.

Definition doArrayWalk (h : heap) (key : string) (val : value)
    (walkArrays : value) (walkArraysMatchingKeys : option (list value)) : bool :=
  if negb (isArray h val) then false
  else if truthy walkArrays
          || match walkArraysMatchingKeys with
             | Some keys => includes keys key
             | None => false
             end
  then true
  else false.

Section Walk.
Context {St : Type}.

Definition lift_outcome {A} (f : heap → outcome A) : M (world St) A :=
  λ w, (f (w_heap w), w).

(** Calling the visitor; a call that returns is logged. *)
Definition call (callback : visitor St) (key : string) (parent : loc) (p : pathval)
  : M (world St) value :=
  λ w,
    match callback key parent p (w_heap w, w_state w) with
    | (Returned r, (h', s')) =>
        (Returned r, World h' s' (w_log w ++ [Event key parent p r]))
    | (Threw e, (h', s')) => (Threw e, World h' s' (w_log w))
    | (OutOfFuel, (h', s')) => (OutOfFuel, World h' s' (w_log w))
    | (OutsideModel, (h', s')) => (OutsideModel, World h' s' (w_log w))
    end.

(** The arrow function [_walkObject] hands to [forEach].  [recurse] is
    the inner call of [_walkObject], with the fuel that is left. *)
Definition walk_key (recurse : loc → accumulator → M (world St) unit)
    (object : loc) (callback : visitor St) (path : accumulator) (config : config)
    (key : string) : M (world St) unit :=
  p <- lift_outcome (λ h, getPath_get path h object key) ;;
  stop <- call callback key object p ;;
  if truthy stop then ret tt
  else
    val <- gets (λ w, heap_get (w_heap w) object key) ;;
    descend <- gets (λ w,
      isPlainObject (w_heap w) val
      || doArrayWalk (w_heap w) key val
           (walkArrays config) (walkArraysMatchingKeys config)) ;;
    if descend then
      match val with
      | VRef l =>
          next <- lift_outcome (λ h, getPath_set path h object key) ;;
          recurse l next
      | _ => ret tt
      end
    else ret tt.

Fixpoint _walkObject (fuel : nat) (object : loc) (callback : visitor St)
    (path : accumulator) (config : config) : M (world St) unit :=
  match fuel with
  | 0 => out_of_fuel
  | S fuel' =>
      keys <- gets (λ w, Object_keys (w_heap w) object) ;;
      forEach keys
        (walk_key (λ l next, _walkObject fuel' l callback next config)
                  object callback path config)
  end.

Definition walkObject (fuel : nat) (input : value) (callback : visitor St)
    (config : config) : M (world St) unit :=
  valid <- gets (λ w, isPlainObject (w_heap w) input || isArray (w_heap w) input) ;;
  if negb valid then throw InvalidInput
  else
    let path := getPath (pathType config) None in
    match input with
    | VRef l => _walkObject fuel l callback path config
    | _ => throw InvalidInput
    end.
End Walk.

(** ** copyObject *)

(** The variables [walkCallback] closes over, next to the state of the
    caller's callback. *)
Record copier (U : Type) := Copier {
  inputObjects : list value;
  outputObjects : list loc;
  user : U
}.
Arguments Copier {U} _ _ _.
Arguments inputObjects {U} _.
Arguments outputObjects {U} _.
Arguments user {U} _.

(** [xs.indexOf(x)]: the first index holding a value [===] to [x]. *)
Fixpoint indexOf (xs : list value) (x : value) : option nat :=
  match xs with
  | [] => None
  | y :: ys => if strictEqual y x then Some 0 else S <$> indexOf ys x
  end.

Section Copy.
Context {U : Type}.

(** Running the caller's callback on its own part of the state. *)
Definition call_user (c : M (heap * U) value) : M (heap * copier U) value :=
  λ '(h, st),
    let '(r, (h', u')) := c (h, user st) in
    (r, (h', Copier (inputObjects st) (outputObjects st) u')).

Definition on_heap {A} (c : M heap A) : M (heap * copier U) A :=
  λ '(h, st), let '(r, h') := c h in (r, (h', st)).

(** [inputObjects.push(i); outputObjects.push(o);] *)
Definition push (i : value) (o : loc) : M (heap * copier U) unit :=
  modify (λ '(h, st),
    (h, Copier (inputObjects st ++ [i]) (outputObjects st ++ [o]) (user st))).

Definition walkCallback (callback : visitor U) : visitor (copier U) :=
  λ key inputParent path,
    r <- call_user (callback key inputParent path) ;;
    if strictEqual r (VBool false) then ret (VBool true)
    else
      outputParent <- gets (λ '(h, st),
        indexOf (inputObjects st) (VRef inputParent) ≫= λ i, outputObjects st !! i) ;;
      inputValue <- gets (λ '(h, st), heap_get h inputParent key) ;;
      isObject <- gets (λ '(h, st), isPlainObject h inputValue) ;;
      isArray <- gets (λ '(h, st), if isObject then false else isArray h inputValue) ;;
      (if isObject || isArray then
         outputValue <- on_heap (alloc (if isArray then empty_array else empty_object)) ;;
         push inputValue outputValue ;;;
         match outputParent with
         | Some outputParent => on_heap (assign outputParent key (VRef outputValue))
         | None => throw TypeError
         end
       else
         match outputParent with
         | Some outputParent => on_heap (assign outputParent key inputValue)
         | None => throw TypeError
         end) ;;;
      ret (VBool false).

(** [copyObject(input, callback)].  The walk runs on the copier's state;
    the caller sees the heap, its own state and the log again. *)
Definition copyObject (fuel : nat) (input : value) (callback : visitor U)
  : M (world U) value :=
  λ w,
    let h := w_heap w in
    let output := length h in
    let h := h ++ [if isArray h input then empty_array else empty_object] in
    let inputObjects := [input] in
    let outputObjects := [output] in
    let '(r, w') :=
      walkObject fuel input (walkCallback callback)
        (Config (VBool true) None VUndefined)
        (World h (Copier inputObjects outputObjects (w_state w)) (w_log w)) in
    let w'' := World (w_heap w') (user (w_state w')) (w_log w') in
    match r with
    | Returned _ => (Returned (VRef output), w'')
    | Threw e => (Threw e, w'')
    | OutOfFuel => (OutOfFuel, w'')
    | OutsideModel => (OutsideModel, w'')
    end.
End Copy.

(** ** Example heaps and visitors *)

(** A visitor without state that never stops the walk. *)
Definition visit_all : visitor unit := λ _ _ _, ret VUndefined.

(** A visitor that stops at the key ["a"]. *)
Definition stop_at_a : visitor unit :=
  λ key _ _, ret (VBool (String.eqb key "a")).

(** [key => key !== 'a'] *)
Definition not_a : visitor unit :=
  λ key _ _, ret (VBool (negb (String.eqb key "a"))).

(** [() => true] *)
Definition always_true : visitor unit := λ _ _ _, ret (VBool true).

(** [{a: {b: 1}, c: [1, 2]}] at 0. *)
Definition heap_abc : heap :=
  [ Obj Plain [("a", VRef 1); ("c", VRef 2)] 0;
    Obj Plain [("b", VNum 1)] 0;
    Obj Arr [("0", VNum 1); ("1", VNum 2)] 2 ].

(** [{a: {b: 1}}] at 0. *)
Definition heap_ab : heap :=
  [ Obj Plain [("a", VRef 1)] 0; Obj Plain [("b", VNum 1)] 0 ].

(** [{a: {b: 1}, c: 2}] at 0. *)
Definition heap_abc2 : heap :=
  [ Obj Plain [("a", VRef 1); ("c", VNum 2)] 0; Obj Plain [("b", VNum 1)] 0 ].

(** [o = {x: 1}] at 1 and [{a: o, b: o}] at 0. *)
Definition heap_shared : heap :=
  [ Obj Plain [("a", VRef 1); ("b", VRef 1)] 0; Obj Plain [("x", VNum 1)] 0 ].

(** [o = {}; o.self = o] at 0. *)
Definition heap_cyclic : heap := [ Obj Plain [("self", VRef 0)] 0 ].

Definition start {St} (h : heap) (s : St) : world St := World h s [].

(** * Properties *)

(** ** shallowEqual *)

Lemma strictEqual_true a b : strictEqual a b = true ↔ a = b ∧ a ≠ VNaN.
Proof.
  unfold strictEqual.
  destruct a, b; rewrite ?bool_decide_eq_true; naive_solver.
Qed.




(** C1, as the code has it: the two objects have one and two own keys, and
    the comparison of the key counts makes [shallowEqual({x:1}, {x:1,y:2})]
    return false, whichever version of [R.prop] is in use. *)
Theorem shallowEqual_x_xy_false strict hidden :
  shallowEqual strict hidden heap_x_xy (VRef 0) (VRef 1) = Returned false.
Proof. by destruct strict. Qed.

(** C1 fails as stated: the call does not return true. *)
Lemma shallowEqual_x_xy_not_true :
  shallowEqual true (λ _ _, VUndefined) heap_x_xy (VRef 0) (VRef 1) = Returned false
  ∧ shallowEqual false (λ _ _, VUndefined) heap_x_xy (VRef 0) (VRef 1) = Returned false
  ∧ Returned false ≠ Returned true.
Proof. repeat split; done. Qed.





Lemma elem_of_keys_assoc k ps : k ∈ map fst ps → ∃ v, assoc k ps = Some v ∧ (k, v) ∈ ps.
Proof.
  induction ps as [|[k' v'] ps IH]; cbn; [by intros ?%elem_of_nil|].
  destruct (String.eqb_spec k k') as [-> | Hne].
  - intros _. exists v'. split; [done | left].
  - intros [?|Hin]%elem_of_cons; [done|].
    destruct (IH Hin) as (v & ? & ?). exists v. split; [done | by right].
Qed.




(** What the objects of [heap_toString] inherit: [toString]. *)
Definition inherits_toString : value → string → value :=
  λ _ k, if String.eqb k "toString" then VRef 2 else VUndefined.


(** ** makeAttrSetterPath *)

(** The formatter as the specification words it: the [_fullInput] prefix
    is looked for only when there was no [_fullData] prefix, and only a
    single-element list is written as an index. *)
Definition makeAttrSetterPath_spec (segments : list part) : string :=
  let rest :=
    match segments with
    | PartStr s :: _ =>
        if String.eqb s "_fullData" then drop 2 segments
        else if String.eqb s "_fullInput" then drop 1 segments
        else segments
    | _ => segments
    end in
  let rest :=
    match rest with
    | PartStr s :: rest' => if String.eqb s "_fullLayout" then rest' else rest
    | _ => rest
    end in
  (fix emit (first : bool) (ps : list part) : string :=
     match ps with
     | [] => ""
     | PartNum n :: ps' => "[" +:+ string_of_Z n +:+ "]" +:+ emit false ps'
     | PartArr [item] :: ps' => "[" +:+ part_to_string item +:+ "]" +:+ emit false ps'
     | p :: ps' => (if first then "" else ".") +:+ part_to_string p +:+ emit false ps'
     end) true rest.

(** The formatter as the code has it, on lists: each of the three prefixes
    is looked for where the previous step stopped. *)
Definition strip (marker : string) (n : nat) (ps : list part) : list part :=
  match ps with
  | PartStr s :: _ => if String.eqb s marker then drop n ps else ps
  | _ => ps
  end.

Definition strip_prefixes (parts : list part) : list part :=
  strip "_fullLayout" 1 (strip "_fullInput" 1 (strip "_fullData" 2 parts)).

Definition emit_part (first : bool) (p : part) : string :=
  match p with
  | PartNum n => "[" +:+ string_of_Z n +:+ "]"
  | PartArr (item :: _) => "[" +:+ part_to_string item +:+ "]"
  | PartArr [] => "[undefined]"
  | PartStr s => (if first then "" else ".") +:+ s
  end.

Fixpoint emit_parts (first : bool) (ps : list part) : string :=
  match ps with
  | [] => ""
  | p :: ps' => emit_part first p +:+ emit_parts false ps'
  end.

Lemma append_assoc (a b c : string) : (a +:+ b) +:+ c = a +:+ (b +:+ c).
Proof.
  induction a as [|x a IH]; [done|].
  change (String x ((a +:+ b) +:+ c) = String x (a +:+ (b +:+ c))). by f_equal.
Qed.

Lemma append_empty_r (a : string) : a +:+ "" = a.
Proof.
  induction a as [|x a IH]; [done|].
  change (String x (a +:+ "") = String x a). by f_equal.
Qed.

Lemma strip_drop marker n parts i :
  strip marker n (drop i parts)
  = drop (if part_is (parts !! i) marker then i + n else i) parts.
Proof.
  unfold strip, part_is.
  destruct (parts !! i) as [p|] eqn:E.
  - rewrite (drop_S _ _ _ E).
    destruct p as [s| |]; rewrite <- ?(drop_S _ _ _ E); try done.
    destruct (String.eqb s marker); [|done].
    by rewrite drop_drop.
  - apply lookup_ge_None in E. by rewrite drop_ge.
Qed.

(** The loop over [i0 <= i < parts.length] emits the parts from [i] on. *)
Lemma loop_emit parts i0 i acc :
  i0 ≤ i →
  fold_left
    (λ path j,
       match parts !! j with
       | Some (PartNum n) => path +:+ "[" +:+ string_of_Z n +:+ "]"
       | Some (PartArr items) =>
           path +:+ "[" +:+
             (match items with
              | first :: _ => part_to_string first
              | [] => "undefined"
              end) +:+ "]"
       | Some (PartStr s) => path +:+ (if Nat.ltb i0 j then "." else "") +:+ s
       | None => path
       end)
    (seq i (length parts - i)) acc
  = acc +:+ emit_parts (bool_decide (i = i0)) (drop i parts).
Proof.
  intros Hle.
  remember (length parts - i) as n eqn:Hn.
  revert i acc Hle Hn. induction n as [|n IH]; intros i acc Hle Hn.
  - rewrite drop_ge by lia. cbn. by rewrite append_empty_r.
  - destruct (parts !! i) as [p|] eqn:Ep.
    2:{ apply lookup_ge_None in Ep. lia. }
    rewrite (drop_S _ _ _ Ep). cbn [seq fold_left emit_parts]. rewrite Ep.
    rewrite IH by lia.
    rewrite (bool_decide_eq_false_2 (S i = i0)) by lia.
    destruct p as [s|m|[|item items]]; cbn [emit_part]; rewrite ?append_assoc; try done.
    repeat f_equal.
    case_bool_decide; subst.
    + by rewrite Nat.ltb_irrefl.
    + by rewrite (proj2 (Nat.ltb_lt i0 i)) by lia.
Qed.

(** C6 fails as stated on a path that has both prefixes: the code removes
    [_fullInput] after [_fullData] and its index, the wording keeps it. *)
Lemma makeAttrSetterPath_fullData_fullInput :
  makeAttrSetterPath [PartStr "_fullData"; PartNum 0; PartStr "_fullInput"; PartStr "x"]
    = "x"
  ∧ makeAttrSetterPath_spec [PartStr "_fullData"; PartNum 0; PartStr "_fullInput"; PartStr "x"]
    = "_fullInput.x".
Proof. split; reflexivity. Qed.

(** C6, as the code has it: [makeAttrSetterPath] drops two parts when the
    first is ['_fullData'], then one part when the next is ['_fullInput']
    (whether or not the first step dropped anything), then one part when
    the next is ['_fullLayout']; of what remains, a number is written
    [[n]], a list is written [[x]] for its first element [x], and a string
    is written after a ['.'] that is left out at the first remaining
    position.  [['_fullData', 0, 'transforms', 3, 'type']] gives
    ['transforms[3].type']. *)
Theorem makeAttrSetterPath_emit (parts : list part) :
  makeAttrSetterPath parts = emit_parts true (strip_prefixes parts)
  ∧ makeAttrSetterPath
      [PartStr "_fullData"; PartNum 0; PartStr "transforms"; PartNum 3; PartStr "type"]
    = "transforms[3].type".
Proof.
  split; [|reflexivity].
  unfold makeAttrSetterPath, strip_prefixes.
  change (strip "_fullData" 2 parts) with (strip "_fullData" 2 (drop 0 parts)).
  rewrite !strip_drop. cbn zeta.
  set (i1 := if part_is (parts !! 0) "_fullData" then 0 + 2 else 0).
  set (i2 := if part_is (parts !! i1) "_fullInput" then i1 + 1 else i1).
  set (i3 := if part_is (parts !! i2) "_fullLayout" then i2 + 1 else i2).
  rewrite (loop_emit parts i3 i3 "") by done.
  by rewrite bool_decide_eq_true_2.
Qed.

(** ** The walk in array mode

    With the default [pathType] the accumulator holds the keys that lead
    to the object being walked, and one step of the walk has a closed
    form.  The walks the code can make are then described by a relation,
    on which the properties of a traversal are proved by rule induction. *)

Definition array_acc (p : list string) : accumulator :=
  Accumulator (VStr "array") (PathArr p).

(** Where the walk goes below [object[key]]: into a plain object, and into
    an array that [doArrayWalk] admits. *)
Definition descent (h : heap) (cfg : config) (object : loc) (key : string)
  : option loc :=
  match heap_get h object key with
  | VRef l =>
      if isPlainObject h (VRef l)
         || doArrayWalk h key (VRef l) (walkArrays cfg) (walkArraysMatchingKeys cfg)
      then Some l else None
  | _ => None
  end.

Definition is_returned {A} (r : outcome A) : bool :=
  match r with Returned _ => true | _ => false end.

(** An outcome that is not a return, at another type. *)
Definition abort {A B} (r : outcome A) : outcome B :=
  match r with
  | Returned _ => OutsideModel
  | Threw e => Threw e
  | OutOfFuel => OutOfFuel
  | OutsideModel => OutsideModel
  end.

Lemma getPath_default : getPath VUndefined None = array_acc [].
Proof. reflexivity. Qed.

Lemma getPath_array : getPath (VStr "array") None = array_acc [].
Proof. reflexivity. Qed.

Lemma getPath_get_array p h o k : getPath_get (array_acc p) h o k = Returned (PathArr p).
Proof. reflexivity. Qed.

Lemma getPath_set_array p h o k :
  getPath_set (array_acc p) h o k = Returned (array_acc (p ++ [k])).
Proof. reflexivity. Qed.

Section WalkArrayMode.
Context {St : Type} (callback : visitor St) (cfg : config).

Lemma walk_key_array recurse o p k h s l0 :
  walk_key recurse o callback (array_acc p) cfg k (World h s l0)
  = match callback k o (PathArr p) (h, s) with
    | (Returned r, (h1, s1)) =>
        let w1 := World h1 s1 (l0 ++ [Event k o (PathArr p) r]) in
        if truthy r then (Returned tt, w1)
        else match descent h1 cfg o k with
             | Some a => recurse a (array_acc (p ++ [k])) w1
             | None => (Returned tt, w1)
             end
    | (r, (h1, s1)) => (abort r, World h1 s1 l0)
    end.
Proof.
  unfold walk_key, bind, lift_outcome, call, gets, ret, descent. cbn.
  rewrite getPath_get_array.
  destruct (callback k o (PathArr p) (h, s)) as [[r| | |] [h1 s1]]; cbn; try done.
  destruct (truthy r); [done|]. cbn.
  destruct (heap_get h1 o k) as [| | | | | |a]; cbn;
    by destruct (isPlainObject _ _ || doArrayWalk _ _ _ _ _).
Qed.

(** [walks o p ks σ b Δ σ']: walking the keys [ks] of the object [o],
    reached by the keys [p], from the heap and visitor state [σ], logs
    the calls [Δ] and ends in [σ']; [b] tells whether the walk ran to
    its end. *)
Inductive walks : loc → list string → list string → heap * St → bool →
                  list event → heap * St → Prop :=
  | walks_nil o p σ :
      walks o p [] σ true [] σ
  | walks_cut o p ks σ :
      walks o p ks σ false [] σ
  | walks_throw o p k ks σ r σ1 :
      callback k o (PathArr p) σ = (r, σ1) →
      is_returned r = false →
      walks o p (k :: ks) σ false [] σ1
  | walks_stop o p k ks σ r σ1 b Δ σ2 :
      callback k o (PathArr p) σ = (Returned r, σ1) →
      truthy r = true →
      walks o p ks σ1 b Δ σ2 →
      walks o p (k :: ks) σ b (Event k o (PathArr p) r :: Δ) σ2
  | walks_leaf o p k ks σ r σ1 b Δ σ2 :
      callback k o (PathArr p) σ = (Returned r, σ1) →
      truthy r = false →
      descent σ1.1 cfg o k = None →
      walks o p ks σ1 b Δ σ2 →
      walks o p (k :: ks) σ b (Event k o (PathArr p) r :: Δ) σ2
  | walks_into o p k ks σ r σ1 a b1 Δ1 σ2 b2 Δ2 σ3 :
      callback k o (PathArr p) σ = (Returned r, σ1) →
      truthy r = false →
      descent σ1.1 cfg o k = Some a →
      walks a (p ++ [k]) (Object_keys σ1.1 a) σ1 b1 Δ1 σ2 →
      walks o p ks σ2 b2 Δ2 σ3 →
      walks o p (k :: ks) σ (b1 && b2) (Event k o (PathArr p) r :: Δ1 ++ Δ2) σ3.

(** What the relation says of a run of the code from the log [l0]. *)
Definition runs_as (o : loc) (p ks : list string) (h : heap) (s : St)
    (l0 : list event) (res : outcome unit * world St) : Prop :=
  ∃ Δ, w_log res.2 = l0 ++ Δ
       ∧ walks o p ks (h, s) (is_returned res.1) Δ (w_heap res.2, w_state res.2).

Lemma forEach_walks recurse o p :
  (∀ a q h s l0,
     runs_as a q (Object_keys h a) h s l0 (recurse a (array_acc q) (World h s l0))) →
  ∀ ks h s l0,
    runs_as o p ks h s l0
      (forEach ks (walk_key recurse o callback (array_acc p) cfg) (World h s l0)).
Proof.
  intros Hrec ks. induction ks as [|k ks IH]; intros h s l0.
  { exists []. cbn. rewrite app_nil_r. split; [done | constructor]. }
  cbn [forEach]. unfold bind at 1. rewrite walk_key_array.
  destruct (callback k o (PathArr p) (h, s)) as [r [h1 s1]] eqn:Ecb.
  destruct r as [r| | |];
    try (exists []; cbn; rewrite app_nil_r; split; [done|];
         by eapply walks_throw; [apply Ecb|]).
  cbn zeta.
  set (l1 := l0 ++ [Event k o (PathArr p) r]).
  destruct (truthy r) eqn:Er.
  { destruct (IH h1 s1 l1) as (Δ & Hlog & Hw).
    exists (Event k o (PathArr p) r :: Δ). split.
    - rewrite Hlog. subst l1. by rewrite <- app_assoc.
    - by eapply walks_stop. }
  destruct (descent h1 cfg o k) as [a|] eqn:Ed.
  2:{ destruct (IH h1 s1 l1) as (Δ & Hlog & Hw).
      exists (Event k o (PathArr p) r :: Δ). split.
      - rewrite Hlog. subst l1. by rewrite <- app_assoc.
      - by eapply walks_leaf. }
  destruct (Hrec a (p ++ [k]) h1 s1 l1) as (Δ1 & Hlog1 & Hw1).
  destruct (recurse a (array_acc (p ++ [k])) (World h1 s1 l1))
    as [r1 [h2 s2 l2]] eqn:Erec.
  cbn in Hlog1, Hw1. subst l2.
  destruct r1 as [[]| | |]; cbn in Hw1.
  - destruct (IH h2 s2 (l1 ++ Δ1)) as (Δ2 & Hlog2 & Hw2).
    exists (Event k o (PathArr p) r :: Δ1 ++ Δ2). split.
    + rewrite Hlog2. subst l1. by rewrite <- !app_assoc.
    + change (is_returned _) with (true && is_returned
        (forEach ks (walk_key recurse o callback (array_acc p) cfg)
           {| w_heap := h2; w_state := s2; w_log := l1 ++ Δ1 |}).1).
      by eapply walks_into.
  - exists (Event k o (PathArr p) r :: Δ1 ++ []). cbn. split.
    + subst l1. by rewrite app_nil_r, <- app_assoc.
    + change false with (false && false).
      eapply walks_into; [done..|]. constructor.
  - exists (Event k o (PathArr p) r :: Δ1 ++ []). cbn. split.
    + subst l1. by rewrite app_nil_r, <- app_assoc.
    + change false with (false && false).
      eapply walks_into; [done..|]. constructor.
  - exists (Event k o (PathArr p) r :: Δ1 ++ []). cbn. split.
    + subst l1. by rewrite app_nil_r, <- app_assoc.
    + change false with (false && false).
      eapply walks_into; [done..|]. constructor.
Qed.

(** Every run of [_walkObject] in array mode is a walk of the relation. *)
Lemma _walkObject_walks fuel :
  ∀ o p h s l0,
    runs_as o p (Object_keys h o) h s l0
      (_walkObject fuel o callback (array_acc p) cfg (World h s l0)).
Proof.
  induction fuel as [|fuel IH]; intros o p h s l0.
  - exists []. cbn. rewrite app_nil_r. split; [done | constructor].
  - cbn [_walkObject]. unfold bind at 1, gets at 1. cbn [w_heap].
    apply forEach_walks. intros a q h' s' l'. apply IH.
Qed.
End WalkArrayMode.

(** ** Errors of walkObject *)

(** A reference is a value of the heap when its object exists. *)
Definition value_ok (h : heap) (v : value) : Prop :=
  match v with
  | VRef l => l < length h
  | _ => True
  end.

Lemma kind_of_alloc h o v : value_ok h v → kind_of (h ++ [o]) v = kind_of h v.
Proof.
  destruct v as [| | | | | |l]; try done. intros Hl.
  unfold kind_of. by rewrite lookup_app_l.
Qed.

(** C5: on an input that is neither a plain object nor an array,
    [walkObject] throws before it calls the visitor, and leaves the heap,
    the visitor's state and the log of calls as they were; [copyObject]
    throws the same error from its call of [walkObject], having allocated
    only the output object it never returns, and its callback is not
    called either. *)
Theorem invalid_input_rejected {U : Type} (fuel : nat) (input : value)
    (callback : visitor U) (cfg : config) (w : world U) :
  isPlainObject (w_heap w) input = false →
  isArray (w_heap w) input = false →
  value_ok (w_heap w) input →
  walkObject fuel input callback cfg w = (Threw InvalidInput, w)
  ∧ copyObject fuel input callback w
    = (Threw InvalidInput,
       World (w_heap w ++ [empty_object]) (w_state w) (w_log w)).
Proof.
  intros Hp Ha Hok. split.
  - unfold walkObject, bind, gets. by rewrite Hp, Ha.
  - unfold copyObject, walkObject, bind, gets. cbn [w_heap].
    rewrite Ha. unfold isPlainObject, isArray in *.
    rewrite (kind_of_alloc _ _ _ Hok). by rewrite Hp, Ha.
Qed.

Lemma invalid_input_rejected_witness :
  walkObject 3 (VNum 5) visit_all default_config (start [] tt)
  = (Threw InvalidInput, start [] tt)
  ∧ copyObject 3 (VNum 5) visit_all (start [] tt)
    = (Threw InvalidInput, World [empty_object] tt []).
Proof.
  apply (invalid_input_rejected 3 (VNum 5) visit_all default_config (start [] tt));
    reflexivity || exact I.
Defined.

(** The path modes [getPath] knows; [undefined] selects the default. *)
Definition recognized (pathType : value) : Prop :=
  pathType = VUndefined ∨ pathType = VStr "array" ∨ pathType = VStr "nestedProperty".

Lemma strictEqual_false_ne a b : a ≠ b → strictEqual a b = false.
Proof.
  intros Hne. destruct (strictEqual a b) eqn:E; [|done].
  apply strictEqual_true in E. naive_solver.
Qed.

Lemma getPath_get_unrecognized pt h o k :
  ¬ recognized pt →
  getPath_get (getPath pt None) h o k = Threw (UnrecognizedPathType pt).
Proof.
  intros Hpt. unfold recognized in Hpt.
  unfold getPath. rewrite bool_decide_eq_false_2 by naive_solver.
  unfold getPath_get, getPath_set. cbn.
  rewrite !(strictEqual_false_ne pt) by naive_solver. done.
Qed.

(** C9 fails as stated: on an object without keys no path is computed, and
    an unrecognized [pathType] raises nothing. *)
Lemma unrecognized_pathType_empty_input :
  walkObject 1 (VRef 0) visit_all (Config VUndefined None (VStr "bogus"))
    (start [empty_object] tt)
  = (Returned tt, start [empty_object] tt)
  ∧ ¬ recognized (VStr "bogus").
Proof. split; [reflexivity | unfold recognized; naive_solver]. Qed.

(** C9, as the code has it: with a [pathType] that is not recognized, a
    walk of an object or array that has at least one own key throws
    [unrecognized pathType] when it computes the path for the first key,
    before the visitor is called (heap, visitor state and log are as they
    were); a walk of an object or array without own keys computes no path
    and returns. *)
Theorem unrecognized_pathType {St : Type} (fuel : nat) (l : loc)
    (callback : visitor St) (cfg : config) (w : world St) :
  ¬ recognized (pathType cfg) →
  isPlainObject (w_heap w) (VRef l) || isArray (w_heap w) (VRef l) = true →
  walkObject (S fuel) (VRef l) callback cfg w
  = (match Object_keys (w_heap w) l with
     | [] => Returned tt
     | _ :: _ => Threw (UnrecognizedPathType (pathType cfg))
     end, w).
Proof.
  intros Hpt Hin.
  unfold walkObject, bind at 1, gets at 1. rewrite Hin. cbn [negb].
  cbn [_walkObject]. unfold bind at 1, gets at 1.
  destruct (Object_keys (w_heap w) l) as [|k ks]; [done|].
  cbn [forEach]. unfold bind at 1, walk_key, bind at 1, lift_outcome at 1.
  by rewrite getPath_get_unrecognized.
Qed.

Lemma unrecognized_pathType_witness :
  walkObject 2 (VRef 0) visit_all (Config VUndefined None (VStr "bogus"))
    (start heap_ab tt)
  = (Threw (UnrecognizedPathType (VStr "bogus")), start heap_ab tt).
Proof.
  apply (unrecognized_pathType 1 0 visit_all
           (Config VUndefined None (VStr "bogus")) (start heap_ab tt)).
  - unfold recognized. cbn. intros [H | [H | H]]; discriminate H.
  - reflexivity.
Defined.

(** ** Properties of a traversal *)

(** The keys that lead to the parent of the visited key, as the visitor
    receives them in array mode. *)
Definition segments (e : event) : list string :=
  match ev_path e with
  | PathArr l => l
  | PathStr _ => []
  end.

(** [e'] was logged below the value at the key of [e]. *)
Definition below (e e' : event) : Prop :=
  (segments e ++ [ev_key e]) `prefix_of` segments e'.

(** [e] is the call for the key [k] of the object reached by [p], or a call
    below that key. *)
Definition belongs (p : list string) (k : string) (e : event) : Prop :=
  (segments e = p ∧ ev_key e = k) ∨ ∃ q, segments e = p ++ k :: q.

Definition keys_nodup (h : heap) : Prop := ∀ l, NoDup (Object_keys h l).

Lemma belongs_below p k k' e e' :
  belongs p k e → belongs p k' e' → below e e' → k = k'.
Proof.
  intros He He' [q Hq].
  assert (∃ q0, segments e ++ [ev_key e] = p ++ k :: q0) as [q0 Hq0].
  { destruct He as [[-> ->] | [q1 ->]]; [by exists [] |].
    exists (q1 ++ [ev_key e]). by rewrite <- app_assoc. }
  rewrite Hq0, <- app_assoc in Hq. cbn in Hq.
  destruct He' as [[Hp _] | [q' Hq']].
  - rewrite Hp in Hq. apply (f_equal length) in Hq.
    rewrite length_app in Hq. cbn in Hq. lia.
  - rewrite Hq' in Hq. apply app_inv_head in Hq. congruence.
Qed.

Lemma belongs_deeper p k k1 e : belongs (p ++ [k]) k1 e → belongs p k e.
Proof.
  intros [[Hs _] | [q Hq]]; right.
  - exists []. by rewrite Hs.
  - exists (k1 :: q). by rewrite Hq, <- app_assoc.
Qed.

Lemma not_below_shorter p k e e' :
  belongs p k e → segments e' = p → ¬ below e e'.
Proof.
  intros He Hp [q Hq]. rewrite Hp in Hq.
  apply (f_equal length) in Hq.
  destruct He as [[Hs _] | [q1 Hs]]; rewrite Hs in Hq;
    rewrite !length_app in Hq; cbn in Hq; lia.
Qed.

Section Traversal.
Context {St : Type} (callback : visitor St) (cfg : config).

(** The visitor keeps a property of the heap. *)
Definition keeps (Inv : heap → Prop) : Prop :=
  ∀ k o path σ, Inv σ.1 → Inv (callback k o path σ).2.1.

(** The visitor leaves the heap as it is. *)
Definition heap_preserving : Prop :=
  ∀ k o path σ, (callback k o path σ).2.1 = σ.1.

Lemma heap_preserving_keeps h : heap_preserving → keeps (λ h', h' = h).
Proof. intros Hp k o path σ <-. apply Hp. Qed.

Section Invariant.
Context (Inv : heap → Prop) (Hkeeps : keeps Inv).

Lemma walks_inv o p ks σ b Δ σ' :
  walks callback cfg o p ks σ b Δ σ' → Inv σ.1 → Inv σ'.1.
Proof.
  intros Hw. induction Hw as
    [ | | o p k ks σ r σ1 Ecb _
      | o p k ks σ r σ1 b Δ σ2 Ecb _ _ IH
      | o p k ks σ r σ1 b Δ σ2 Ecb _ _ _ IH
      | o p k ks σ r σ1 a b1 Δ1 σ2 b2 Δ2 σ3 Ecb _ _ _ IH1 _ IH2 ];
    intros Hσ; try done;
    pose proof (Hkeeps k o (PathArr p) σ Hσ) as H1; rewrite Ecb in H1; auto.
Qed.

(** Every logged call belongs to one of the keys walked; and a call is
    logged below the key of another call only if the visitor returned a
    falsy value there and the walk went into the value at that key. *)
Lemma walks_tidy o p ks σ b Δ σ' :
  (∀ h, Inv h → keys_nodup h) →
  walks callback cfg o p ks σ b Δ σ' →
  NoDup ks → Inv σ.1 →
  (∀ e, e ∈ Δ → ∃ k, k ∈ ks ∧ belongs p k e)
  ∧ (∀ e e', e ∈ Δ → e' ∈ Δ → below e e' →
       truthy (ev_result e) = false
       ∧ ∃ h1, Inv h1 ∧ is_Some (descent h1 cfg (ev_parent e) (ev_key e))).
Proof.
  intros Hnodup Hw. induction Hw as
    [ | | o p k ks σ r σ1 Ecb _
      | o p k ks σ r σ1 b Δ σ2 Ecb Hr Hw IH
      | o p k ks σ r σ1 b Δ σ2 Ecb Hr _ Hw IH
      | o p k ks σ r σ1 a b1 Δ1 σ2 b2 Δ2 σ3 Ecb Hr Hd Hw1 IH1 Hw2 IH2 ];
    intros Hks Hσ;
    try (split; [intros e He | intros e e' He]; by apply elem_of_nil in He).
  - (* the visitor stopped the walk at [k] *)
    apply NoDup_cons in Hks as [Hk Hks].
    pose proof (Hkeeps k o (PathArr p) σ Hσ) as Hσ1. rewrite Ecb in Hσ1.
    destruct (IH Hks Hσ1) as [Hscope Hbelow].
    set (e0 := Event k o (PathArr p) r).
    assert (He0 : belongs p k e0) by (by left).
    split.
    + intros e [-> | He]%elem_of_cons.
      * exists k. split; [left | done].
      * destruct (Hscope e He) as (k' & Hk' & Hb). exists k'. split; [by right | done].
    + intros e e' [-> | He]%elem_of_cons [-> | He']%elem_of_cons Hbel.
      * by destruct (not_below_shorter p k e0 e0).
      * destruct (Hscope e' He') as (k' & Hk' & Hb).
        destruct Hk. by rewrite (belongs_below p k k' e0 e' He0 Hb Hbel).
      * destruct (Hscope e He) as (k' & Hk' & Hb).
        destruct Hk. by rewrite <- (belongs_below p k' k e e0 Hb He0 Hbel).
      * by apply (Hbelow e e').
  - (* the value at [k] is not walked into *)
    apply NoDup_cons in Hks as [Hk Hks].
    pose proof (Hkeeps k o (PathArr p) σ Hσ) as Hσ1. rewrite Ecb in Hσ1.
    destruct (IH Hks Hσ1) as [Hscope Hbelow].
    set (e0 := Event k o (PathArr p) r).
    assert (He0 : belongs p k e0) by (by left).
    split.
    + intros e [-> | He]%elem_of_cons.
      * exists k. split; [left | done].
      * destruct (Hscope e He) as (k' & Hk' & Hb). exists k'. split; [by right | done].
    + intros e e' [-> | He]%elem_of_cons [-> | He']%elem_of_cons Hbel.
      * by destruct (not_below_shorter p k e0 e0).
      * destruct (Hscope e' He') as (k' & Hk' & Hb).
        destruct Hk. by rewrite (belongs_below p k k' e0 e' He0 Hb Hbel).
      * destruct (Hscope e He) as (k' & Hk' & Hb).
        destruct Hk. by rewrite <- (belongs_below p k' k e e0 Hb He0 Hbel).
      * by apply (Hbelow e e').
  - (* the value at [k] is walked into *)
    apply NoDup_cons in Hks as [Hk Hks].
    pose proof (Hkeeps k o (PathArr p) σ Hσ) as Hσ1. rewrite Ecb in Hσ1.
    destruct (IH1 (Hnodup _ Hσ1 a) Hσ1) as [Hscope1 Hbelow1].
    pose proof (walks_inv _ _ _ _ _ _ _ Hw1 Hσ1) as Hσ2.
    destruct (IH2 Hks Hσ2) as [Hscope2 Hbelow2].
    set (e0 := Event k o (PathArr p) r).
    assert (He0 : belongs p k e0) by (by left).
    assert (Hin1 : ∀ e, e ∈ Δ1 → belongs p k e).
    { intros e He. destruct (Hscope1 e He) as (k1 & _ & Hb).
      by apply (belongs_deeper p k k1). }
    split.
    + intros e [-> | [He | He]%elem_of_app]%elem_of_cons.
      * exists k. split; [left | done].
      * exists k. split; [left | by apply Hin1].
      * destruct (Hscope2 e He) as (k' & Hk' & Hb). exists k'. split; [by right | done].
    + intros e e' [-> | [He | He]%elem_of_app]%elem_of_cons
                  [-> | [He' | He']%elem_of_app]%elem_of_cons Hbel.
      * by destruct (not_below_shorter p k e0 e0).
      * split; [done|]. exists σ1.1. split; [done|]. cbn. by rewrite Hd.
      * destruct (Hscope2 e' He') as (k' & Hk' & Hb).
        destruct Hk. by rewrite (belongs_below p k k' e0 e' He0 Hb Hbel).
      * destruct (not_below_shorter p k e e0); [by apply Hin1 | done..].
      * by apply (Hbelow1 e e').
      * destruct (Hscope2 e' He') as (k' & Hk' & Hb).
        destruct Hk. by rewrite (belongs_below p k k' e e' (Hin1 e He) Hb Hbel).
      * destruct (Hscope2 e He) as (k' & Hk' & Hb).
        destruct Hk. by rewrite <- (belongs_below p k' k e e0 Hb He0 Hbel).
      * destruct (Hscope2 e He) as (k' & Hk' & Hb).
        destruct Hk. by rewrite <- (belongs_below p k' k e e' Hb (Hin1 e' He') Hbel).
      * by apply (Hbelow2 e e').
Qed.
End Invariant.

(** A walk that ran to its end called the visitor for every key. *)
Lemma walks_all_keys o p ks σ Δ σ' :
  walks callback cfg o p ks σ true Δ σ' →
  ∀ k, k ∈ ks → ∃ r, Event k o (PathArr p) r ∈ Δ.
Proof.
  intros Hw. remember true as b eqn:Hb.
  induction Hw as
    [ | | o p k ks σ r σ1 Ecb _
      | o p k ks σ r σ1 b Δ σ2 Ecb Hr Hw IH
      | o p k ks σ r σ1 b Δ σ2 Ecb Hr _ Hw IH
      | o p k ks σ r σ1 a b1 Δ1 σ2 b2 Δ2 σ3 Ecb Hr _ Hw1 IH1 Hw2 IH2 ];
    try done.
  - intros k Hk. by apply elem_of_nil in Hk.
  - intros k' [-> | Hk']%elem_of_cons.
    + exists r. left.
    + destruct (IH Hb k' Hk') as [r' Hr']. exists r'. by right.
  - intros k' [-> | Hk']%elem_of_cons.
    + exists r. left.
    + destruct (IH Hb k' Hk') as [r' Hr']. exists r'. by right.
  - apply andb_true_iff in Hb as [-> ->].
    intros k' [-> | Hk']%elem_of_cons.
    + exists r. left.
    + destruct (IH2 eq_refl k' Hk') as [r' Hr']. exists r'.
      right. apply elem_of_app. by right.
Qed.
End Traversal.

(** ** Walking into arrays *)

(** The configuration admits walking into an array found at [key]. *)
Definition admits (cfg : config) (key : string) : Prop :=
  truthy (walkArrays cfg) = true
  ∨ ∃ keys, walkArraysMatchingKeys cfg = Some keys ∧ VStr key ∈ keys.

Lemma includes_elem_of keys key : includes keys key = true ↔ VStr key ∈ keys.
Proof.
  unfold includes. rewrite existsb_exists. split.
  - intros (v & Hin & Hv). apply bool_decide_eq_true in Hv as ->.
    by apply list_elem_of_In.
  - intros Hin. exists (VStr key). split; [by apply list_elem_of_In|].
    by apply bool_decide_eq_true.
Qed.

Lemma doArrayWalk_admits h cfg key v :
  doArrayWalk h key v (walkArrays cfg) (walkArraysMatchingKeys cfg) = true
  ↔ isArray h v = true ∧ admits cfg key.
Proof.
  unfold doArrayWalk, admits.
  destruct (isArray h v); cbn; [|naive_solver].
  destruct (truthy (walkArrays cfg)); cbn; [naive_solver|].
  destruct (walkArraysMatchingKeys cfg) as [keys|]; [|naive_solver].
  destruct (includes keys key) eqn:E.
  - apply includes_elem_of in E. naive_solver.
  - split; [done|]. intros [_ [? | (keys' & [= <-] & Hin)]]; [done|].
    apply includes_elem_of in Hin. congruence.
Qed.

Lemma isArray_not_plain h v : isArray h v = true → isPlainObject h v = false.
Proof.
  unfold isArray, isPlainObject. intros H%bool_decide_eq_true.
  apply bool_decide_eq_false. congruence.
Qed.

(** What [descent] does with an array. *)
Lemma descent_array h cfg o k a :
  heap_get h o k = VRef a → isArray h (VRef a) = true →
  (admits cfg k → descent h cfg o k = Some a)
  ∧ (¬ admits cfg k → descent h cfg o k = None).
Proof.
  intros Hget Harr. unfold descent. rewrite Hget, (isArray_not_plain _ _ Harr).
  cbn [orb].
  destruct (doArrayWalk h k (VRef a) _ _) eqn:E.
  - apply doArrayWalk_admits in E. naive_solver.
  - split; [|done]. intros Had.
    assert (doArrayWalk h k (VRef a) (walkArrays cfg) (walkArraysMatchingKeys cfg)
            = true) by (by apply doArrayWalk_admits). congruence.
Qed.

Lemma descent_Some h cfg o k a :
  descent h cfg o k = Some a → heap_get h o k = VRef a.
Proof.
  unfold descent. destruct (heap_get h o k); try done.
  destruct (_ || _); naive_solver.
Qed.

Section HeapPreserving.
Context {St : Type} (callback : visitor St) (cfg : config).
Context (Hpure : heap_preserving callback).

Lemma walks_heap o p ks σ b Δ σ' :
  walks callback cfg o p ks σ b Δ σ' → σ'.1 = σ.1.
Proof.
  intros Hw.
  by apply (walks_inv callback cfg (λ h, h = σ.1)
              (heap_preserving_keeps callback _ Hpure) _ _ _ _ _ _ _ Hw).
Qed.

Lemma callback_heap k o path σ r σ1 : callback k o path σ = (r, σ1) → σ1.1 = σ.1.
Proof. intros E. pose proof (Hpure k o path σ) as H. by rewrite E in H. Qed.

(** Every logged call is for a key of the object walked, or for a key of
    an object the walk went into. *)
Lemma walks_reach o p ks σ b Δ σ' :
  walks callback cfg o p ks σ b Δ σ' →
  ∀ e, e ∈ Δ →
    (ev_path e = PathArr p ∧ ev_parent e = o)
    ∨ ∃ q k o', ev_path e = PathArr (q ++ [k])
                ∧ descent σ.1 cfg o' k = Some (ev_parent e).
Proof.
  intros Hw. induction Hw as
    [ | | o p k ks σ r σ1 Ecb _
      | o p k ks σ r σ1 b Δ σ2 Ecb Hr Hw IH
      | o p k ks σ r σ1 b Δ σ2 Ecb Hr _ Hw IH
      | o p k ks σ r σ1 a b1 Δ1 σ2 b2 Δ2 σ3 Ecb Hr Hd Hw1 IH1 Hw2 IH2 ];
    try (intros e He; by apply elem_of_nil in He);
    pose proof (callback_heap _ _ _ _ _ _ Ecb) as Hσ1.
  - intros e [-> | He]%elem_of_cons; [by left|].
    rewrite <- Hσ1. by apply IH.
  - intros e [-> | He]%elem_of_cons; [by left|].
    rewrite <- Hσ1. by apply IH.
  - pose proof (walks_heap _ _ _ _ _ _ _ Hw1) as Hσ2.
    intros e [-> | [He | He]%elem_of_app]%elem_of_cons; [by left | |].
    + right. destruct (IH1 e He) as [[Hp Ho] | (q & k' & o' & Hp & Hd')].
      * exists p, k, o. by rewrite Hp, Ho, <- Hσ1.
      * exists q, k', o'. by rewrite <- Hσ1.
    + rewrite <- Hσ1, <- Hσ2. by apply IH2.
Qed.

(** In a walk that ran to its end, the keys of every value the walk went
    into were visited. *)
Lemma walks_complete o p ks σ Δ σ' :
  walks callback cfg o p ks σ true Δ σ' →
  ∀ e a, e ∈ Δ → truthy (ev_result e) = false →
    descent σ.1 cfg (ev_parent e) (ev_key e) = Some a →
    ∀ k', k' ∈ Object_keys σ.1 a →
      ∃ r', Event k' a (PathArr (segments e ++ [ev_key e])) r' ∈ Δ.
Proof.
  intros Hw. remember true as b eqn:Hb.
  induction Hw as
    [ | | o p k ks σ r σ1 Ecb _
      | o p k ks σ r σ1 b Δ σ2 Ecb Hr Hw IH
      | o p k ks σ r σ1 b Δ σ2 Ecb Hr Hd Hw IH
      | o p k ks σ r σ1 a b1 Δ1 σ2 b2 Δ2 σ3 Ecb Hr Hd Hw1 IH1 Hw2 IH2 ];
    try done;
    try (intros e a' He; by apply elem_of_nil in He);
    pose proof (callback_heap _ _ _ _ _ _ Ecb) as Hσ1.
  - intros e a' [-> | He]%elem_of_cons Hf Hd' k' Hk'; [cbn in Hf; congruence|].
    rewrite <- Hσ1 in Hd', Hk'.
    destruct (IH Hb e a' He Hf Hd' k' Hk') as [r' Hr']. exists r'. by right.
  - intros e a' [-> | He]%elem_of_cons Hf Hd' k' Hk'.
    { cbn in Hd'. rewrite <- Hσ1 in Hd'. congruence. }
    rewrite <- Hσ1 in Hd', Hk'.
    destruct (IH Hb e a' He Hf Hd' k' Hk') as [r' Hr']. exists r'. by right.
  - apply andb_true_iff in Hb as [-> ->].
    pose proof (walks_heap _ _ _ _ _ _ _ Hw1) as Hσ2.
    intros e a' [-> | [He | He]%elem_of_app]%elem_of_cons Hf Hd' k' Hk'.
    + cbn in Hd'. rewrite <- Hσ1 in Hd', Hk'.
      assert (a' = a) as -> by congruence.
      destruct (walks_all_keys _ _ _ _ _ _ _ _ Hw1 k' Hk') as [r' Hr'].
      exists r'. right. apply elem_of_app. by left.
    + rewrite <- Hσ1 in Hd', Hk'.
      destruct (IH1 eq_refl e a' He Hf Hd' k' Hk') as [r' Hr'].
      exists r'. right. apply elem_of_app. by left.
    + rewrite <- Hσ1, <- Hσ2 in Hd', Hk'.
      destruct (IH2 eq_refl e a' He Hf Hd' k' Hk') as [r' Hr'].
      exists r'. right. apply elem_of_app. by right.
Qed.
End HeapPreserving.

(** The default path mode, chosen by name or by leaving [pathType] out. *)
Definition array_mode (cfg : config) : Prop :=
  pathType cfg = VUndefined ∨ pathType cfg = VStr "array".

Lemma getPath_array_mode cfg : array_mode cfg → getPath (pathType cfg) None = array_acc [].
Proof. by intros [-> | ->]. Qed.

Lemma container_is_ref h v :
  isPlainObject h v || isArray h v = true → ∃ l, v = VRef l.
Proof. destruct v; try done. by eexists. Qed.

(** A run of [walkObject] in array mode from an empty log: it threw on the
    input and logged nothing, or it is a walk of the keys of the input. *)
Lemma walkObject_walks {St : Type} (callback : visitor St) (cfg : config)
    fuel input h s :
  array_mode cfg →
  let res := walkObject fuel input callback cfg (start h s) in
  (w_log res.2 = [] ∧ is_returned res.1 = false)
  ∨ ∃ l, input = VRef l
         ∧ walks callback cfg l [] (Object_keys h l) (h, s) (is_returned res.1)
             (w_log res.2) (w_heap res.2, w_state res.2).
Proof.
  intros Hmode res. subst res.
  unfold walkObject, bind, gets, start. cbn [w_heap].
  destruct (isPlainObject h input || isArray h input) eqn:Hin; [|by left].
  destruct (container_is_ref _ _ Hin) as [l ->]. cbn [negb].
  rewrite (getPath_array_mode _ Hmode). right. exists l. split; [done|].
  destruct (_walkObject_walks callback cfg fuel l [] h s []) as (Δ & HΔ & Hw).
  by rewrite HΔ.
Qed.

(** C3: when the visitor returns a truthy value for a key, that step of
    the walk ends there, without a recursive call, and returns normally,
    so that [forEach] goes on with the next key (first part, for every
    path mode and every visitor).  Over a whole traversal in array mode,
    where the path names the position of a call: no call is ever logged at
    a position below a key at which the visitor returned a truthy value,
    and a traversal that returns has called the visitor for every own key
    of the input, stopped keys and their siblings alike.  A visitor
    returning true at ['a'] of [{a: {b: 1}}] is called once, for ['a']. *)
Theorem veto_skips_subtree :
  (∀ St (callback : visitor St) cfg recurse o path k w p r h1 s1,
     getPath_get path (w_heap w) o k = Returned p →
     callback k o p (w_heap w, w_state w) = (Returned r, (h1, s1)) →
     truthy r = true →
     walk_key recurse o callback path cfg k w
     = (Returned tt, World h1 s1 (w_log w ++ [Event k o p r])))
  ∧ (∀ St (callback : visitor St) cfg fuel input h s,
       array_mode cfg → keys_nodup h → keeps callback keys_nodup →
       let res := walkObject fuel input callback cfg (start h s) in
       (∀ e e', e ∈ w_log res.2 → e' ∈ w_log res.2 →
                truthy (ev_result e) = true → ¬ below e e')
       ∧ (is_returned res.1 = true →
          ∀ l, input = VRef l →
          ∀ k, k ∈ Object_keys h l → ∃ r, Event k l (PathArr []) r ∈ w_log res.2))
  ∧ (∀ fuel cfg,
       array_mode cfg →
       walkObject (S fuel) (VRef 0) stop_at_a cfg (start heap_ab tt)
       = (Returned tt, World heap_ab tt [Event "a" 0 (PathArr []) (VBool true)])).
Proof.
  split; [|split].
  - intros St callback cfg recurse o path k w p r h1 s1 Hp Hcb Hr.
    unfold walk_key, bind, lift_outcome, call, ret.
    by rewrite Hp, Hcb, Hr.
  - intros St callback cfg fuel input h s Hmode Hh Hcb res.
    destruct (walkObject_walks callback cfg fuel input h s Hmode)
      as [[Hlog Hret] | (l & -> & Hw)]; fold res in Hlog, Hret || fold res in Hw.
    + rewrite Hlog, Hret. split; [|done].
      intros e e' He. by apply elem_of_nil in He.
    + destruct (walks_tidy callback cfg keys_nodup Hcb _ _ _ _ _ _ _
                  (λ _ H, H) Hw (Hh l) Hh) as [_ Hbelow].
      split.
      { intros e e' He He' Ht Hbel.
        destruct (Hbelow e e' He He' Hbel) as [Hf _]. congruence. }
      intros Hret l' [= <-] k Hk. rewrite Hret in Hw.
      by apply (walks_all_keys _ _ _ _ _ _ _ _ Hw).
  - intros fuel cfg Hmode. unfold walkObject, bind, gets. cbn.
    by rewrite (getPath_array_mode _ Hmode).
Qed.

Lemma descent_Some_array h cfg o k a :
  descent h cfg o k = Some a → isArray h (VRef a) = true → admits cfg k.
Proof.
  intros Hd Harr. pose proof (descent_Some _ _ _ _ _ Hd) as Hget.
  unfold descent in Hd. rewrite Hget, (isArray_not_plain _ _ Harr) in Hd.
  cbn [orb] in Hd.
  destruct (doArrayWalk h k (VRef a) _ _) eqn:E; [|done].
  by apply doArrayWalk_admits in E as [_ ?].
Qed.

(** [{walkArrays: true}] *)
Definition walk_arrays_config : config := Config (VBool true) None VUndefined.

(** *** One step, in every path mode *)

(** The step of the walk at a key that holds an array, for a visitor that
    did not stop the walk there: the walk goes into the array when the
    configuration admits the key, and the step is over when it does not. *)
Lemma walk_key_at_array {St} (callback : visitor St) cfg recurse o path k w p r h1 s1 a :
  getPath_get path (w_heap w) o k = Returned p →
  callback k o p (w_heap w, w_state w) = (Returned r, (h1, s1)) →
  truthy r = false →
  heap_get h1 o k = VRef a → isArray h1 (VRef a) = true →
  let w1 := World h1 s1 (w_log w ++ [Event k o p r]) in
  (admits cfg k →
   walk_key recurse o callback path cfg k w
   = match getPath_set path h1 o k with
     | Returned next => recurse a next w1
     | e => (abort e, w1)
     end)
  ∧ (¬ admits cfg k → walk_key recurse o callback path cfg k w = (Returned tt, w1)).
Proof.
  intros Hp Hcb Hr Hget Harr w1.
  unfold walk_key, bind, lift_outcome, call, gets, ret.
  rewrite Hp, Hcb, Hr. cbn [w_heap]. rewrite Hget.
  rewrite (isArray_not_plain _ _ Harr). cbn [orb].
  split.
  - intros Had.
    rewrite (proj2 (doArrayWalk_admits h1 cfg k (VRef a)) (conj Harr Had)).
    cbn [w_heap]. by destruct (getPath_set path h1 o k).
  - intros Hnot.
    destruct (doArrayWalk h1 k (VRef a) _ _) eqn:E; [|done].
    apply doArrayWalk_admits in E as [_ ?]. done.
Qed.

(** *** A whole traversal, in every path mode *)

Section WalkAnyMode.
Context {St : Type} (callback : visitor St) (cfg : config) (h : heap).
Context (Hpure : heap_preserving callback).

(** Among the calls [Δ] there is one at whose key the visitor returned a
    falsy value and the walk went into the object [x]. *)
Definition entered (Δ : list event) (x : loc) : Prop :=
  ∃ e0, e0 ∈ Δ ∧ truthy (ev_result e0) = false
        ∧ descent h cfg (ev_parent e0) (ev_key e0) = Some x.

(** What a walk of the keys [ks] of [o] does: the heap stays, calls are
    added to the log; each of them is for a key in [ks] of [o] or for an
    object the walk went into; and when the walk returns, every key in
    [ks] was visited, and so was every key of every object that the walk
    went into. *)
Definition visits (o : loc) (ks : list string) (w : world St)
    (res : outcome unit * world St) : Prop :=
  w_heap res.2 = h
  ∧ ∃ Δ, w_log res.2 = w_log w ++ Δ
      ∧ (∀ e, e ∈ Δ → (ev_parent e = o ∧ ev_key e ∈ ks) ∨ entered Δ (ev_parent e))
      ∧ (is_returned res.1 = true →
         (∀ k, k ∈ ks → ∃ e, e ∈ Δ ∧ ev_parent e = o ∧ ev_key e = k)
         ∧ ∀ e a, e ∈ Δ → truthy (ev_result e) = false →
             descent h cfg (ev_parent e) (ev_key e) = Some a →
             ∀ k', k' ∈ Object_keys h a → ∃ e', e' ∈ Δ ∧ ev_parent e' = a ∧ ev_key e' = k').

Lemma entered_mono Δ Δ' x : Δ ⊆ Δ' → entered Δ x → entered Δ' x.
Proof. intros Hsub (e0 & Hin & H). exists e0. split; [by apply Hsub | done]. Qed.

Lemma visits_nothing o ks w r w' :
  w_heap w' = h → w_log w' = w_log w → is_returned r = false → visits o ks w (r, w').
Proof.
  intros Hh Hl Hr. split; [done|]. exists []. split; [by rewrite app_nil_r|].
  split; [intros e He; by apply elem_of_nil in He|]. cbn. by rewrite Hr.
Qed.

(** One key, then the others. *)
Lemma visits_cons o k ks w r1 w1 res :
  visits o [k] w (r1, w1) →
  (is_returned r1 = false → res = (r1, w1)) →
  (is_returned r1 = true → visits o ks w1 res) →
  visits o (k :: ks) w res.
Proof.
  intros (Hh1 & Δ1 & Hlog1 & Hs1 & Hc1) Hstop Hgo. cbn [fst snd] in *.
  destruct (is_returned r1) eqn:Er.
  - destruct (Hgo eq_refl) as (Hh2 & Δ2 & Hlog2 & Hs2 & Hc2).
    split; [done|]. exists (Δ1 ++ Δ2).
    split; [by rewrite Hlog2, Hlog1, <- app_assoc|].
    split.
    + intros e [He | He]%elem_of_app.
      * destruct (Hs1 e He) as [[Ho Hk] | Hent].
        -- left. split; [done|]. apply list_elem_of_singleton in Hk. rewrite Hk. left.
        -- right. eapply entered_mono; [|done]. intros x Hx. apply elem_of_app. by left.
      * destruct (Hs2 e He) as [[Ho Hk] | Hent].
        -- left. split; [done | by right].
        -- right. eapply entered_mono; [|done]. intros x Hx. apply elem_of_app. by right.
    + intros Hret. destruct (Hc1 eq_refl) as [Hk1 Hin1].
      destruct (Hc2 Hret) as [Hk2 Hin2]. split.
      * intros k' [-> | Hk']%elem_of_cons.
        -- destruct (Hk1 k ltac:(left)) as (e & He & ?). exists e.
           split; [apply elem_of_app; by left | done].
        -- destruct (Hk2 k' Hk') as (e & He & ?). exists e.
           split; [apply elem_of_app; by right | done].
      * intros e a [He | He]%elem_of_app Hf Hd k' Hk'.
        -- destruct (Hin1 e a He Hf Hd k' Hk') as (e' & He' & ?). exists e'.
           split; [apply elem_of_app; by left | done].
        -- destruct (Hin2 e a He Hf Hd k' Hk') as (e' & He' & ?). exists e'.
           split; [apply elem_of_app; by right | done].
  - rewrite (Hstop eq_refl). split; [done|]. exists Δ1. split; [done|].
    split; [|cbn; by rewrite Er].
    intros e He. destruct (Hs1 e He) as [[Ho Hk] | Hent]; [left | by right].
    split; [done|]. apply list_elem_of_singleton in Hk. rewrite Hk. left.
Qed.

Lemma walk_key_visits recurse o acc k :
  (∀ l next w, w_heap w = h → visits l (Object_keys h l) w (recurse l next w)) →
  ∀ w, w_heap w = h → visits o [k] w (walk_key recurse o callback acc cfg k w).
Proof.
  intros Hrec w Hh.
  unfold walk_key, bind, lift_outcome, call, gets, ret. rewrite Hh.
  destruct (getPath_get acc h o k) as [p| | |];
    try (by apply visits_nothing).
  pose proof (Hpure k o p (h, w_state w)) as Hheap.
  destruct (callback k o p (h, w_state w)) as [r [h1 s1]]. cbn [fst snd] in Hheap.
  subst h1.
  destruct r as [r| | |]; try (by apply visits_nothing).
  set (e0 := Event k o p r).
  set (w1 := World h s1 (w_log w ++ [e0])).
  assert (Hleaf : ∀ r', truthy r = true ∨ descent h cfg o k = None →
            visits o [k] w (r', w1)).
  { intros r' Hno. split; [done|]. exists [e0]. split; [done|]. split.
    - intros e ->%list_elem_of_singleton. left. split; [done | left].
    - intros _. split.
      + intros k' ->%list_elem_of_singleton. exists e0. split; [left | done].
      + intros e a ->%list_elem_of_singleton Hf Hd. cbn in Hf, Hd.
        destruct Hno; congruence. }
  destruct (truthy r) eqn:Er; [apply Hleaf; by left|].
  change (w_heap w1) with h.
  unfold descent in Hleaf.
  destruct (heap_get h o k) as [| | | | | |d] eqn:Hget;
    try (destruct (isPlainObject _ _ || doArrayWalk _ _ _ _ _); apply Hleaf; by right).
  destruct (isPlainObject h (VRef d) || doArrayWalk h k (VRef d) _ _) eqn:Hd;
    [|apply Hleaf; by right].
  assert (Hdesc : descent h cfg o k = Some d).
  { unfold descent. by rewrite Hget, Hd. }
  change (w_heap w1) with h.
  destruct (getPath_set acc h o k) as [next|err| |].
  2,3,4: (split; [done|]; exists [e0]; split; [done|]; split; [|done];
          intros e' ->%list_elem_of_singleton; left; split; [done | left]).
  destruct (Hrec d next w1 eq_refl) as (Hh2 & Δ2 & Hlog2 & Hs2 & Hc2).
  split; [done|]. exists (e0 :: Δ2). split.
  { rewrite Hlog2. unfold w1. cbn [w_log]. by rewrite <- app_assoc. }
  assert (He0 : entered (e0 :: Δ2) d).
  { exists e0. split; [left|]. split; [done|]. done. }
  split.
  - intros e [-> | He]%elem_of_cons; [left; split; [done | left]|].
    right. destruct (Hs2 e He) as [[-> _] | Hent]; [done|].
    eapply entered_mono; [|done]. intros x Hx. by right.
  - intros Hret. destruct (Hc2 Hret) as [Hk2 Hin2]. split.
    + intros k' ->%list_elem_of_singleton. exists e0. split; [left | done].
    + intros e a [-> | He]%elem_of_cons Hf Hda k' Hk'.
      * cbn in Hda. assert (a = d) as -> by congruence.
        destruct (Hk2 k' Hk') as (e' & He' & ?). exists e'. split; [by right | done].
      * destruct (Hin2 e a He Hf Hda k' Hk') as (e' & He' & ?).
        exists e'. split; [by right | done].
Qed.

Lemma forEach_visits recurse o acc :
  (∀ l next w, w_heap w = h → visits l (Object_keys h l) w (recurse l next w)) →
  ∀ ks w, w_heap w = h →
    visits o ks w (forEach ks (walk_key recurse o callback acc cfg) w).
Proof.
  intros Hrec ks. induction ks as [|k ks IH]; intros w Hh.
  { split; [done|]. exists []. split; [by rewrite app_nil_r|].
    split; [intros e He; by apply elem_of_nil in He|].
    intros _. split; [intros k Hk; by apply elem_of_nil in Hk|].
    intros e a He. by apply elem_of_nil in He. }
  cbn [forEach]. unfold bind at 1.
  pose proof (walk_key_visits recurse o acc k Hrec w Hh) as H1.
  destruct (walk_key recurse o callback acc cfg k w) as [r1 w1].
  apply (visits_cons o k ks w r1 w1); [done | |].
  - intros Hr. by destruct r1.
  - intros Hr. destruct r1 as [[]| | |]; try done. apply IH. by destruct H1.
Qed.

Lemma _walkObject_visits fuel :
  ∀ o acc w, w_heap w = h →
    visits o (Object_keys h o) w (_walkObject fuel o callback acc cfg w).
Proof.
  induction fuel as [|fuel IH]; intros o acc w Hh.
  { by apply visits_nothing. }
  cbn [_walkObject]. unfold bind at 1, gets at 1. rewrite Hh.
  by apply forEach_visits.
Qed.
End WalkAnyMode.

(** [{walkArraysMatchingKeys: ['c']}] and [{pathType: 'nestedProperty'}] *)
Definition walk_c_config : config := Config VUndefined (Some [VStr "c"]) VUndefined.
Definition nested_config : config := Config VUndefined None (VStr "nestedProperty").

(** C4: [doArrayWalk] answers true exactly for an array whose key the
    configuration admits: [walkArrays] is truthy (true, for the documented
    boolean) or the key is in [walkArraysMatchingKeys].  In every path
    mode and for every visitor, the step of the walk at a key that holds
    an array, where the visitor returned a falsy value, makes the
    recursive call for the array when the key is admitted and ends
    without one when it is not (second part).  Over a whole traversal in
    any path mode, by a visitor that leaves the heap alone (third part):
    a call whose parent is an array is made only for the input itself or
    for an array found at an admitted key at which the visitor was called
    and returned a falsy value; and when the traversal returns, every own
    key of an array found at an admitted key, where the visitor returned
    a falsy value, was visited with that array as its parent.  In array
    mode, where the path names the position of a call (fourth part):
    below an array at a key that is not admitted no call is logged (a
    leaf), and the calls for the keys of an admitted array carry the path
    of that array.  Walking [{a: {b: 1}, c: [1,2]}] visits ['a'], ['b']
    under ['a'] and ['c'] with the default configuration, and ['0'] and
    ['1'] under ['c'] as well with [walkArrays: true] or with
    [walkArraysMatchingKeys: ['c']]; and so it is in the [nestedProperty]
    mode, where the visitor receives the paths [a], [a.b], [c] and, with
    [walkArrays: true], [c[0]] and [c[1]]. *)
Theorem arrays_walked_by_policy :
  (∀ h cfg key v,
     doArrayWalk h key v (walkArrays cfg) (walkArraysMatchingKeys cfg) = true
     ↔ isArray h v = true ∧ admits cfg key)
  ∧ (∀ St (callback : visitor St) cfg recurse o path k w p r h1 s1 a,
       getPath_get path (w_heap w) o k = Returned p →
       callback k o p (w_heap w, w_state w) = (Returned r, (h1, s1)) →
       truthy r = false →
       heap_get h1 o k = VRef a → isArray h1 (VRef a) = true →
       let w1 := World h1 s1 (w_log w ++ [Event k o p r]) in
       (admits cfg k →
        walk_key recurse o callback path cfg k w
        = match getPath_set path h1 o k with
          | Returned next => recurse a next w1
          | e => (abort e, w1)
          end)
       ∧ (¬ admits cfg k →
          walk_key recurse o callback path cfg k w = (Returned tt, w1)))
  ∧ (∀ St (callback : visitor St) cfg fuel input h s,
       heap_preserving callback →
       let res := walkObject fuel input callback cfg (start h s) in
       (∀ e, e ∈ w_log res.2 → isArray h (VRef (ev_parent e)) = true →
          input = VRef (ev_parent e)
          ∨ ∃ e0, e0 ∈ w_log res.2 ∧ truthy (ev_result e0) = false
                  ∧ heap_get h (ev_parent e0) (ev_key e0) = VRef (ev_parent e)
                  ∧ admits cfg (ev_key e0))
       ∧ (is_returned res.1 = true →
          ∀ e a, e ∈ w_log res.2 → truthy (ev_result e) = false →
            heap_get h (ev_parent e) (ev_key e) = VRef a →
            isArray h (VRef a) = true → admits cfg (ev_key e) →
            ∀ k', k' ∈ Object_keys h a →
              ∃ e', e' ∈ w_log res.2 ∧ ev_parent e' = a ∧ ev_key e' = k'))
  ∧ (∀ St (callback : visitor St) cfg fuel input h s,
       array_mode cfg → keys_nodup h → heap_preserving callback →
       let res := walkObject fuel input callback cfg (start h s) in
       (∀ e q k, e ∈ w_log res.2 → ev_path e = PathArr (q ++ [k]) →
                 isArray h (VRef (ev_parent e)) = true → admits cfg k)
       ∧ (∀ e a, e ∈ w_log res.2 →
            heap_get h (ev_parent e) (ev_key e) = VRef a →
            isArray h (VRef a) = true →
            (¬ admits cfg (ev_key e) → ∀ e', e' ∈ w_log res.2 → ¬ below e e')
            ∧ (admits cfg (ev_key e) → truthy (ev_result e) = false →
               is_returned res.1 = true →
               ∀ k', k' ∈ Object_keys h a →
                 ∃ r', Event k' a (PathArr (segments e ++ [ev_key e])) r'
                       ∈ w_log res.2)))
  ∧ (∀ fuel,
       let res := walkObject (S (S fuel)) (VRef 0) visit_all default_config
                    (start heap_abc tt) in
       res.1 = Returned tt
       ∧ map (λ e, (ev_key e, ev_path e)) (w_log res.2)
         = [("a", PathArr []); ("b", PathArr ["a"]); ("c", PathArr [])])
  ∧ (∀ fuel cfg,
       cfg = walk_arrays_config ∨ cfg = walk_c_config →
       let res := walkObject (S (S fuel)) (VRef 0) visit_all cfg (start heap_abc tt) in
       res.1 = Returned tt
       ∧ map (λ e, (ev_key e, ev_path e)) (w_log res.2)
         = [("a", PathArr []); ("b", PathArr ["a"]); ("c", PathArr []);
            ("0", PathArr ["c"]); ("1", PathArr ["c"])])
  ∧ (∀ fuel,
       let res := walkObject (S (S fuel)) (VRef 0) visit_all nested_config
                    (start heap_abc tt) in
       res.1 = Returned tt
       ∧ map (λ e, (ev_key e, ev_path e)) (w_log res.2)
         = [("a", PathStr "a"); ("b", PathStr "a.b"); ("c", PathStr "c")])
  ∧ (∀ fuel,
       let res := walkObject (S (S fuel)) (VRef 0) visit_all
                    (Config (VBool true) None (VStr "nestedProperty"))
                    (start heap_abc tt) in
       res.1 = Returned tt
       ∧ map (λ e, (ev_key e, ev_path e)) (w_log res.2)
         = [("a", PathStr "a"); ("b", PathStr "a.b"); ("c", PathStr "c");
            ("0", PathStr "c[0]"); ("1", PathStr "c[1]")]).
Proof.
  split; [apply doArrayWalk_admits|].
  split.
  { intros St callback cfg recurse o path k w p r h1 s1 a.
    apply walk_key_at_array. }
  split.
  { intros St callback cfg fuel input h s Hpure res. subst res.
    unfold walkObject, bind, gets, start. cbn [w_heap].
    destruct (isPlainObject h input || isArray h input) eqn:Hin.
    2:{ cbn. split; [intros e He; by apply elem_of_nil in He | done]. }
    destruct (container_is_ref _ _ Hin) as [l ->]. cbn [negb].
    destruct (_walkObject_visits callback cfg h Hpure fuel l
                (getPath (pathType cfg) None) (World h s []) eq_refl)
      as (_ & Δ & Hlog & Hs & Hc).
    cbn [w_log app] in Hlog. rewrite Hlog. split.
    - intros e He Harr.
      destruct (Hs e He) as [[<- _] | (e0 & He0 & Hf & Hd)]; [by left|].
      right. exists e0. split; [done|]. split; [done|].
      split; [by apply descent_Some in Hd|].
      by apply (descent_Some_array h cfg _ _ _ Hd).
    - intros Hret e a He Hf Hget Harr Had k' Hk'.
      destruct (Hc Hret) as [_ Hin'].
      destruct (descent_array h cfg _ _ _ Hget Harr) as [Hyes _].
      by apply (Hin' e a He Hf (Hyes Had)). }
  split; [|split; [intros fuel; vm_compute; split; reflexivity|];
           split; [intros fuel cfg [-> | ->]; vm_compute; split; reflexivity|];
           split; intros fuel; vm_compute; split; reflexivity].
  intros St callback cfg fuel input h s Hmode Hh Hpure res.
  destruct (walkObject_walks callback cfg fuel input h s Hmode)
    as [[Hlog Hret] | (l & -> & Hw)]; fold res in Hlog, Hret || fold res in Hw.
  { rewrite Hlog. split; [intros e q k He | intros e a He]; by apply elem_of_nil in He. }
  split.
  - intros e q k He Hpath Harr.
    destruct (walks_reach callback cfg Hpure _ _ _ _ _ _ _ Hw e He)
      as [[Hp _] | (q' & k' & o' & Hp & Hd)]; rewrite Hpath in Hp.
    + injection Hp as Hp. by destruct q.
    + injection Hp as Hp. apply app_inj_tail in Hp as [_ ->].
      by apply (descent_Some_array h cfg o' k' (ev_parent e)).
  - intros e a He Hget Harr.
    destruct (descent_array h cfg _ _ _ Hget Harr) as [Hyes Hno]. split.
    + intros Hnot e' He' Hbel.
      destruct (walks_tidy callback cfg (λ h1, h1 = h)
                  (heap_preserving_keeps callback h Hpure) _ _ _ _ _ _ _
                  (λ _ E, eq_ind_r keys_nodup Hh E) Hw (Hh l) eq_refl)
        as [_ Hbelow].
      destruct (Hbelow e e' He He' Hbel) as (_ & h1 & -> & [a' Ha']).
      rewrite (Hno Hnot) in Ha'. done.
    + intros Had Hf Hret k' Hk'. rewrite Hret in Hw.
      by apply (walks_complete callback cfg Hpure _ _ _ _ _ _ Hw e a He Hf (Hyes Had)).
Qed.

Ltac solve_keys_nodup :=
  let l := fresh "l" in
  intros l; unfold Object_keys;
  repeat (destruct l as [|l];
          [apply (bool_decide_unpack _); vm_compute; exact I|];
          cbn; try apply NoDup_nil_2).

Lemma keys_nodup_heap_abc : keys_nodup heap_abc.
Proof. solve_keys_nodup. Qed.

Lemma keys_nodup_heap_ab : keys_nodup heap_ab.
Proof. solve_keys_nodup. Qed.

Lemma visit_all_heap_preserving : heap_preserving visit_all.
Proof. by intros k o path [h s]. Qed.

Lemma stop_at_a_keeps Inv : keeps stop_at_a Inv.
Proof. by intros k o path [h s]. Qed.

Lemma arrays_walked_by_policy_witness :
  heap_preserving visit_all
  ∧ let cfg := Config (VBool true) None (VStr "nestedProperty") in
    let res := walkObject 5 (VRef 0) visit_all cfg (start heap_abc tt) in
    (∀ e, e ∈ w_log res.2 → isArray heap_abc (VRef (ev_parent e)) = true →
       VRef 0 = VRef (ev_parent e)
       ∨ ∃ e0, e0 ∈ w_log res.2 ∧ truthy (ev_result e0) = false
               ∧ heap_get heap_abc (ev_parent e0) (ev_key e0) = VRef (ev_parent e)
               ∧ admits cfg (ev_key e0))
    ∧ (is_returned res.1 = true →
       ∀ e a, e ∈ w_log res.2 → truthy (ev_result e) = false →
         heap_get heap_abc (ev_parent e) (ev_key e) = VRef a →
         isArray heap_abc (VRef a) = true → admits cfg (ev_key e) →
         ∀ k', k' ∈ Object_keys heap_abc a →
           ∃ e', e' ∈ w_log res.2 ∧ ev_parent e' = a ∧ ev_key e' = k').
Proof.
  split; [apply visit_all_heap_preserving|].
  exact (proj1 (proj2 (proj2 arrays_walked_by_policy)) unit visit_all
           (Config (VBool true) None (VStr "nestedProperty"))
           5 (VRef 0) heap_abc tt visit_all_heap_preserving).
Defined.

Lemma veto_skips_subtree_witness :
  array_mode default_config ∧ keys_nodup heap_ab ∧ keeps stop_at_a keys_nodup
  ∧ let res := walkObject 5 (VRef 0) stop_at_a default_config (start heap_ab tt) in
    (∀ e e', e ∈ w_log res.2 → e' ∈ w_log res.2 →
             truthy (ev_result e) = true → ¬ below e e')
    ∧ (is_returned res.1 = true →
       ∀ l, VRef 0 = VRef l →
       ∀ k, k ∈ Object_keys heap_ab l → ∃ r, Event k l (PathArr []) r ∈ w_log res.2).
Proof.
  assert (Hmode : array_mode default_config) by (by left).
  split; [done|]. split; [apply keys_nodup_heap_ab|].
  split; [apply stop_at_a_keeps|].
  exact (proj1 (proj2 veto_skips_subtree) unit stop_at_a default_config
           5 (VRef 0) heap_ab tt Hmode keys_nodup_heap_ab
           (stop_at_a_keeps keys_nodup)).
Defined.

(** ** align *)

(** Every element of an array sits below its length. *)
Definition array_wf (a : obj) : Prop :=
  ∀ k v i, (k, v) ∈ o_props a → index_of_key k = Some i → i < o_len a.

Definition len_at (h : heap) (l : loc) : nat :=
  match h !! l with
  | Some a => o_len a
  | None => 0
  end.

(** [data] is an array that holds, at the indices [0 .. length - 1], the
    references [ls] to well-formed arrays other than [data] itself. *)
Definition array_of_arrays (h : heap) (data : loc) (ls : list loc) : Prop :=
  ∃ o, h !! data = Some o ∧ o_kind o = Arr ∧ o_len o = length ls
       ∧ ∀ i l, ls !! i = Some l →
           assoc (key_of_index i) (o_props o) = Some (VRef l)
           ∧ l ≠ data
           ∧ ∃ a, h !! l = Some a ∧ o_kind a = Arr ∧ array_wf a.

(** What [align] leaves behind: the arrays in [ls] have the length [n] and
    their elements, everything else is as it was. *)
Definition aligned (h h' : heap) (ls : list loc) (n : nat) : Prop :=
  length h' = length h
  ∧ (∀ l, l ∉ ls → h' !! l = h !! l)
  ∧ (∀ l, l ∈ ls → ∃ a a', h !! l = Some a ∧ h' !! l = Some a'
                           ∧ o_kind a' = Arr ∧ o_len a' = n
                           ∧ o_props a' = o_props a).

Lemma filter_all {A} (f : A → bool) (l : list A) :
  (∀ x, x ∈ l → f x = true) → List.filter f l = l.
Proof.
  induction l as [|x l IH]; intros Hall; [done|]. cbn [List.filter].
  rewrite (Hall x) by left. f_equal. apply IH. intros y Hy. apply Hall. by right.
Qed.

Lemma set_length_keeps a n :
  array_wf a → o_len a ≤ n → o_props (set_length a n) = o_props a.
Proof.
  intros Hwf Hle. unfold set_length. cbn [o_props].
  apply filter_all. intros [k v] Hin. cbn [fst].
  destruct (index_of_key k) as [i|] eqn:Ei; [|done].
  apply Nat.ltb_lt. specialize (Hwf k v i Hin Ei). lia.
Qed.

Lemma Ramda_max_max legacy a b :
  Ramda.max legacy (Some a) (Some b) = Some (Nat.max a b).
Proof. unfold Ramda.max. f_equal. destruct (Nat.ltb_spec a b); lia. Qed.

Lemma reduce_max_list_max legacy (lens : list nat) :
  reduce_max legacy (map Some lens) = Some (list_max lens).
Proof.
  unfold reduce_max.
  assert (H : ∀ acc, fold_left (Ramda.max legacy) (map Some lens) (Some acc)
                     = Some (Nat.max acc (list_max lens))).
  { induction lens as [|n lens IH]; intros acc.
    - cbn [map fold_left]. unfold list_max. cbn [fold_right]. f_equal. lia.
    - cbn [map fold_left]. rewrite Ramda_max_max, IH. f_equal.
      change (list_max (n :: lens)) with (Nat.max n (list_max lens)). lia. }
  by rewrite H.
Qed.

Lemma map_lengths_arrays h o ls :
  (∀ i l, ls !! i = Some l →
     assoc (key_of_index i) (o_props o) = Some (VRef l)
     ∧ ∃ a, h !! l = Some a ∧ o_kind a = Arr) →
  map_lengths h o (seq 0 (length ls)) = Returned (map Some (map (len_at h) ls)).
Proof.
  assert (H : ∀ ls j,
    (∀ i l, ls !! i = Some l →
       assoc (key_of_index (j + i)) (o_props o) = Some (VRef l)
       ∧ ∃ a, h !! l = Some a ∧ o_kind a = Arr) →
    map_lengths h o (seq j (length ls)) = Returned (map Some (map (len_at h) ls))).
  { clear ls. induction ls as [|l ls IH]; intros j Hls; [done|].
    cbn [length seq map_lengths map].
    destruct (Hls 0 l eq_refl) as (Hl & a & Ha & Hk).
    rewrite Nat.add_0_r in Hl. rewrite Hl. cbn [length_of]. rewrite Ha.
    rewrite bool_decide_eq_true_2 by done.
    rewrite (IH (S j)).
    - unfold len_at at 2. by rewrite Ha.
    - intros i l' Hi. replace (S j + i) with (j + S i) by lia. by apply Hls. }
  intros Hls. apply (H ls 0). intros i l Hi. by apply Hls.
Qed.

Lemma list_max_ge (lens : list nat) n : n ∈ lens → n ≤ list_max lens.
Proof.
  induction lens as [|m lens IH]; intros Hin; [by apply elem_of_nil in Hin|].
  change (list_max (m :: lens)) with (Nat.max m (list_max lens)).
  apply elem_of_cons in Hin as [-> | Hin]; [lia|]. specialize (IH Hin). lia.
Qed.

Section AlignLoop.
Context (h : heap) (data : loc) (ls : list loc) (n : nat).
Context (Hdata : array_of_arrays h data ls).
Context (Hn : ∀ l, l ∈ ls → len_at h l ≤ n).

Lemma align_loop_aligned k :
  ∀ i hi fuel,
    k = length ls - i → i ≤ length ls → k < fuel →
    aligned h hi (take i ls) n →
    ∃ h', align_loop fuel data (Some n) i hi = (Returned tt, h') ∧ aligned h h' ls n.
Proof.
  destruct Hdata as (o & Ho & Hkind & Hlen & Hels).
  assert (Hdata_out : data ∉ ls).
  { intros (i & Hi)%list_elem_of_lookup. by destruct (Hels i data Hi) as (_ & ? & _). }
  induction k as [|k IH]; intros i hi fuel Hk Hi Hfuel (Hlenh & Hout & Hin);
    (destruct fuel as [|fuel]; [lia|]);
    cbn [align_loop]; unfold bind at 1, gets at 1;
    (rewrite (Hout data) by (intros Hx; by apply (subseteq_take i ls) in Hx));
    rewrite Ho.
  - rewrite bool_decide_eq_false_2 by lia.
    exists hi. split; [done|]. rewrite <- (take_ge ls i) by lia. done.
  - rewrite bool_decide_eq_true_2 by lia.
    destruct (ls !! i) as [l|] eqn:El; [|apply lookup_ge_None in El; lia].
    destruct (Hels i l El) as (Hassoc & Hne & a & Ha & Hka & Hwf).
    rewrite Hassoc. unfold bind at 1, gets at 1.
    assert (Hl_in : l ∈ ls) by (by eapply list_elem_of_lookup_2).
    assert (Hcur : ∃ ai, hi !! l = Some ai ∧ o_kind ai = Arr
                         ∧ set_length ai n = Obj Arr (o_props a) n).
    { destruct (decide (l ∈ take i ls)) as [Hold | Hnew].
      - destruct (Hin l Hold) as (a0 & a' & Ha0 & Ha' & Hk' & Hl' & Hp').
        assert (a0 = a) as -> by congruence.
        exists a'. split; [done|]. split; [done|].
        unfold set_length at 1. rewrite Hk'. f_equal.
        change (o_props (set_length a' n) = o_props a).
        rewrite set_length_keeps, Hp'; [done | | lia].
        intros k' v j Hkv Hj. rewrite Hp' in Hkv. rewrite Hl'.
        specialize (Hwf k' v j Hkv Hj). specialize (Hn l Hl_in).
        unfold len_at in Hn. rewrite Ha in Hn. lia.
      - exists a. rewrite (Hout l Hnew). split; [done|]. split; [done|].
        unfold set_length at 1. rewrite Hka. f_equal.
        change (o_props (set_length a n) = o_props a).
        apply set_length_keeps; [done|].
        specialize (Hn l Hl_in). unfold len_at in Hn. by rewrite Ha in Hn. }
    destruct Hcur as (ai & Hai & Hkai & Hset).
    rewrite Hai, bool_decide_eq_true_2 by done.
    unfold bind at 1, modify at 1. rewrite Hset.
    apply IH; [lia | lia | lia |].
    rewrite (take_S_r _ _ _ El). split; [|split].
    + by rewrite length_insert.
    + intros l' Hl'. rewrite not_elem_of_app, not_elem_of_cons in Hl'.
      destruct Hl' as [Hl'1 [Hl'2 _]].
      rewrite list_lookup_insert_ne by done. by apply Hout.
    + intros l' [Hl' | ->%list_elem_of_singleton]%elem_of_app.
      * destruct (decide (l' = l)) as [-> | Hne'].
        -- exists a, (Obj Arr (o_props a) n). split; [done|].
           rewrite list_lookup_insert_eq by (by eapply lookup_lt_Some). done.
        -- rewrite list_lookup_insert_ne by done. by apply Hin.
      * exists a, (Obj Arr (o_props a) n). split; [done|].
        rewrite list_lookup_insert_eq by (by eapply lookup_lt_Some). done.
Qed.
End AlignLoop.

(** C8: for an array [data] of arrays, [align(data)] returns [data]
    itself, and afterwards every contained array has the length
    [max(l0..ln)] of the lengths they had, which is at least its old
    length, and the elements it had; [data] and every other object are
    unchanged; and on an empty [data] the heap is left as it was.  This
    is so with either version of [R.max]. *)
Theorem align_pads_to_max (legacy : bool) (h : heap) (data : loc) (ls : list loc) :
  array_of_arrays h data ls →
  let n := list_max (map (len_at h) ls) in
  ∃ h', align legacy data h = (Returned (VRef data), h')
        ∧ aligned h h' ls n
        ∧ (∀ l, l ∈ ls → len_at h l ≤ n)
        ∧ (ls = [] → h' = h).
Proof.
  intros Hdata n.
  assert (Hn : ∀ l, l ∈ ls → len_at h l ≤ n).
  { intros l Hl. apply list_max_ge. apply list_elem_of_fmap. by exists l. }
  pose proof Hdata as (o & Ho & Hkind & Hlen & Hels).
  unfold align, bind at 1, gets at 1. rewrite Ho.
  rewrite bool_decide_eq_true_2 by done. unfold bind at 1.
  rewrite Hlen, (map_lengths_arrays h o ls).
  2:{ intros i l Hi. destruct (Hels i l Hi) as (? & _ & a & ? & ? & _). eauto. }
  rewrite reduce_max_list_max. fold n. change (default 0 (Some n)) with n.
  destruct (align_loop_aligned h data ls n Hdata Hn (length ls) 0 h
              (S (Nat.max (length ls) n))) as (h' & Hrun & Hal);
    [lia | lia | lia | |].
  { split; [done|]. split; [done|]. intros l Hl. by apply elem_of_nil in Hl. }
  exists h'. unfold bind at 1. rewrite Hrun. split; [done|]. split; [done|].
  split; [done|]. intros ->.
  destruct Hal as (Hlenh & Hout & _).
  apply list_eq. intros i. apply Hout. apply not_elem_of_nil.
Qed.

(** [[[1], [1, 1, 1]]] at 0. *)
Definition heap_ragged : heap :=
  [ Obj Arr [("0", VRef 1); ("1", VRef 2)] 2;
    Obj Arr [("0", VNum 1)] 1;
    Obj Arr [("0", VNum 1); ("1", VNum 1); ("2", VNum 1)] 3 ].

Lemma heap_ragged_array_of_arrays : array_of_arrays heap_ragged 0 [1; 2].
Proof.
  exists (Obj Arr [("0", VRef 1); ("1", VRef 2)] 2).
  split; [done|]. split; [done|]. split; [done|].
  intros [|[|i]] l [= <-]; (split; [done|]); (split; [done|]); eexists;
    (split; [reflexivity|]); (split; [done|]);
    intros k v j Hin Hj; cbn in Hin;
    repeat (apply elem_of_cons in Hin as [[= -> ->] | Hin];
            [vm_compute in Hj; injection Hj as <-; cbn; lia|]);
    by apply elem_of_nil in Hin.
Qed.

Lemma align_pads_to_max_witness :
  array_of_arrays heap_ragged 0 [1; 2]
  ∧ ∃ h', align true 0 heap_ragged = (Returned (VRef 0), h')
          ∧ aligned heap_ragged h' [1; 2] 3
          ∧ (∀ l, l ∈ [1; 2] → len_at heap_ragged l ≤ 3)
          ∧ ([1; 2] = [] → h' = heap_ragged).
Proof.
  split; [apply heap_ragged_array_of_arrays|].
  exact (align_pads_to_max true heap_ragged 0 [1; 2] heap_ragged_array_of_arrays).
Defined.

(** ** copyObject: the input as a tree *)

Definition is_container (h : heap) (v : value) : bool :=
  isPlainObject h v || isArray h v.

(** The part of the heap that the walk of [copyObject] reaches from a
    value, unfolded into a tree: every plain object and array with its
    location, kind, length and children, every other value as a leaf. *)
Inductive itree :=
  | ILeaf (v : value)
  | INode (a : loc) (kind : okind) (len : nat) (children : list (string * itree)).

Fixpoint reify (fuel : nat) (h : heap) (v : value) : option itree :=
  if is_container h v then
    match fuel, v with
    | S fuel', VRef a =>
        match h !! a with
        | Some o =>
            children ← mapM (λ k, t ← reify fuel' h (heap_get h a k); Some (k, t))
                            (obj_keys o);
            Some (INode a (o_kind o) (o_len o) children)
        | None => None
        end
    | _, _ => None
    end
  else Some (ILeaf v).

(** The containers of a tree, parents first. *)
Fixpoint itree_locs (t : itree) : list loc :=
  match t with
  | ILeaf _ => []
  | INode a _ _ children =>
      a :: (fix go (cs : list (string * itree)) : list loc :=
              match cs with
              | [] => []
              | (_, t') :: cs' => itree_locs t' ++ go cs'
              end) children
  end.

Definition children_locs (cs : list (string * itree)) : list loc :=
  concat (map (λ kt, itree_locs kt.2) cs).

Lemma itree_locs_node a kind len children :
  itree_locs (INode a kind len children) = a :: children_locs children.
Proof.
  cbn [itree_locs]. f_equal. unfold children_locs.
  induction children as [|[k t] cs IH]; [done|]. cbn. by rewrite IH.
Qed.

(** A value without identity: what two structures that are equal in value
    have in common. *)
Inductive tree :=
  | Leaf (v : value)
  | Node (kind : okind) (len : nat) (children : list (string * tree)).

Lemma tree_induction (P : tree → Prop) :
  (∀ v, P (Leaf v)) →
  (∀ kind len children, Forall (λ kt, P kt.2) children → P (Node kind len children)) →
  ∀ t, P t.
Proof.
  intros HLeaf HNode. fix IH 1. intros [v | kind len children]; [apply HLeaf|].
  apply HNode. induction children as [|[k t] cs IHcs]; constructor; [apply IH | apply IHcs].
Qed.

(** The length an array has once the keys [ks] were written into it. *)
Definition extend_len (n : nat) (ks : list string) : nat :=
  fold_left (λ n k, match index_of_key k with
                    | Some i => Nat.max n (S i)
                    | None => n
                    end) ks n.

(** The length of a node is kept for arrays only. *)
Definition node_len (kind : okind) (len : nat) : nat :=
  match kind with Arr => len | _ => 0 end.

Fixpoint shape (t : itree) : tree :=
  match t with
  | ILeaf v => Leaf v
  | INode _ kind len children =>
      Node kind (node_len kind len)
        ((fix go (cs : list (string * itree)) : list (string * tree) :=
            match cs with
            | [] => []
            | (k, t') :: cs' => (k, shape t') :: go cs'
            end) children)
  end.

Lemma shape_node a kind len children :
  shape (INode a kind len children)
  = Node kind (node_len kind len) (map (λ kt, (kt.1, shape kt.2)) children).
Proof.
  cbn [shape]. f_equal.
  induction children as [|[k t] cs IH]; [done|]. cbn. by rewrite IH.
Qed.

Section Represents.
Context (h0 : heap).

(** [represents h lo hi v t]: in the heap [h] the value [v] has the shape
    [t], and its containers lie at the locations [lo <= c < hi].  What is
    a leaf is decided in the heap [h0] of the input. *)
Fixpoint represents (h : heap) (lo hi : nat) (v : value) (t : tree) {struct t} : Prop :=
  match t with
  | Leaf v' => v = v' ∧ is_container h0 v = false
  | Node kind len children =>
      ∃ c o, v = VRef c ∧ h !! c = Some o ∧ lo ≤ c < hi
             ∧ o_kind o = kind ∧ kind ≠ Exotic
             ∧ (kind = Arr → o_len o = len)
             ∧ (∀ k, assoc k (o_props o) = None ↔ k ∉ map fst children)
             ∧ (fix all (cs : list (string * tree)) : Prop :=
                  match cs with
                  | [] => True
                  | (k, t') :: cs' =>
                      (∃ v', assoc k (o_props o) = Some v' ∧ represents h lo hi v' t')
                      ∧ all cs'
                  end) children
  end.

Lemma represents_node h lo hi v kind len children :
  represents h lo hi v (Node kind len children)
  ↔ ∃ c o, v = VRef c ∧ h !! c = Some o ∧ lo ≤ c < hi
           ∧ o_kind o = kind ∧ kind ≠ Exotic
           ∧ (kind = Arr → o_len o = len)
           ∧ (∀ k, assoc k (o_props o) = None ↔ k ∉ map fst children)
           ∧ Forall (λ kt, ∃ v', assoc kt.1 (o_props o) = Some v'
                                 ∧ represents h lo hi v' kt.2) children.
Proof.
  cbn [represents].
  assert (Hall : ∀ o cs,
    (fix all (cs : list (string * tree)) : Prop :=
       match cs with
       | [] => True
       | (k, t') :: cs' =>
           (∃ v', assoc k (o_props o) = Some v' ∧ represents h lo hi v' t') ∧ all cs'
       end) cs
    ↔ Forall (λ kt, ∃ v', assoc kt.1 (o_props o) = Some v'
                          ∧ represents h lo hi v' kt.2) cs).
  { intros o cs. induction cs as [|[k t] cs IH]; [by split; [constructor|]|].
    rewrite Forall_cons, <- IH. done. }
  split; intros (c & o & H); exists c, o; by rewrite Hall in * || rewrite <- Hall in *.
Qed.

(** The shape of a value depends on the heap between [lo] and [hi] only. *)
Lemma represents_frame h h' lo hi lo' hi' v t :
  (∀ c, lo ≤ c < hi → h' !! c = h !! c) → lo' ≤ lo → hi ≤ hi' →
  represents h lo hi v t → represents h' lo' hi' v t.
Proof.
  intros Hagree Hlo Hhi. revert v.
  induction t as [v' | kind len children IH] using tree_induction; intros v; [done|].
  rewrite !represents_node.
  intros (c & o & -> & Ho & Hc & Hk & Hne & Hlen & Hnone & Hch).
  exists c, o. rewrite Hagree by done.
  repeat (split; [done || lia|]).
  rewrite Forall_forall in IH. rewrite Forall_forall in Hch. apply Forall_forall.
  intros kt Hin. destruct (Hch kt Hin) as (v' & Hv' & Hrep).
  exists v'. split; [done|]. by apply IH.
Qed.
End Represents.

(** ** Writing and reading properties *)

Lemma assoc_None k ps : assoc k ps = None ↔ k ∉ map fst ps.
Proof.
  induction ps as [|[k' v] ps IH]; cbn; [split; [intros _; apply not_elem_of_nil | done]|].
  rewrite not_elem_of_cons, <- IH.
  destruct (String.eqb_spec k k'); naive_solver.
Qed.

Lemma assoc_Some_elem k v ps : assoc k ps = Some v → (k, v) ∈ ps.
Proof.
  induction ps as [|[k' v'] ps IH]; cbn; [done|].
  destruct (String.eqb_spec k k') as [<- | Hne].
  - intros [= <-]. left.
  - intros H. right. by apply IH.
Qed.

Lemma assoc_replace k v ps k' :
  is_Some (assoc k ps) →
  assoc k' (props_replace k v ps) = if String.eqb k' k then Some v else assoc k' ps.
Proof.
  induction ps as [|[k0 v0] ps IH]; cbn; [by intros [? ?]|].
  destruct (String.eqb_spec k k0) as [<- | Hne]; cbn.
  - intros _. by destruct (String.eqb_spec k' k).
  - intros Hs. rewrite (IH Hs).
    destruct (String.eqb_spec k' k0) as [-> | Hne']; [|done].
    by rewrite (proj2 (String.eqb_neq k0 k)).
Qed.

Lemma assoc_insert_index i k v ps k' :
  assoc k ps = None →
  assoc k' (props_insert_index i k v ps) = if String.eqb k' k then Some v else assoc k' ps.
Proof.
  induction ps as [|[k0 v0] ps IH]; [done|].
  cbn [props_insert_index assoc].
  destruct (String.eqb_spec k k0) as [<- | Hne]; [done|]. intros Hnone.
  destruct (index_of_key k0) as [j|]; [destruct (Nat.ltb i j)|];
    cbn [assoc]; try reflexivity.
  rewrite (IH Hnone).
  destruct (String.eqb_spec k' k0) as [-> | Hne']; [|done].
  by rewrite (proj2 (String.eqb_neq k0 k)).
Qed.

Lemma assoc_app_None k ps ps' :
  assoc k (ps ++ ps') = match assoc k ps with Some v => Some v | None => assoc k ps' end.
Proof.
  induction ps as [|[k0 v0] ps IH]; cbn; [done|]. by destruct (String.eqb k k0).
Qed.

Lemma assoc_props_set k v ps k' :
  assoc k' (props_set k v ps) = if String.eqb k' k then Some v else assoc k' ps.
Proof.
  unfold props_set. destruct (assoc k ps) as [v0|] eqn:E.
  - apply assoc_replace. by rewrite E.
  - destruct (index_of_key k) as [i|]; [by apply assoc_insert_index|].
    rewrite assoc_app_None. cbn.
    destruct (String.eqb_spec k' k) as [-> | Hne]; [by rewrite E|].
    by destruct (assoc k' ps).
Qed.

Lemma assign_ordinary l o k v h :
  h !! l = Some o → k ≠ "__proto__" → ¬ (o_kind o = Arr ∧ k = "length") →
  assign l k v h = (Returned tt, <[l := obj_set o k v]> h).
Proof.
  intros Ho Hp Hk. unfold assign. rewrite Ho.
  rewrite (proj2 (String.eqb_neq k "__proto__") Hp).
  destruct (bool_decide (o_kind o = Arr) && String.eqb k "length") eqn:E; [|done].
  apply andb_true_iff in E as [E1%bool_decide_eq_true E2%String.eqb_eq]. naive_solver.
Qed.

(** Whatever is assigned, the heap keeps its size, and the objects other
    than the target are as they were. *)
Lemma assign_frame l k v h :
  length (assign l k v h).2 = length h
  ∧ ∀ c, c ≠ l → (assign l k v h).2 !! c = h !! c.
Proof.
  unfold assign. destruct (h !! l) as [o|]; [|done].
  assert (Hins : ∀ o', length (<[l := o']> h) = length h
                       ∧ ∀ c, c ≠ l → <[l := o']> h !! c = h !! c).
  { intros o'. split; [by rewrite length_insert|].
    intros c Hc. by rewrite list_lookup_insert_ne. }
  destruct (String.eqb k "__proto__").
  { by destruct (o_kind o), v. }
  destruct (bool_decide (o_kind o = Arr) && String.eqb k "length"); [|apply Hins].
  destruct v as [| | |n| | |]; try done.
  destruct ((0 <=? n)%Z && (n <? 4294967296)%Z); [apply Hins | done].
Qed.

Lemma extend_len_snoc n ks k :
  extend_len n (ks ++ [k])
  = match index_of_key k with
    | Some i => Nat.max (extend_len n ks) (S i)
    | None => extend_len n ks
    end.
Proof. unfold extend_len. by rewrite fold_left_app. Qed.

Lemma extend_len_cons n k ks :
  extend_len n (k :: ks)
  = extend_len (match index_of_key k with
                | Some i => Nat.max n (S i)
                | None => n
                end) ks.
Proof. done. Qed.

(** ** The correspondence table of copyObject *)

Lemma indexOf_app_l xs ys x i : indexOf xs x = Some i → indexOf (xs ++ ys) x = Some i.
Proof.
  revert i. induction xs as [|y xs IH]; intros i; cbn; [done|].
  destruct (strictEqual y x); [done|].
  destruct (indexOf xs x) as [j|] eqn:E; [|done]. cbn. intros [= <-].
  by rewrite (IH j).
Qed.

Lemma indexOf_fresh xs l : VRef l ∉ xs → indexOf (xs ++ [VRef l]) (VRef l) = Some (length xs).
Proof.
  induction xs as [|y xs IH]; cbn.
  - intros _. unfold strictEqual. by rewrite bool_decide_eq_true_2.
  - intros [Hne Hnin]%not_elem_of_cons.
    rewrite strictEqual_false_ne by done. by rewrite (IH Hnin).
Qed.

(** ** copyObject on a tree *)

Section CopyTree.
Context {U : Type} (callback : visitor U) (h0 : heap).

(** What the callback answers for a key, and the state it leaves. *)
Definition verdict (k : string) (a : loc) (path : list string) (u : U) : value * U :=
  match callback k a (PathArr path) (h0, u) with
  | (Returned r, (_, u')) => (r, u')
  | (_, (_, u')) => (VUndefined, u')
  end.

Section PruneChildren.
Context (rec : itree → list string → U → tree * U) (a : loc) (path : list string).

Fixpoint prune_children (cs : list (string * itree)) (u : U)
  : list (string * tree) * U :=
  match cs with
  | [] => ([], u)
  | (k, t) :: cs' =>
      let '(r, u1) := verdict k a path u in
      if strictEqual r (VBool false) then prune_children cs' u1
      else
        let '(t', u2) := rec t (path ++ [k]) u1 in
        let '(rest, u3) := prune_children cs' u2 in
        ((k, t') :: rest, u3)
  end.
End PruneChildren.

(** The copy as a function on trees: the callback is asked for every key in
    turn, a key it answers [false] for is left out with all below it, and
    an array is as long as the keys written into it make it. *)
Fixpoint prune (t : itree) (path : list string) (u : U) : tree * U :=
  match t with
  | ILeaf v => (Leaf v, u)
  | INode a kind len children =>
      let '(cs, u') := prune_children prune a path children u in
      (Node kind (node_len kind (extend_len 0 (map fst cs))) cs, u')
  end.

(** A heap agrees with the input heap on the locations of the input. *)
Definition agrees (h : heap) : Prop :=
  length h0 ≤ length h ∧ ∀ l, l < length h0 → h !! l = h0 !! l.

(** The callback returns, leaves the heap alone, and answers from the
    objects of the input alone: it holds no reference to the objects
    [copyObject] allocates. *)
Definition input_only : Prop :=
  ∀ k o p h u, agrees h →
    ∃ r u', callback k o p (h, u) = (Returned r, (h, u'))
            ∧ callback k o p (h0, u) = (Returned r, (h0, u')).

Definition never_false : Prop :=
  ∀ k a path u, strictEqual (verdict k a path u).1 (VBool false) = false.

(** The input heap is a heap: references point to objects, own keys do not
    repeat, and no array has an own enumerable key ["length"].  And it
    holds no own property named ["__proto__"] (which only
    [Object.defineProperty], a computed key or [JSON.parse] create):
    assigning to that name in the copy would set a prototype instead of
    a property. *)
Record heap_ok : Prop := {
  ok_closed : ∀ a o k v, h0 !! a = Some o → (k, v) ∈ o_props o → value_ok h0 v;
  ok_nodup : keys_nodup h0;
  ok_length : ∀ a o, h0 !! a = Some o → o_kind o = Arr → "length" ∉ obj_keys o;
  ok_proto : ∀ a o, h0 !! a = Some o → "__proto__" ∉ obj_keys o
}.

(** No array ends in empty slots. *)
Definition tight : Prop :=
  ∀ a o, h0 !! a = Some o → o_kind o = Arr → o_len o = extend_len 0 (obj_keys o).

Lemma agrees_refl : agrees h0.
Proof. split; [lia | done]. Qed.

Lemma agrees_container h v : agrees h → value_ok h0 v → is_container h v = is_container h0 v.
Proof.
  intros [_ Hag] Hok. unfold is_container, isPlainObject, isArray.
  destruct v as [| | | | | |l]; try done. cbn in Hok. cbn. by rewrite (Hag l Hok).
Qed.

Lemma agrees_heap_get h p k : agrees h → p < length h0 → heap_get h p k = heap_get h0 p k.
Proof. intros [_ Hag] Hp. unfold heap_get. by rewrite (Hag p Hp). Qed.

Lemma agrees_alloc h o : agrees h → agrees (h ++ [o]).
Proof.
  intros [Hlen Hag]. split; [rewrite length_app; lia|].
  intros l Hl. rewrite lookup_app_l by lia. by apply Hag.
Qed.

Lemma agrees_insert h q o : agrees h → length h0 ≤ q → agrees (<[q := o]> h).
Proof.
  intros [Hlen Hag] Hq. split; [by rewrite length_insert|].
  intros l Hl. rewrite list_lookup_insert_ne by lia. by apply Hag.
Qed.

(** *** One call of [walkCallback] *)

Lemma walkCallback_veto k p path h ins outs u r u' :
  callback k p path (h, u) = (Returned r, (h, u')) →
  strictEqual r (VBool false) = true →
  walkCallback callback k p path (h, Copier ins outs u)
  = (Returned (VBool true), (h, Copier ins outs u')).
Proof.
  intros Hcb Hr. unfold walkCallback, bind at 1, call_user. cbn.
  by rewrite Hcb, Hr.
Qed.

Lemma walkCallback_leaf k p path h ins outs u r u' i q oq :
  callback k p path (h, u) = (Returned r, (h, u')) →
  strictEqual r (VBool false) = false →
  indexOf ins (VRef p) = Some i → outs !! i = Some q → h !! q = Some oq →
  k ≠ "__proto__" → ¬ (o_kind oq = Arr ∧ k = "length") →
  is_container h (heap_get h p k) = false →
  walkCallback callback k p path (h, Copier ins outs u)
  = (Returned (VBool false),
     (<[q := obj_set oq k (heap_get h p k)]> h, Copier ins outs u')).
Proof.
  intros Hcb Hr Hi Hq Hoq Hpr Hk Hleaf.
  unfold is_container in Hleaf. apply orb_false_iff in Hleaf as [Hp Ha].
  unfold walkCallback, bind, call_user, gets, on_heap, ret. cbn.
  rewrite Hcb. cbn. rewrite Hr. cbn. rewrite Hp, Ha. cbn. rewrite Hi. cbn.
  rewrite Hq. by rewrite (assign_ordinary q oq k _ h Hoq Hpr Hk).
Qed.

Lemma walkCallback_container k p path h ins outs u r u' i q oq :
  callback k p path (h, u) = (Returned r, (h, u')) →
  strictEqual r (VBool false) = false →
  indexOf ins (VRef p) = Some i → outs !! i = Some q → h !! q = Some oq →
  k ≠ "__proto__" → ¬ (o_kind oq = Arr ∧ k = "length") →
  is_container h (heap_get h p k) = true →
  walkCallback callback k p path (h, Copier ins outs u)
  = (Returned (VBool false),
     (<[q := obj_set oq k (VRef (length h))]>
        (h ++ [if isArray h (heap_get h p k) then empty_array else empty_object]),
      Copier (ins ++ [heap_get h p k]) (outs ++ [length h]) u')).
Proof.
  intros Hcb Hr Hi Hq Hoq Hpr Hk Hcont.
  assert (Hnew : (h ++ [if isArray h (heap_get h p k) then empty_array else empty_object])
                 !! q = Some oq).
  { rewrite lookup_app_l; [done|]. by eapply lookup_lt_Some. }
  unfold walkCallback, bind, call_user, gets, on_heap, ret, push, modify, alloc. cbn.
  rewrite Hcb. cbn. rewrite Hr. cbn.
  unfold is_container in Hcont.
  destruct (isPlainObject h (heap_get h p k)) eqn:Hp; cbn.
  - assert (isArray h (heap_get h p k) = false) as Ha.
    { unfold isPlainObject, isArray in *. apply bool_decide_eq_true in Hp.
      apply bool_decide_eq_false. congruence. }
    rewrite Ha in Hnew |- *. rewrite Hi. cbn. rewrite Hq.
    by rewrite (assign_ordinary q oq k _ _ Hnew Hpr Hk).
  - cbn in Hcont. rewrite Hcont in Hnew |- *. cbn. rewrite Hi. cbn. rewrite Hq.
    by rewrite (assign_ordinary q oq k _ _ Hnew Hpr Hk).
Qed.
End CopyTree.

(** [{walkArrays: true}], the configuration [copyObject] walks with. *)
Definition copy_config : config := Config (VBool true) None VUndefined.

Lemma descent_copy h p k :
  descent h copy_config p k
  = match heap_get h p k with
    | VRef d => if is_container h (VRef d) then Some d else None
    | _ => None
    end.
Proof.
  unfold descent, is_container, doArrayWalk. cbn.
  destruct (heap_get h p k) as [| | | | | |d]; try done.
  by destruct (isPlainObject h (VRef d)), (isArray h (VRef d)).
Qed.

Lemma reify_leaf n h v t : reify n h v = Some t → is_container h v = false → t = ILeaf v.
Proof. destruct n; cbn; intros H Hc; rewrite Hc in H; congruence. Qed.

Lemma reify_node n h v t :
  reify n h v = Some t → is_container h v = true →
  ∃ n' a o children,
    n = S n' ∧ v = VRef a ∧ h !! a = Some o
    ∧ t = INode a (o_kind o) (o_len o) children
    ∧ Forall2 (λ k kt, kt.1 = k ∧ reify n' h (heap_get h a k) = Some kt.2)
              (obj_keys o) children.
Proof.
  destruct n as [|n']; cbn; intros H Hc; rewrite Hc in H; [done|].
  destruct v as [| | | | | |a]; try done.
  destruct (h !! a) as [o|] eqn:Ho; [|done].
  destruct (mapM _ (obj_keys o)) as [children|] eqn:Hm; [|done].
  injection H as <-. exists n', a, o, children. repeat (split; [done|]).
  apply mapM_Some in Hm. eapply Forall2_impl; [apply Hm|].
  intros k [k' t]. cbn.
  destruct (reify n' h (heap_get h a k)) as [t'|]; cbn; [|done]. by intros [= <- <-].
Qed.

Lemma container_kind h a o :
  h !! a = Some o → is_container h (VRef a) = true →
  o_kind o ≠ Exotic ∧ isArray h (VRef a) = bool_decide (o_kind o = Arr).
Proof.
  intros Ho. unfold is_container, isPlainObject, isArray, kind_of. rewrite Ho. cbn.
  destruct (o_kind o); cbn; try done.
Qed.

Lemma Forall2_keys {A} (ks : list string) (cs : list (string * A)) (P : string → A → Prop) :
  Forall2 (λ k kt, kt.1 = k ∧ P k kt.2) ks cs → map fst cs = ks.
Proof. induction 1 as [|k [k' t] ks cs [Hk _] _ IH]; cbn in *; [done|]. by rewrite Hk, IH. Qed.

Section CopyCorrect.
Context {U : Type} (callback : visitor U) (h0 : heap).
Context (Hok : heap_ok h0) (Hcb : input_only callback h0).

Lemma prune_children_keys rec a path cs u k :
  k ∈ map fst (prune_children callback h0 rec a path cs u).1 → k ∈ map fst cs.
Proof.
  revert u. induction cs as [|[k' t] cs IH]; intros u; cbn; [done|].
  destruct (verdict callback h0 k' a path u) as [r u1].
  destruct (strictEqual r (VBool false)).
  - intros H. right. by apply (IH u1).
  - destruct (rec t (path ++ [k']) u1) as [t' u2].
    destruct (prune_children callback h0 rec a path cs u2) as [rest u3] eqn:E. cbn.
    intros [-> | H]%elem_of_cons; [left | right].
    apply (IH u2). by rewrite E.
Qed.

(** The walk is in step with the table: the heap agrees with the input
    heap on the input, and every output object registered exists and was
    allocated by the copy. *)
Record copying (h : heap) (ins : list value) (outs : list loc) : Prop := {
  cp_agrees : agrees h0 h;
  cp_len : length ins = length outs;
  cp_outs : ∀ i q, outs !! i = Some q → length h0 ≤ q < length h
}.

(** What walking the [children] of the input object [p], whose output
    object is [q], does to a world. *)
Definition copied (p : loc) (path : list string) (children : list (string * itree))
    (q : loc) (oq : obj) (h : heap) (ins : list value) (outs : list loc) (u : U)
    (res : outcome unit * world (copier U)) : Prop :=
  ∃ h' ins' outs' l' oq',
    let cs := prune_children callback h0 (prune callback h0) p path children u in
    res = (Returned tt, World h' (Copier ins' outs' cs.2) l')
    ∧ copying h' ins' outs'
    ∧ length h ≤ length h'
    ∧ (∀ c, c < length h → c ≠ q → h' !! c = h !! c)
    ∧ (∃ extra, ins' = ins ++ extra
                ∧ ∀ v, v ∈ extra → ∃ d, d ∈ children_locs children ∧ v = VRef d)
    ∧ (∃ extra, outs' = outs ++ extra)
    ∧ h' !! q = Some oq'
    ∧ o_kind oq' = o_kind oq
    ∧ o_len oq' = match o_kind oq with
                  | Arr => extend_len (o_len oq) (map fst cs.1)
                  | _ => o_len oq
                  end
    ∧ (∀ k, k ∉ map fst cs.1 → assoc k (o_props oq') = assoc k (o_props oq))
    ∧ Forall (λ kt, ∃ v', assoc kt.1 (o_props oq') = Some v'
                          ∧ represents h0 h' (length h) (length h') v' kt.2) cs.1.

Definition copies_object (fuel n : nat) : Prop :=
  ∀ a kind len children path q oq h ins outs u l0 i,
    reify n h0 (VRef a) = Some (INode a kind len children) →
    copying h ins outs →
    indexOf ins (VRef a) = Some i → outs !! i = Some q → h !! q = Some oq →
    o_kind oq = kind →
    NoDup (children_locs children) →
    (∀ d, d ∈ children_locs children → VRef d ∉ ins) →
    copied a path children q oq h ins outs u
      (_walkObject fuel a (walkCallback callback) (array_acc path) copy_config
         (World h (Copier ins outs u) l0)).

Lemma children_locs_cons k t (children : list (string * itree)) :
  children_locs ((k, t) :: children) = itree_locs t ++ children_locs children.
Proof. done. Qed.

Lemma reified_keys n a ks (children : list (string * itree)) :
  Forall2 (λ k kt, kt.1 = k ∧ reify n h0 (heap_get h0 a k) = Some kt.2) ks children →
  map fst children = ks.
Proof.
  apply (Forall2_keys ks children (λ k t, reify n h0 (heap_get h0 a k) = Some t)).
Qed.

Lemma prune_node a kind len children path u :
  prune callback h0 (INode a kind len children) path u
  = let cs := prune_children callback h0 (prune callback h0) a path children u in
    (Node kind (node_len kind (extend_len 0 (map fst cs.1))) cs.1, cs.2).
Proof.
  cbn [prune].
  by destruct (prune_children callback h0 (prune callback h0) a path children u).
Qed.

Lemma agrees_isArray h v : agrees h0 h → value_ok h0 v → isArray h v = isArray h0 v.
Proof.
  intros [_ Hag] Hok'. unfold isArray.
  destruct v as [| | | | | |l]; try done. cbn in Hok'. cbn. by rewrite (Hag l Hok').
Qed.

Lemma copy_children fuel n :
  copies_object fuel n →
  ∀ children ks p op path q oq h ins outs u l0 i,
    h0 !! p = Some op →
    Forall2 (λ k kt, kt.1 = k ∧ reify n h0 (heap_get h0 p k) = Some kt.2) ks children →
    NoDup ks →
    "__proto__" ∉ ks →
    (o_kind oq = Arr → "length" ∉ ks) →
    (∀ k, k ∈ ks → value_ok h0 (heap_get h0 p k)) →
    copying h ins outs →
    indexOf ins (VRef p) = Some i → outs !! i = Some q → h !! q = Some oq →
    NoDup (children_locs children) →
    (∀ d, d ∈ children_locs children → VRef d ∉ ins) →
    copied p path children q oq h ins outs u
      (forEach ks
         (walk_key (λ l next, _walkObject fuel l (walkCallback callback) next copy_config)
            p (walkCallback callback) (array_acc path) copy_config)
         (World h (Copier ins outs u) l0)).
Proof.
  intros Hrec children.
  induction children as [|[k t] children IH];
    intros ks p op path q oq h ins outs u l0 i Hp Hre Hnd Hproto Hlen Hvok Hcp Hi Hq Hoq
           Hlocs Hfresh.
  { apply Forall2_nil_inv_r in Hre as ->. cbn.
    exists h, ins, outs, l0, oq. cbn.
    split; [done|]. split; [done|]. split; [done|]. split; [done|].
    split.
    { exists []. split; [by rewrite app_nil_r|]. intros v Hv. by apply elem_of_nil in Hv. }
    split; [exists []; by rewrite app_nil_r|].
    split; [done|]. split; [done|].
    split; [by destruct (o_kind oq)|]. split; [done|]. constructor. }
  apply Forall2_cons_inv_r in Hre as (k' & ks' & [Hk Ht] & Hre & ->).
  cbn in Hk, Ht. subst k'.
  pose proof (lookup_lt_Some _ _ _ Hp) as Hpb.
  pose proof Hcp as [Hag Hlens Houts].
  destruct (Houts i q Hq) as [Hqb Hqh].
  assert (Hpq : p ≠ q) by lia.
  apply NoDup_cons in Hnd as [Hk_nin Hnd].
  rewrite children_locs_cons in Hlocs, Hfresh.
  apply NoDup_app in Hlocs as (Hlocs_t & Hdisj & Hlocs_cs).
  destruct (Hcb k p (PathArr path) h u Hag) as (r & u1 & Hrun & Hrun0).
  assert (Hv : verdict callback h0 k p path u = (r, u1)).
  { unfold verdict. by rewrite Hrun0. }
  assert (Hget : heap_get h p k = heap_get h0 p k) by (by apply agrees_heap_get).
  assert (Hvok' : value_ok h0 (heap_get h0 p k)) by (apply Hvok; left).
  assert (Hnl : ¬ (o_kind oq = Arr ∧ k = "length")).
  { intros [Ha ->]. apply (Hlen Ha). left. }
  apply not_elem_of_cons in Hproto as [Hpr0 Hproto].
  assert (Hpr : k ≠ "__proto__") by congruence.
  assert (Hlen' : ∀ o', o_kind o' = o_kind oq → o_kind o' = Arr → "length" ∉ ks').
  { intros o' Ho' Ha. rewrite Ho' in Ha. intros Hin. apply (Hlen Ha). by right. }
  assert (Hvok_rest : ∀ k0, k0 ∈ ks' → value_ok h0 (heap_get h0 p k0)).
  { intros k0 Hk0. apply Hvok. by right. }
  cbn [forEach]. unfold bind at 1. rewrite walk_key_array.
  unfold copied. cbn [prune_children]. rewrite Hv.
  destruct (strictEqual r (VBool false)) eqn:Hr.
  - (* the callback answered false: the key is left out *)
    rewrite (walkCallback_veto callback k p (PathArr path) h ins outs u r u1 Hrun Hr).
    cbn zeta. cbn [truthy].
    destruct (IH ks' p op path q oq h ins outs u1
                (l0 ++ [Event k p (PathArr path) (VBool true)]) i
                Hp Hre Hnd Hproto (Hlen' oq eq_refl) Hvok_rest Hcp Hi Hq Hoq Hlocs_cs)
      as (h' & ins' & outs' & l' & oq' & Hres & Hcp' & Hle & Hframe & Hins & Houts'
          & Hoq' & Hkind & Holen & Hsame & Hall).
    { intros d Hd. apply Hfresh, elem_of_app. by right. }
    exists h', ins', outs', l', oq'. cbn zeta in *.
    split; [exact Hres|]. split; [done|]. split; [done|]. split; [done|].
    split.
    { destruct Hins as (extra & -> & Hextra). exists extra. split; [done|].
      intros v0 Hv0. destruct (Hextra v0 Hv0) as (d & Hd & ->).
      exists d. split; [|done]. apply elem_of_app. by right. }
    done.
  - (* the callback did not answer false *)
    assert (Hcopying_insert : ∀ h2 o2, agrees h0 h2 → length h2 = length h →
              copying (<[q := o2]> h2) ins outs).
    { intros h2 o2 Hag2 Hl2. split; [by apply agrees_insert | done |].
      intros i0 q0 Hq0. rewrite length_insert, Hl2. by apply (Houts i0). }
    destruct (is_container h0 (heap_get h0 p k)) eqn:Hc.
    + (* a plain object or an array: a fresh container is allocated,
         registered and assigned, and the walk goes into the value *)
      destruct (reify_node _ _ _ _ Ht Hc)
        as (n' & d & od & gchildren & -> & Hvd & Hod & -> & Hgre).
      rewrite Hvd in *.
      assert (Hch : is_container h (heap_get h p k) = true).
      { by rewrite Hget, (agrees_container h0 h _ Hag Hvok'). }
      rewrite (walkCallback_container callback k p (PathArr path) h ins outs u r u1 i q oq
                 Hrun Hr Hi Hq Hoq Hpr Hnl Hch).
      cbn zeta. cbn [truthy]. rewrite Hget.
      set (c := length h) in *.
      set (new := if isArray h (VRef d) then empty_array else empty_object).
      set (h1 := <[q := obj_set oq k (VRef c)]> (h ++ [new])).
      set (l1 := l0 ++ [Event k p (PathArr path) (VBool false)]).
      rewrite itree_locs_node in Hlocs_t, Hdisj, Hfresh.
      apply NoDup_cons in Hlocs_t as [Hd_nin Hlocs_g].
      assert (Hh1len : length h1 = S c).
      { unfold h1. rewrite length_insert, length_app. cbn. lia. }
      assert (Hag1 : agrees h0 h1).
      { unfold h1. apply agrees_insert; [|done]. by apply agrees_alloc. }
      assert (Hcp1 : copying h1 (ins ++ [VRef d]) (outs ++ [c])).
      { split; [done | rewrite !length_app; cbn; lia |].
        intros i0 q0 Hq0. rewrite Hh1len.
        apply lookup_app_Some in Hq0 as [Hq0 | [_ Hq0]].
        - destruct (Houts i0 q0 Hq0). lia.
        - apply list_lookup_singleton_Some in Hq0 as [_ <-]. lia. }
      assert (Hgetd : heap_get h1 p k = VRef d).
      { unfold heap_get, h1. rewrite list_lookup_insert_ne by done.
        rewrite lookup_app_l by lia. fold (heap_get h p k). by rewrite Hget. }
      assert (Hd : descent h1 copy_config p k = Some d).
      { rewrite descent_copy, Hgetd.
        by rewrite (agrees_container h0 h1 _ Hag1 Hvok'), Hc. }
      rewrite Hd.
      assert (Hi1 : indexOf (ins ++ [VRef d]) (VRef d) = Some (length ins)).
      { apply indexOf_fresh. apply Hfresh. apply elem_of_app. left. left. }
      assert (Hq1 : (outs ++ [c]) !! length ins = Some c).
      { rewrite Hlens, lookup_app_r by lia. by rewrite Nat.sub_diag. }
      assert (Hnew : h1 !! c = Some new).
      { unfold h1. rewrite list_lookup_insert_ne by lia.
        rewrite lookup_app_r by (unfold c; lia). by rewrite Nat.sub_diag. }
      destruct (container_kind h0 d od Hod Hc) as [Hne_ex Harr].
      assert (Hknew : o_kind new = o_kind od).
      { unfold new. rewrite (agrees_isArray h (VRef d) Hag Hvok'), Harr.
        destruct (o_kind od); done. }
      assert (Hfresh_g : ∀ d', d' ∈ children_locs gchildren → VRef d' ∉ ins ++ [VRef d]).
      { intros d' Hd'. apply not_elem_of_app. split.
        - apply Hfresh. apply elem_of_app. left. by right.
        - intros [= ->]%list_elem_of_singleton. done. }
      destruct (Hrec d (o_kind od) (o_len od) gchildren (path ++ [k]) c new h1
                  (ins ++ [VRef d]) (outs ++ [c]) u1 l1 (length ins)
                  Ht Hcp1 Hi1 Hq1 Hnew Hknew Hlocs_g Hfresh_g)
        as (h2 & ins2 & outs2 & l2 & oc' & Hres2 & Hcp2 & Hle2 & Hframe2 & Hins2
            & Houts2 & Hoc' & Hkind2 & Holen2 & Hsame2 & Hall2).
      cbn zeta in *.
      destruct (prune_children callback h0 (prune callback h0) d (path ++ [k]) gchildren u1)
        as [cs_d u2] eqn:Ecs_d.
      cbn [fst snd] in *.
      rewrite Hres2.
      assert (Hoq2 : h2 !! q = Some (obj_set oq k (VRef c))).
      { rewrite Hframe2 by lia. unfold h1. rewrite list_lookup_insert_eq; [done|].
        rewrite length_app. cbn. lia. }
      destruct Hins2 as (extra & -> & Hextra).
      destruct Houts2 as (extra' & ->).
      assert (Hi2 : indexOf ((ins ++ [VRef d]) ++ extra) (VRef p) = Some i).
      { by do 2 apply indexOf_app_l. }
      assert (Hq2 : ((outs ++ [c]) ++ extra') !! i = Some q).
      { pose proof (lookup_lt_Some _ _ _ Hq).
        rewrite lookup_app_l by (rewrite length_app; lia). by rewrite lookup_app_l by lia. }
      assert (Hfresh_cs : ∀ d', d' ∈ children_locs children →
                VRef d' ∉ (ins ++ [VRef d]) ++ extra).
      { intros d' Hd'. rewrite !not_elem_of_app. split; [split|].
        - apply Hfresh. apply elem_of_app. by right.
        - intros [= ->]%list_elem_of_singleton. apply (Hdisj d); [left | done].
        - intros Hin. destruct (Hextra _ Hin) as (d3 & Hd3 & [= ->]).
          apply (Hdisj d3); [by right | done]. }
      destruct (IH ks' p op path q (obj_set oq k (VRef c)) h2 ((ins ++ [VRef d]) ++ extra)
                  ((outs ++ [c]) ++ extra') u2 l2 i
                  Hp Hre Hnd Hproto (Hlen' (obj_set oq k (VRef c)) eq_refl) Hvok_rest Hcp2
                  Hi2 Hq2 Hoq2 Hlocs_cs Hfresh_cs)
        as (h' & ins' & outs' & l' & oq' & Hres & Hcp' & Hle & Hframe & Hins & Houts'
            & Hoq' & Hkind & Holen & Hsame & Hall).
      cbn zeta in *. rewrite prune_node. cbn zeta. rewrite Ecs_d. cbn [fst snd].
      destruct (prune_children callback h0 (prune callback h0) p path children u2)
        as [rest u3] eqn:Erest.
      cbn [fst snd] in *.
      assert (Hk_rest : k ∉ map fst rest).
      { intros Hin. apply Hk_nin.
        rewrite <- (reified_keys _ _ _ _ Hre).
        apply (prune_children_keys (prune callback h0) p path children u2 k).
        by rewrite Erest. }
      exists h', ins', outs', l', oq'.
      split; [exact Hres|]. split; [done|]. split; [lia|].
      split.
      { intros c0 Hc1 Hc2. rewrite Hframe by (done || lia).
        rewrite Hframe2 by (done || lia).
        unfold h1. rewrite list_lookup_insert_ne by done.
        by rewrite lookup_app_l by (fold c; lia). }
      split.
      { destruct Hins as (extra2 & -> & Hextra2).
        exists ([VRef d] ++ extra ++ extra2). split; [by rewrite <- !app_assoc|].
        rewrite children_locs_cons, itree_locs_node.
        intros v0 [->%list_elem_of_singleton | [Hv0 | Hv0]%elem_of_app]%elem_of_app.
        - exists d. split; [|done]. apply elem_of_app. left. left.
        - destruct (Hextra v0 Hv0) as (d3 & Hd3 & ->). exists d3.
          split; [|done]. apply elem_of_app. left. by right.
        - destruct (Hextra2 v0 Hv0) as (d3 & Hd3 & ->). exists d3.
          split; [|done]. apply elem_of_app. by right. }
      split.
      { destruct Houts' as (extra2' & ->). exists ([c] ++ extra' ++ extra2').
        by rewrite <- !app_assoc. }
      split; [done|]. split; [by rewrite Hkind|].
      split.
      { rewrite Holen. cbn [obj_set o_kind o_len map fst].
        by destruct (o_kind oq). }
      split.
      { intros k0 [Hne Hk0]%not_elem_of_cons. rewrite (Hsame k0 Hk0).
        cbn [obj_set o_props]. rewrite assoc_props_set.
        by rewrite (proj2 (String.eqb_neq k0 k)). }
      assert (Hagree2 : ∀ c0, S c ≤ c0 < length h2 → h' !! c0 = h2 !! c0).
      { intros c0 Hc0. apply Hframe; lia. }
      constructor.
      * cbn [fst snd]. exists (VRef c). split.
        -- rewrite (Hsame k Hk_rest). cbn [obj_set o_props].
           by rewrite assoc_props_set, String.eqb_refl.
        -- apply represents_node. exists c, oc'.
           split; [done|]. split; [rewrite Hframe by lia; done|].
           split; [lia|]. split; [by rewrite Hkind2|]. split; [done|].
           split.
           { intros Ha. rewrite Holen2, Hknew, Ha. cbn [node_len].
             unfold new. by destruct (isArray h (VRef d)). }
           split.
           { intros k0. split.
             - intros Hnone Hin. apply list_elem_of_fmap in Hin as ([k1 t1] & -> & Hin).
               rewrite Forall_forall in Hall2.
               destruct (Hall2 _ Hin) as (v1 & Hv1 & _). cbn in Hv1, Hnone. congruence.
             - intros Hnin. rewrite (Hsame2 k0 Hnin). unfold new.
               by destruct (isArray h (VRef d)). }
           eapply Forall_impl; [apply Hall2|]. intros [k1 t1] (v1 & Hv1 & Hrep).
           exists v1. split; [done|]. cbn [snd] in *.
           eapply (represents_frame h0 h2 h' (length h1) (length h2)); [|lia|lia|done].
           intros c0 Hc0. apply Hagree2. lia.
      * eapply Forall_impl; [apply Hall|]. intros [k1 t1] (v1 & Hv1 & Hrep).
        exists v1. split; [done|]. cbn [snd] in *.
        eapply (represents_frame h0 h' h' (length h2) (length h')); [done|lia|lia|done].
    + (* a leaf: the value is assigned as it is *)
      pose proof (reify_leaf _ _ _ _ Ht Hc) as ->.
      assert (Hcl : is_container h (heap_get h p k) = false).
      { by rewrite Hget, (agrees_container h0 h _ Hag Hvok'). }
      rewrite (walkCallback_leaf callback k p (PathArr path) h ins outs u r u1 i q oq
                 Hrun Hr Hi Hq Hoq Hpr Hnl Hcl).
      cbn zeta. cbn [truthy]. rewrite Hget.
      set (v := heap_get h0 p k) in *.
      set (h1 := <[q := obj_set oq k v]> h).
      assert (Hcp1 : copying h1 ins outs) by (by apply Hcopying_insert).
      assert (Hd : descent h1 copy_config p k = None).
      { rewrite descent_copy.
        assert (heap_get h1 p k = v) as ->.
        { unfold heap_get, h1. rewrite list_lookup_insert_ne by done.
          fold (heap_get h p k). by rewrite Hget. }
        destruct v as [| | | | | |d] eqn:Ev; try done.
        by rewrite (agrees_container h0 h1 _ (cp_agrees _ _ _ Hcp1) Hvok'), Hc. }
      rewrite Hd.
      assert (Hoq1 : h1 !! q = Some (obj_set oq k v)).
      { unfold h1. by rewrite list_lookup_insert_eq. }
      destruct (IH ks' p op path q (obj_set oq k v) h1 ins outs u1
                  (l0 ++ [Event k p (PathArr path) (VBool false)]) i
                  Hp Hre Hnd Hproto (Hlen' (obj_set oq k v) eq_refl) Hvok_rest Hcp1 Hi Hq Hoq1
                  Hlocs_cs)
        as (h' & ins' & outs' & l' & oq' & Hres & Hcp' & Hle & Hframe & Hins & Houts'
            & Hoq' & Hkind & Holen & Hsame & Hall).
      { intros d Hd'. apply Hfresh, elem_of_app. by right. }
      cbn zeta in *. cbn [prune].
      destruct (prune_children callback h0 (prune callback h0) p path children u1)
        as [rest u3] eqn:Erest.
      cbn [fst snd] in *.
      assert (Hk_rest : k ∉ map fst rest).
      { intros Hin. apply Hk_nin.
        rewrite <- (reified_keys _ _ _ _ Hre).
        apply (prune_children_keys (prune callback h0) p path children u1 k).
        by rewrite Erest. }
      assert (Hh1 : length h1 = length h) by (unfold h1; by rewrite length_insert).
      exists h', ins', outs', l', oq'.
      split; [exact Hres|]. split; [done|]. split; [lia|].
      split.
      { intros c Hc1 Hc2. rewrite Hframe by (done || lia).
        unfold h1. by rewrite list_lookup_insert_ne. }
      split.
      { destruct Hins as (extra & -> & Hextra). exists extra. split; [done|].
        intros v0 Hv0. destruct (Hextra v0 Hv0) as (d & Hd' & ->).
        exists d. split; [|done]. apply elem_of_app. by right. }
      split; [done|]. split; [done|]. split; [by rewrite Hkind|].
      split.
      { rewrite Holen. cbn [obj_set o_kind o_len map fst].
        by destruct (o_kind oq). }
      split.
      { intros k0 [Hne Hk0]%not_elem_of_cons. rewrite (Hsame k0 Hk0).
        cbn [obj_set o_props]. rewrite assoc_props_set.
        by rewrite (proj2 (String.eqb_neq k0 k)). }
      constructor.
      * cbn [fst snd]. exists v. split.
        -- rewrite (Hsame k Hk_rest). cbn [obj_set o_props].
           by rewrite assoc_props_set, String.eqb_refl.
        -- done.
      * by rewrite Hh1 in Hall.
Qed.

Lemma children_value_ok a o k :
  h0 !! a = Some o → k ∈ obj_keys o → value_ok h0 (heap_get h0 a k).
Proof.
  intros Ho Hk. destruct (elem_of_keys_assoc k (o_props o) Hk) as (v & Hv & Hin).
  unfold heap_get, obj_get. rewrite Ho, Hv. by apply (ok_closed _ Hok a o k v).
Qed.

Lemma copy_object n : ∀ fuel, n ≤ fuel → copies_object fuel n.
Proof.
  induction n as [|n IH];
    intros fuel Hfuel a kind len children path q oq h ins outs u l0 i
           Hre Hcp Hi Hq Hoq Hkind Hlocs Hfresh.
  { cbn in Hre. by destruct (is_container h0 (VRef a)). }
  destruct fuel as [|fuel]; [lia|].
  assert (Hc : is_container h0 (VRef a) = true).
  { destruct (is_container h0 (VRef a)) eqn:E; [done|].
    pose proof (reify_leaf _ _ _ _ Hre E) as Hx. discriminate Hx. }
  destruct (reify_node _ _ _ _ Hre Hc)
    as (n' & a' & o & children' & Hn & Ha & Ho & Ht & Hgre).
  injection Hn as <-. injection Ha as <-. injection Ht as -> -> <-.
  cbn [_walkObject]. unfold bind at 1, gets at 1. cbn [w_heap].
  assert (Hkeys : Object_keys h a = obj_keys o).
  { unfold Object_keys. destruct (cp_agrees _ _ _ Hcp) as [_ Hag].
    by rewrite (Hag a (lookup_lt_Some _ _ _ Ho)), Ho. }
  rewrite Hkeys.
  apply (copy_children fuel n (IH fuel ltac:(lia)) children (obj_keys o) a o path q oq
           h ins outs u l0 i Ho Hgre); try done.
  - pose proof (ok_nodup _ Hok a) as Hnd. unfold Object_keys in Hnd. by rewrite Ho in Hnd.
  - apply (ok_proto _ Hok a o Ho).
  - intros Harr. apply (ok_length _ Hok a o Ho). congruence.
  - intros k Hk. by apply (children_value_ok a o k).
Qed.

(** *** The copy of a tree that nothing is pruned from *)

Lemma prune_children_full n a path children ks u :
  never_false callback h0 →
  (∀ v t path u, reify n h0 v = Some t → (prune callback h0 t path u).1 = shape t) →
  Forall2 (λ k kt, kt.1 = k ∧ reify n h0 (heap_get h0 a k) = Some kt.2) ks children →
  (prune_children callback h0 (prune callback h0) a path children u).1
  = map (λ kt, (kt.1, shape kt.2)) children.
Proof.
  intros Hnf IH Hre. revert u.
  induction Hre as [|k [k' t] ks children [Hk Ht] _ IHc]; intros u; [done|].
  cbn in Hk, Ht. subst k'. cbn [prune_children map fst snd].
  pose proof (Hnf k a path u) as Hv.
  destruct (verdict callback h0 k a path u) as [r u1]. cbn in Hv. rewrite Hv.
  pose proof (IH _ t (path ++ [k]) u1 Ht) as Hs.
  destruct (prune callback h0 t (path ++ [k]) u1) as [t' u2]. cbn in Hs. subst t'.
  specialize (IHc u2).
  destruct (prune_children callback h0 (prune callback h0) a path children u2)
    as [rest u3]. cbn in IHc. by rewrite IHc.
Qed.

Lemma prune_full n :
  tight h0 → never_false callback h0 →
  ∀ v t path u, reify n h0 v = Some t → (prune callback h0 t path u).1 = shape t.
Proof.
  intros Htight Hnf. induction n as [|n IH]; intros v t path u Hre.
  { cbn in Hre. destruct (is_container h0 v); [done|]. by injection Hre as <-. }
  destruct (is_container h0 v) eqn:Hc.
  2:{ by rewrite (reify_leaf _ _ _ _ Hre Hc). }
  destruct (reify_node _ _ _ _ Hre Hc)
    as (n' & a & o & children & Hn & -> & Ho & -> & Hgre).
  injection Hn as <-.
  rewrite prune_node, shape_node. cbn zeta. cbn [fst].
  rewrite (prune_children_full n a path children (obj_keys o) u Hnf IH Hgre).
  f_equal. rewrite map_map. cbn [fst].
  change (map (λ x : string * itree, x.1) children) with (map fst children).
  rewrite (reified_keys _ _ _ _ Hgre).
  destruct (o_kind o) eqn:Hk; try done. cbn [node_len]. symmetry. by apply (Htight a o).
Qed.

Lemma reify_represents n :
  ∀ v t, reify n h0 v = Some t → value_ok h0 v →
         represents h0 h0 0 (length h0) v (shape t).
Proof.
  induction n as [|n IH]; intros v t Hre Hvok.
  { cbn in Hre. destruct (is_container h0 v) eqn:Hc; [done|]. by injection Hre as <-. }
  destruct (is_container h0 v) eqn:Hc.
  2:{ by rewrite (reify_leaf _ _ _ _ Hre Hc). }
  destruct (reify_node _ _ _ _ Hre Hc)
    as (n' & a & o & children & Hn & -> & Ho & -> & Hgre).
  injection Hn as <-.
  rewrite shape_node. apply represents_node. exists a, o.
  destruct (container_kind h0 a o Ho Hc) as [Hne _].
  pose proof (reified_keys _ _ _ _ Hgre) as Hkeys.
  split; [done|]. split; [done|]. split; [split; [lia | by eapply lookup_lt_Some]|].
  split; [done|]. split; [done|]. split; [by intros ->|].
  split.
  { intros k. rewrite map_map. cbn [fst].
    change (map (λ x : string * itree, x.1) children) with (map fst children).
    rewrite Hkeys. apply assoc_None. }
  apply Forall_map, Forall_forall. intros [k t] Hin. cbn [fst snd].
  apply list_elem_of_lookup_1 in Hin as [j Hj].
  destruct (Forall2_lookup_r _ _ _ _ _ Hgre Hj) as (k' & Hk' & Hk & Ht).
  cbn in Hk, Ht. subst k'.
  assert (Hkin : k ∈ obj_keys o) by (by eapply list_elem_of_lookup_2).
  destruct (elem_of_keys_assoc k (o_props o) Hkin) as (v' & Hv' & Hel).
  exists v'. split; [done|].
  assert (Hget : heap_get h0 a k = v').
  { unfold heap_get, obj_get. by rewrite Ho, Hv'. }
  rewrite Hget in Ht. apply IH; [done|]. by apply (ok_closed _ Hok a o k v').
Qed.

Lemma prune_children_omits rec a path cs u k :
  (∀ u1, strictEqual (verdict callback h0 k a path u1).1 (VBool false) = true) →
  k ∉ map fst (prune_children callback h0 rec a path cs u).1.
Proof.
  intros Hfalse. revert u. induction cs as [|[k' t] cs IH]; intros u.
  { apply not_elem_of_nil. }
  cbn [prune_children].
  destruct (verdict callback h0 k' a path u) as [r u1] eqn:Ev.
  destruct (strictEqual r (VBool false)) eqn:Er; [apply IH|].
  destruct (rec t (path ++ [k']) u1) as [t' u2].
  specialize (IH u2).
  destruct (prune_children callback h0 rec a path cs u2) as [rest u3].
  cbn [fst map]. apply not_elem_of_cons. split; [|done].
  intros ->. specialize (Hfalse u). rewrite Ev in Hfalse. cbn in Hfalse. congruence.
Qed.

(** The copy of a tree.  The input is a plain object or array of a
    well-formed heap whose containers form a finite tree ([reify] unfolds
    it and no container occurs twice), and the callback returns, leaves the
    heap alone and answers from the input alone.  Then [copyObject] returns
    a new object; the input heap is untouched; the output has the shape of
    the input with the keys left out for which the callback answered
    [false] ([prune]), and every container of the output was allocated by
    the copy, so none is shared with the input, while leaves are the very
    values of the input; when the callback never answers [false] and no
    array ends in empty slots, the input has that same shape: output and
    input are equal in value; and a key of the input for which the callback
    always answers [false] is not a key of the output. *)
Theorem copyObject_copies_tree (l : loc) (n fuel : nat) (t : itree) (u : U)
    (l0 : list event) :
  is_container h0 (VRef l) = true →
  reify n h0 (VRef l) = Some t →
  NoDup (itree_locs t) →
  n ≤ fuel →
  let pruned := (prune callback h0 t [] u).1 in
  ∃ h' u' l',
    copyObject fuel (VRef l) callback (World h0 u l0)
    = (Returned (VRef (length h0)), World h' u' l')
    ∧ agrees h0 h'
    ∧ represents h0 h' (length h0) (length h') (VRef (length h0)) pruned
    ∧ (tight h0 → never_false callback h0 →
       represents h0 h0 0 (length h0) (VRef l) pruned)
    ∧ (∀ k, (∀ u1, strictEqual (verdict callback h0 k l [] u1).1 (VBool false) = true) →
            k ∉ Object_keys h' (length h0)).
Proof.
  intros Hc Hre Hnd Hfuel pruned.
  destruct (reify_node _ _ _ _ Hre Hc)
    as (n' & a & o & children & Hn & Ha & Ho & Ht & Hgre).
  injection Ha as <-. subst n t.
  destruct (container_kind h0 l o Ho Hc) as [Hne Harr].
  pose proof (lookup_lt_Some _ _ _ Ho) as Hl.
  set (new := if isArray h0 (VRef l) then empty_array else empty_object).
  set (h1 := h0 ++ [new]).
  assert (Hag1 : agrees h0 h1) by (apply agrees_alloc, agrees_refl).
  assert (Hcp1 : copying h1 [VRef l] [length h0]).
  { split; [done | done |]. intros i q Hq. unfold h1. rewrite length_app. cbn.
    apply list_lookup_singleton_Some in Hq as [_ <-]. lia. }
  assert (Hi1 : indexOf [VRef l] (VRef l) = Some 0).
  { cbn. unfold strictEqual. by rewrite bool_decide_eq_true_2. }
  assert (Hnew : h1 !! length h0 = Some new).
  { unfold h1. rewrite lookup_app_r by lia. by rewrite Nat.sub_diag. }
  assert (Hknew : o_kind new = o_kind o).
  { unfold new. rewrite Harr. by destruct (o_kind o). }
  rewrite itree_locs_node in Hnd. apply NoDup_cons in Hnd as [Hl_nin Hnd].
  assert (Hfresh : ∀ d, d ∈ children_locs children → VRef d ∉ [VRef l]).
  { intros d Hd [= ->]%list_elem_of_singleton. done. }
  destruct (copy_object (S n') fuel Hfuel l (o_kind o) (o_len o) children [] (length h0)
              new h1 [VRef l] [length h0] u l0 0 Hre Hcp1 Hi1 eq_refl Hnew Hknew Hnd Hfresh)
    as (h' & ins' & outs' & l' & oq' & Hres & Hcp' & Hle & Hframe & Hins & Houts
        & Hoq' & Hkind & Holen & Hsame & Hall).
  cbn zeta in *.
  assert (Hpruned : pruned
    = Node (o_kind o)
        (node_len (o_kind o)
           (extend_len 0 (map fst
              (prune_children callback h0 (prune callback h0) l [] children u).1)))
        (prune_children callback h0 (prune callback h0) l [] children u).1).
  { unfold pruned. by rewrite prune_node. }
  destruct (prune_children callback h0 (prune callback h0) l [] children u)
    as [cs u'] eqn:Ecs.
  cbn [fst snd] in *.
  assert (Hh1 : length h1 = S (length h0)).
  { unfold h1. rewrite length_app. cbn. lia. }
  assert (Hnone : ∀ k, assoc k (o_props oq') = None ↔ k ∉ map fst cs).
  { intros k. split.
    - intros Hn Hin. apply list_elem_of_fmap in Hin as ([k1 t1] & -> & Hin).
      rewrite Forall_forall in Hall.
      destruct (Hall _ Hin) as (v1 & Hv1 & _). cbn in Hv1, Hn. congruence.
    - intros Hnin. rewrite (Hsame k Hnin). unfold new.
      by destruct (isArray h0 (VRef l)). }
  exists h', u', l'.
  split.
  { unfold copyObject. cbn [w_heap w_state w_log].
    fold new. fold h1.
    unfold walkObject, bind at 1, gets at 1. cbn [w_heap].
    change (isPlainObject h1 (VRef l) || isArray h1 (VRef l))
      with (is_container h1 (VRef l)).
    rewrite (agrees_container h0 h1 (VRef l) Hag1 Hl), Hc. cbn [negb].
    change (getPath (pathType (Config (VBool true) None VUndefined)) None)
      with (array_acc []).
    change (Config (VBool true) None VUndefined) with copy_config.
    by rewrite Hres. }
  split; [exact (cp_agrees _ _ _ Hcp')|].
  split.
  { rewrite Hpruned. apply represents_node. exists (length h0), oq'.
    split; [done|]. split; [done|]. split; [lia|]. split; [by rewrite Hkind|].
    split; [done|].
    split.
    { intros Ha. rewrite Holen, Hknew, Ha. cbn [node_len].
      unfold new. by destruct (isArray h0 (VRef l)). }
    split; [done|].
    eapply Forall_impl; [apply Hall|]. intros [k1 t1] (v1 & Hv1 & Hrep).
    exists v1. split; [done|]. cbn [snd] in *.
    eapply (represents_frame h0 h' h' (length h1) (length h')); [done|lia|lia|done]. }
  split.
  { intros Htight Hnf. unfold pruned.
    rewrite (prune_full (S n') Htight Hnf _ _ [] u Hre).
    by apply (reify_represents (S n')). }
  intros k Hfalse. unfold Object_keys. rewrite Hoq'. apply assoc_None, Hnone.
  pose proof (prune_children_omits (prune callback h0) l [] children u k Hfalse) as Hk.
  by rewrite Ecs in Hk.
Qed.
End CopyCorrect.

(** ** copyObject on inputs that are not trees *)

(** [o = {}; o.self = o]. *)
Definition cyclic_object : obj := Obj Plain [("self", VRef 0)] 0.

(** On the cyclic object every level of the walk allocates an output
    object and walks into the input again: no amount of fuel lets the walk
    return. *)
Lemma cyclic_walk_never_returns fuel :
  ∀ h ins outs path l0 i q oq,
    h !! 0 = Some cyclic_object →
    indexOf ins (VRef 0) = Some i → outs !! i = Some q → h !! q = Some oq → q ≠ 0 →
    is_returned
      (_walkObject fuel 0 (walkCallback always_true) (array_acc path) copy_config
         (World h (Copier ins outs tt) l0)).1 = false.
Proof.
  induction fuel as [|fuel IH]; intros h ins outs path l0 i q oq Hh Hi Hq Hoq Hq0; [done|].
  cbn [_walkObject]. unfold bind at 1, gets at 1. cbn [w_heap].
  unfold Object_keys. rewrite Hh. cbn [cyclic_object obj_keys o_props map fst forEach].
  unfold bind at 1. rewrite walk_key_array.
  assert (Hget : heap_get h 0 "self" = VRef 0).
  { unfold heap_get. by rewrite Hh. }
  assert (Hcont : is_container h (heap_get h 0 "self") = true).
  { rewrite Hget. unfold is_container, isPlainObject, kind_of. by rewrite Hh. }
  rewrite (walkCallback_container always_true "self" 0 (PathArr path) h ins outs tt
             (VBool true) tt i q oq); [|done..|by intros [_ ?]|done].
  cbn [truthy strictEqual]. cbv zeta.
  set (h1 := <[q := _]> _).
  assert (Hh1 : h1 !! 0 = Some cyclic_object).
  { unfold h1. rewrite list_lookup_insert_ne by done.
    rewrite lookup_app_l; [done|]. by eapply lookup_lt_Some. }
  assert (Hd : descent h1 copy_config 0 "self" = Some 0).
  { rewrite descent_copy. unfold heap_get. rewrite Hh1. cbn.
    unfold is_container, isPlainObject, kind_of. by rewrite Hh1. }
  cbn [truthy]. rewrite Hd.
  match goal with |- context [_walkObject fuel 0 ?cb ?acc ?cfg ?w] =>
    pose proof (IH h1 (ins ++ [heap_get h 0 "self"]) (outs ++ [length h])
                  (path ++ ["self"]) (w_log w) i q
                  (obj_set oq "self" (VRef (length h)))) as Hrec end.
  cbn [w_log] in Hrec.
  destruct (_walkObject fuel 0 _ _ _ _) as [[[]| | |] w'] eqn:E.
  - exfalso. cbn in Hrec.
    assert (true = false); [|done]. apply Hrec; try done.
    + by apply indexOf_app_l.
    + by apply lookup_app_l_Some.
    + unfold h1. apply list_lookup_insert_eq. rewrite length_app.
      apply lookup_lt_Some in Hoq. lia.
  - done.
  - done.
  - done.
Qed.

(** The copy of the cyclic object does not return. *)
Lemma copyObject_cyclic_diverges :
  ¬ ∃ fuel, is_returned (copyObject fuel (VRef 0) always_true (start heap_cyclic tt)).1
            = true.
Proof.
  intros [fuel H].
  pose proof (cyclic_walk_never_returns fuel [cyclic_object; empty_object] [VRef 0] [1] [] []
                0 1 empty_object eq_refl eq_refl eq_refl eq_refl) as Hw.
  unfold copyObject, walkObject, start, bind, gets, heap_cyclic in H. cbn in H.
  change (isArray [Obj Plain [("self", VRef 0)] 0] (VRef 0)) with false in H. cbv iota in H.
  change (isPlainObject [Obj Plain [("self", VRef 0)] 0; empty_object] (VRef 0)) with true in H.
  cbn [orb negb] in H.
  change (getPath VUndefined None) with (array_acc []) in H.
  change (Config (VBool true) None VUndefined) with copy_config in H.
  destruct (_walkObject fuel 0 _ _ _ _) as [[[]| | |] w']; cbn in H, Hw; try done.
  by specialize (Hw ltac:(lia)).
Qed.

(** ** copyObject on trees *)

Ltac solve_heap_ok :=
  split;
  [ let a := fresh "a" in let Ha := fresh "Ha" in let Hin := fresh "Hin" in
    intros a ? ? ? Ha Hin;
    repeat (destruct a as [|a];
            [injection Ha as <-; cbn in Hin;
             repeat (apply elem_of_cons in Hin as [[= -> ->] | Hin]; [cbn; lia || done|]);
             by apply elem_of_nil in Hin|]);
    done
  | solve_keys_nodup
  | let a := fresh "a" in let Ha := fresh "Ha" in let Hk := fresh "Hk" in
    intros a ? Ha Hk;
    repeat (destruct a as [|a];
            [injection Ha as <-;
             first [discriminate Hk | apply (bool_decide_unpack _); vm_compute; exact I]|]);
    done
  | let a := fresh "a" in let Ha := fresh "Ha" in
    intros a ? Ha;
    repeat (destruct a as [|a];
            [injection Ha as <-; apply (bool_decide_unpack _); vm_compute; exact I|]);
    done ].

Lemma heap_ok_heap_abc : heap_ok heap_abc.
Proof. solve_heap_ok. Qed.

Lemma heap_ok_heap_abc2 : heap_ok heap_abc2.
Proof. solve_heap_ok. Qed.

Lemma heap_ok_heap_ab : heap_ok heap_ab.
Proof. solve_heap_ok. Qed.

Lemma heap_ok_heap_shared : heap_ok heap_shared.
Proof. solve_heap_ok. Qed.

Lemma always_true_input_only h0 : input_only always_true h0.
Proof. intros k o p h u _. by exists (VBool true), u. Qed.

Lemma not_a_input_only h0 : input_only not_a h0.
Proof. intros k o p h u _. by exists (VBool (negb (k =? "a")%string)), u. Qed.


(** [{a: {b: 1}, c: [1, 2]}] as a tree. *)
Definition tree_abc : itree :=
  INode 0 Plain 0
    [("a", INode 1 Plain 0 [("b", ILeaf (VNum 1))]);
     ("c", INode 2 Arr 2 [("0", ILeaf (VNum 1)); ("1", ILeaf (VNum 2))])].

(** [JSON.parse('{"__proto__": 1, "x": 2}')]: an object with an own
    property named [__proto__]. *)
Definition heap_proto : heap := [ Obj Plain [("__proto__", VNum 1); ("x", VNum 2)] 0 ].

(** C2, as the code has it.  The input is a plain object or array of a
    well-formed heap whose containers, as the walk reaches them, form a
    finite tree: [reify] returns it and no container occurs in it twice;
    and no object of the heap has an own property named [__proto__]
    ([heap_ok]), which the assignment [outputObject[key] = ...] of the copy
    would hand to the setter of [Object.prototype] instead of storing it.
    The callback returns, leaves the heap alone and answers from the input.
    Then [copyObject] returns, given fuel for the depth of the tree; it
    returns the reference to the object it allocated first, leaves every
    object of the input as it was, and the value returned has the shape
    [prune] computes from the input and the callback: every container of
    it is an object allocated by the copy (it lies at a location that the
    input heap does not have), with the kind of the container it copies,
    and every leaf is the value of the input itself.  With a callback that
    never returns [false], and no array with empty slots at its end, the
    input has that same shape: the copy is equal in value to the input.  A
    key of the input for which the callback returns [false] is not a key
    of the output.  The two examples of the specification follow: the copy
    of [{a: {b: 1}, c: 2}] under [() => true] is [{a: {b: 1}, c: 2}] with
    a new object for [a], and the copy of [{a: {b: 1}}] under
    [key => key !== 'a'] is [{}].  The last run is the copy of an object
    with the own properties [__proto__: 1] and [x: 2] under [() => true]:
    the callback is called for both keys and the copy is [{x: 2}]. *)
Theorem copyObject_copies :
  (∀ U (callback : visitor U) h0 l n fuel t u l0,
     heap_ok h0 → input_only callback h0 →
     is_container h0 (VRef l) = true →
     reify n h0 (VRef l) = Some t →
     NoDup (itree_locs t) →
     n ≤ fuel →
     let pruned := (prune callback h0 t [] u).1 in
     ∃ h' u' l',
       copyObject fuel (VRef l) callback (World h0 u l0)
       = (Returned (VRef (length h0)), World h' u' l')
       ∧ agrees h0 h'
       ∧ represents h0 h' (length h0) (length h') (VRef (length h0)) pruned
       ∧ (tight h0 → never_false callback h0 →
          represents h0 h0 0 (length h0) (VRef l) pruned)
       ∧ (∀ k, (∀ u1, strictEqual (verdict callback h0 k l [] u1).1 (VBool false) = true) →
               k ∉ Object_keys h' (length h0)))
  ∧ (∀ fuel,
       copyObject (S (S fuel)) (VRef 0) always_true (start heap_abc2 tt)
       = (Returned (VRef 2),
          World (heap_abc2 ++ [Obj Plain [("a", VRef 3); ("c", VNum 2)] 0;
                               Obj Plain [("b", VNum 1)] 0])
                tt
                [Event "a" 0 (PathArr []) (VBool false);
                 Event "b" 1 (PathArr ["a"]) (VBool false);
                 Event "c" 0 (PathArr []) (VBool false)]))
  ∧ (∀ fuel,
       copyObject (S fuel) (VRef 0) not_a (start heap_ab tt)
       = (Returned (VRef 2),
          World (heap_ab ++ [Obj Plain [] 0]) tt
                [Event "a" 0 (PathArr []) (VBool true)]))
  ∧ (∀ fuel,
       copyObject (S fuel) (VRef 0) always_true (start heap_proto tt)
       = (Returned (VRef 1),
          World (heap_proto ++ [Obj Plain [("x", VNum 2)] 0]) tt
                [Event "__proto__" 0 (PathArr []) (VBool false);
                 Event "x" 0 (PathArr []) (VBool false)])).
Proof.
  split; [|split; [|split]].
  - intros U callback h0 l n fuel t u l0 Hok Hcb. by apply copyObject_copies_tree.
  - intros fuel. reflexivity.
  - intros fuel. reflexivity.
  - intros fuel. reflexivity.
Qed.

Lemma copyObject_copies_witness :
  heap_ok heap_abc ∧ input_only always_true heap_abc
  ∧ is_container heap_abc (VRef 0) = true
  ∧ reify 3 heap_abc (VRef 0) = Some tree_abc
  ∧ NoDup (itree_locs tree_abc)
  ∧ 3 ≤ 5
  ∧ let pruned := (prune always_true heap_abc tree_abc [] tt).1 in
    ∃ h' u' l',
      copyObject 5 (VRef 0) always_true (World heap_abc tt [])
      = (Returned (VRef (length heap_abc)), World h' u' l')
      ∧ agrees heap_abc h'
      ∧ represents heap_abc h' (length heap_abc) (length h') (VRef (length heap_abc)) pruned
      ∧ (tight heap_abc → never_false always_true heap_abc →
         represents heap_abc heap_abc 0 (length heap_abc) (VRef 0) pruned)
      ∧ (∀ k, (∀ u1, strictEqual (verdict always_true heap_abc k 0 [] u1).1 (VBool false)
                     = true) →
              k ∉ Object_keys h' (length heap_abc)).
Proof.
  assert (Hnd : NoDup (itree_locs tree_abc)).
  { apply (bool_decide_unpack _). vm_compute. exact I. }
  split; [apply heap_ok_heap_abc|]. split; [apply always_true_input_only|].
  split; [reflexivity|]. split; [reflexivity|]. split; [exact Hnd|]. split; [lia|].
  apply (proj1 copyObject_copies unit always_true heap_abc 0 3 5 tree_abc tt []
           heap_ok_heap_abc (always_true_input_only heap_abc) eq_refl eq_refl Hnd).
  lia.
Defined.

(** ** copyObject on a container that occurs twice *)

Section SharedContainer.
Context {U : Type} (callback : visitor U) (h0 : heap).
Context (Hok : heap_ok h0) (Hcb : input_only callback h0) (Hnf : never_false callback h0).

(** An object none of whose properties is a container. *)
Definition leaves_only (oo : obj) : Prop :=
  ∀ k v, (k, v) ∈ o_props oo → is_container h0 v = false.

Definition leaves (o : loc) (ks : list string) : list (string * itree) :=
  map (λ k, (k, ILeaf (heap_get h0 o k))) ks.

Lemma children_locs_leaves o ks : children_locs (leaves o ks) = [].
Proof. induction ks as [|k ks IH]; [done|]. apply IH. Qed.

Lemma leaves_reified o oo ks :
  h0 !! o = Some oo → leaves_only oo → ks ⊆ obj_keys oo →
  Forall2 (λ k kt, kt.1 = k ∧ reify 0 h0 (heap_get h0 o k) = Some kt.2) ks (leaves o ks).
Proof.
  intros Ho Hleaves. induction ks as [|k ks IH]; intros Hsub; [constructor|].
  cbn. constructor.
  - split; [done|]. cbn.
    destruct (elem_of_keys_assoc k (o_props oo)) as (v & Hv & Hin).
    { apply Hsub. left. }
    assert (Hget : heap_get h0 o k = v).
    { unfold heap_get, obj_get. by rewrite Ho, Hv. }
    by rewrite Hget, (Hleaves k v Hin).
  - apply IH. intros k' Hk'. apply Hsub. by right.
Qed.

Lemma prune_leaves o path ks u :
  (prune_children callback h0 (prune callback h0) o path (leaves o ks) u).1
  = map (λ k, (k, Leaf (heap_get h0 o k))) ks.
Proof.
  revert u. induction ks as [|k ks IH]; intros u; [done|].
  cbn [leaves map prune_children].
  pose proof (Hnf k o path u) as Hr.
  destruct (verdict callback h0 k o path u) as [r u1]. cbn [fst] in Hr. rewrite Hr.
  cbn [prune]. specialize (IH u1). fold (leaves o ks).
  destruct (prune_children callback h0 (prune callback h0) o path (leaves o ks) u1)
    as [rest u3].
  cbn [fst] in *. by rewrite IH.
Qed.

(** The walk of an object that holds leaves only writes every property of
    it into the output object that the table gives for its reference, and
    touches nothing else. *)
Lemma copy_leaves fuel o oo path q oq h ins outs u l0 i :
  h0 !! o = Some oo → leaves_only oo →
  copying h0 h ins outs →
  indexOf ins (VRef o) = Some i → outs !! i = Some q → h !! q = Some oq →
  o_kind oq = o_kind oo →
  ∃ h' u' l' oq',
    _walkObject (S fuel) o (walkCallback callback) (array_acc path) copy_config
      (World h (Copier ins outs u) l0)
    = (Returned tt, World h' (Copier ins outs u') l')
    ∧ copying h0 h' ins outs
    ∧ length h ≤ length h'
    ∧ (∀ c, c < length h → c ≠ q → h' !! c = h !! c)
    ∧ h' !! q = Some oq' ∧ o_kind oq' = o_kind oq
    ∧ (∀ k, k ∈ obj_keys oo → assoc k (o_props oq') = assoc k (o_props oo))
    ∧ (∀ k, k ∉ obj_keys oo → assoc k (o_props oq') = assoc k (o_props oq)).
Proof.
  intros Ho Hleaves Hcp Hi Hq Hoq Hkind.
  cbn [_walkObject]. unfold bind at 1, gets at 1. cbn [w_heap].
  assert (Hkeys : Object_keys h o = obj_keys oo).
  { unfold Object_keys. destruct (cp_agrees _ _ _ _ Hcp) as [_ Hag].
    by rewrite (Hag o (lookup_lt_Some _ _ _ Ho)), Ho. }
  rewrite Hkeys.
  assert (Hnd : NoDup (obj_keys oo)).
  { pose proof (ok_nodup _ Hok o) as Hnd. unfold Object_keys in Hnd. by rewrite Ho in Hnd. }
  destruct (copy_children callback h0 Hcb fuel 0 (copy_object callback h0 Hok Hcb 0 fuel
              ltac:(lia)) (leaves o (obj_keys oo)) (obj_keys oo) o oo path q oq
              h ins outs u l0 i Ho (leaves_reified o oo _ Ho Hleaves (λ _ H, H)) Hnd)
    as (h' & ins' & outs' & l' & oq' & Hres & Hcp' & Hle & Hframe & (ex & -> & Hex)
        & (ex' & ->) & Hoq' & Hkind' & _ & Hsame & Hall); try done.
  - apply (ok_proto _ Hok o oo Ho).
  - intros Harr. apply (ok_length _ Hok o oo Ho). congruence.
  - intros k Hk. by apply (children_value_ok h0 Hok o oo k).
  - rewrite children_locs_leaves. constructor.
  - intros d Hd. rewrite children_locs_leaves in Hd. by apply elem_of_nil in Hd.
  - cbn zeta in *. rewrite prune_leaves in Hsame, Hall.
    assert (ex = []) as ->.
    { destruct ex as [|v ex]; [done|]. destruct (Hex v) as (d & Hd & _); [left|].
      rewrite children_locs_leaves in Hd. by apply elem_of_nil in Hd. }
    assert (ex' = []) as ->.
    { pose proof (cp_len _ _ _ _ Hcp') as H1. pose proof (cp_len _ _ _ _ Hcp) as H2.
      rewrite !length_app in H1. cbn in H1. destruct ex'; [done|]. cbn in H1. lia. }
    rewrite !app_nil_r in *.
    exists h', (prune_children callback h0 (prune callback h0) o path
                  (leaves o (obj_keys oo)) u).2, l', oq'.
    split; [done|]. split; [done|]. split; [done|]. split; [done|].
    split; [done|]. split; [done|].
    assert (Hmap : map fst (map (λ k, (k, Leaf (heap_get h0 o k))) (obj_keys oo))
                   = obj_keys oo).
    { rewrite map_map. cbn. apply map_id. }
    rewrite Hmap in Hsame.
    split; [|done].
    intros k Hk. rewrite Forall_forall in Hall.
    destruct (Hall (k, Leaf (heap_get h0 o k))) as (v' & Hv' & Hrep).
    { apply list_elem_of_fmap. by exists k. }
    cbn in Hv', Hrep. destruct Hrep as [-> _]. rewrite Hv'.
    destruct (elem_of_keys_assoc k (o_props oo) Hk) as (v & Hv & _).
    unfold heap_get, obj_get. by rewrite Ho, Hv.
Qed.

Lemma copyObject_shared r o kr lr k1 k2 oo fuel u l0 :
  h0 !! r = Some (Obj kr [(k1, VRef o); (k2, VRef o)] lr) →
  is_container h0 (VRef r) = true →
  h0 !! o = Some oo → is_container h0 (VRef o) = true → leaves_only oo →
  ∃ h' u' l' oroot c1 c2 o1 o2,
    copyObject (S (S fuel)) (VRef r) callback (World h0 u l0)
    = (Returned (VRef (length h0)), World h' u' l')
    ∧ h' !! length h0 = Some oroot
    ∧ assoc k1 (o_props oroot) = Some (VRef c1)
    ∧ assoc k2 (o_props oroot) = Some (VRef c2)
    ∧ c1 ≠ c2 ∧ length h0 < c1 ∧ length h0 < c2
    ∧ h' !! c1 = Some o1 ∧ h' !! c2 = Some o2
    ∧ o_kind o1 = o_kind oo ∧ o_kind o2 = o_kind oo
    ∧ (∀ k, assoc k (o_props o1) = assoc k (o_props oo))
    ∧ o_props o2 = [].
Proof.
  intros Hr Hcr Ho Hco Hleaves.
  assert (Hro : r ≠ o).
  { intros ->. rewrite Hr in Ho. injection Ho as <-.
    specialize (Hleaves k1 (VRef o) ltac:(left)). congruence. }
  assert (Hk12 : k1 ≠ k2).
  { pose proof (ok_nodup _ Hok r) as Hnd. unfold Object_keys in Hnd. rewrite Hr in Hnd.
    cbn in Hnd. apply NoDup_cons in Hnd as [Hnin _]. intros ->. apply Hnin. left. }
  destruct (container_kind h0 r _ Hr Hcr) as [Hner Harr_r]. cbn [o_kind] in Hner, Harr_r.
  destruct (container_kind h0 o _ Ho Hco) as [Hneo Harr_o].
  pose proof (lookup_lt_Some _ _ _ Hr) as Hrb.
  pose proof (lookup_lt_Some _ _ _ Ho) as Hob.
  assert (Hklen : ∀ k, k ∈ [k1; k2] → ¬ (kr = Arr ∧ k = "length")).
  { intros k Hk [Ha ->]. by apply (ok_length _ Hok r _ Hr Ha). }
  assert (Hkproto : ∀ k, k ∈ [k1; k2] → k ≠ "__proto__").
  { intros k Hk ->. by apply (ok_proto _ Hok r _ Hr). }
  set (new := if isArray h0 (VRef r) then empty_array else empty_object).
  assert (Hknew : o_kind new = kr).
  { unfold new. rewrite Harr_r. by destruct kr. }
  set (h1 := h0 ++ [new]).
  assert (Hag1 : agrees h0 h1) by (apply agrees_alloc, agrees_refl).
  assert (Hnew : h1 !! length h0 = Some new).
  { unfold h1. rewrite lookup_app_r by lia. by rewrite Nat.sub_diag. }
  assert (Hh1 : length h1 = S (length h0)).
  { unfold h1. rewrite length_app. cbn. lia. }
  assert (Hget0 : ∀ k, k ∈ [k1; k2] → heap_get h0 r k = VRef o).
  { intros k Hk. unfold heap_get, obj_get. rewrite Hr. cbn.
    apply elem_of_cons in Hk as [-> | Hk]; [by rewrite String.eqb_refl|].
    apply list_elem_of_singleton in Hk as ->. rewrite String.eqb_refl.
    by destruct (k2 =? k1)%string. }
  assert (Hverdict : ∀ k p path h u0, agrees h0 h →
            ∃ r1 u1, callback k p (PathArr path) (h, u0) = (Returned r1, (h, u1))
                     ∧ strictEqual r1 (VBool false) = false).
  { intros k p path h u0 Hag. destruct (Hcb k p (PathArr path) h u0 Hag) as (r1 & u1 & H1 & H2).
    exists r1, u1. split; [done|]. pose proof (Hnf k p path u0) as Hx.
    unfold verdict in Hx. by rewrite H2 in Hx. }
  (* the first key *)
  destruct (Hverdict k1 r [] h1 u Hag1) as (r1 & u1 & Hrun1 & Hr1).
  assert (Hget1 : heap_get h1 r k1 = VRef o).
  { rewrite (agrees_heap_get h0 h1 r k1 Hag1 Hrb). apply Hget0. left. }
  assert (Hstep1 := walkCallback_container callback k1 r (PathArr []) h1 [VRef r]
                      [length h0] u r1 u1 0 (length h0) new Hrun1 Hr1).
  rewrite Hget1 in Hstep1.
  assert (Hself : ∀ a, strictEqual (VRef a) (VRef a) = true).
  { intros a. unfold strictEqual. by rewrite bool_decide_eq_true_2. }
  assert (Hother : strictEqual (VRef r) (VRef o) = false).
  { unfold strictEqual. rewrite bool_decide_eq_false_2; [done|]. intros [_ [= ?]] || intros [= ?]; done. }
  assert (Hcont : ∀ h, agrees h0 h → is_container h (VRef o) = true).
  { intros h Hag. by rewrite (agrees_container h0 h (VRef o) Hag Hob). }
  assert (Hempty : ∀ h, agrees h0 h →
            o_kind (if isArray h (VRef o) then empty_array else empty_object) = o_kind oo).
  { intros h Hag. rewrite (agrees_isArray h0 h (VRef o) Hag Hob), Harr_o.
    by destruct (o_kind oo). }
  specialize (Hstep1 ltac:(by cbn [indexOf]; rewrite Hself) eq_refl Hnew
                ltac:(apply Hkproto; left)
                ltac:(rewrite Hknew; apply Hklen; left) (Hcont h1 Hag1)).
  set (new1 := if isArray h1 (VRef o) then empty_array else empty_object) in *.
  set (c1 := length h1) in *.
  set (root1 := obj_set new k1 (VRef c1)) in *.
  set (h2 := <[length h0 := root1]> (h1 ++ [new1])) in *.
  assert (Hh2 : length h2 = S (S (length h0))).
  { unfold h2. rewrite length_insert, length_app. cbn. lia. }
  assert (Hag2 : agrees h0 h2).
  { apply agrees_insert; [by apply agrees_alloc | lia]. }
  assert (Hcp2 : copying h0 h2 [VRef r; VRef o] [length h0; c1]).
  { split; [done | done |]. intros i q Hq. rewrite Hh2.
    destruct i as [|[|i]]; cbn in Hq; [injection Hq as <- .. | done]; unfold c1; lia. }
  assert (Hi2 : indexOf [VRef r; VRef o] (VRef o) = Some 1).
  { cbn [indexOf]. by rewrite Hother, Hself. }
  assert (Hq2 : h2 !! c1 = Some new1).
  { unfold h2. rewrite list_lookup_insert_ne by (unfold c1; lia).
    rewrite lookup_app_r by (unfold c1; lia). by rewrite Nat.sub_diag. }
  destruct (copy_leaves fuel o oo ([] ++ [k1]) c1 new1 h2 [VRef r; VRef o] [length h0; c1]
              u1 (l0 ++ [Event k1 r (PathArr []) (VBool false)]) 1 Ho Hleaves Hcp2 Hi2
              eq_refl Hq2 (Hempty h1 Hag1))
    as (h3 & u3 & l3 & oq3 & Hres3 & Hcp3 & Hle3 & Hframe3 & Hoq3 & Hkind3 & Hin3 & Hout3).
  (* the second key *)
  pose proof (cp_agrees _ _ _ _ Hcp3) as Hag3.
  assert (Hroot3 : h3 !! length h0 = Some root1).
  { rewrite Hframe3 by (unfold c1; lia). unfold h2. apply list_lookup_insert_eq.
    rewrite length_app. lia. }
  destruct (Hverdict k2 r [] h3 u3 Hag3) as (r2 & u4 & Hrun2 & Hr2).
  assert (Hget2 : heap_get h3 r k2 = VRef o).
  { rewrite (agrees_heap_get h0 h3 r k2 Hag3 Hrb). apply Hget0. right. left. }
  assert (Hstep2 := walkCallback_container callback k2 r (PathArr []) h3 [VRef r; VRef o]
                      [length h0; c1] u3 r2 u4 0 (length h0) root1 Hrun2 Hr2).
  rewrite Hget2 in Hstep2.
  specialize (Hstep2 ltac:(by cbn [indexOf]; rewrite Hself) eq_refl Hroot3
                ltac:(apply Hkproto; right; left)
                ltac:(unfold root1; cbn [obj_set o_kind]; rewrite Hknew; apply Hklen;
                      right; left)
                (Hcont h3 Hag3)).
  set (new2 := if isArray h3 (VRef o) then empty_array else empty_object) in *.
  set (c2 := length h3) in *.
  set (root2 := obj_set root1 k2 (VRef c2)) in *.
  set (h4 := <[length h0 := root2]> (h3 ++ [new2])) in *.
  assert (Hh4 : length h4 = S c2).
  { unfold h4. rewrite length_insert, length_app. cbn. unfold c2. lia. }
  assert (Hag4 : agrees h0 h4).
  { apply agrees_insert; [by apply agrees_alloc | lia]. }
  assert (Hcp4 : copying h0 h4 ([VRef r; VRef o] ++ [VRef o]) ([length h0; c1] ++ [c2])).
  { split; [done | done |]. intros i q Hq. rewrite Hh4.
    destruct i as [|[|[|i]]]; cbn in Hq; [injection Hq as <- .. | done];
      unfold c1, c2 in *; lia. }
  assert (Hi4 : indexOf ([VRef r; VRef o] ++ [VRef o]) (VRef o) = Some 1).
  { by apply indexOf_app_l. }
  assert (Hq4 : h4 !! c1 = Some oq3).
  { unfold h4. rewrite list_lookup_insert_ne by (unfold c1; lia).
    rewrite lookup_app_l; [done|]. unfold c1. lia. }
  destruct (copy_leaves fuel o oo ([] ++ [k2]) c1 oq3 h4 _ _
              u4 (l3 ++ [Event k2 r (PathArr []) (VBool false)]) 1 Ho Hleaves Hcp4 Hi4
              eq_refl Hq4 ltac:(by rewrite Hkind3; apply (Hempty h1 Hag1)))
    as (h5 & u5 & l5 & oq5 & Hres5 & Hcp5 & Hle5 & Hframe5 & Hoq5 & Hkind5 & Hin5 & Hout5).
  exists h5, u5, l5, root2, c1, c2, oq5, new2.
  split.
  { assert (Hkeys : ∀ h, agrees h0 h → Object_keys h r = [k1; k2]).
    { intros h [_ Hag]. unfold Object_keys. by rewrite (Hag r Hrb), Hr. }
    assert (Hd : ∀ h k, agrees h0 h → k ∈ [k1; k2] → descent h copy_config r k = Some o).
    { intros h k Hag Hk. rewrite descent_copy, (agrees_heap_get h0 h r k Hag Hrb).
      by rewrite (Hget0 k Hk), (Hcont h Hag). }
    unfold copyObject. cbn [w_heap w_state w_log]. fold new. fold h1.
    unfold walkObject, bind at 1, gets at 1. cbn [w_heap].
    change (isPlainObject h1 (VRef r) || isArray h1 (VRef r))
      with (is_container h1 (VRef r)).
    rewrite (agrees_container h0 h1 (VRef r) Hag1 Hrb), Hcr. cbn [negb].
    change (getPath (pathType (Config (VBool true) None VUndefined)) None)
      with (array_acc []).
    change (Config (VBool true) None VUndefined) with copy_config.
    cbn [_walkObject]. unfold bind at 1, gets at 1. cbn [w_heap].
    rewrite (Hkeys h1 Hag1). cbn [forEach].
    unfold bind at 1. rewrite walk_key_array, Hstep1. cbn [truthy]. cbv zeta.
    rewrite (Hd h2 k1 Hag2 ltac:(left)). cbv beta.
    cbn [_walkObject] in Hres3, Hres5.
    cbn [app] in Hres3, Hres5, Hstep2 |- *. rewrite Hres3.
    unfold bind at 1. rewrite walk_key_array, Hstep2. cbn [truthy]. cbv zeta.
    rewrite (Hd h4 k2 Hag4 ltac:(right; left)). cbv beta. cbn [app].
    by rewrite Hres5. }
  assert (Hc12 : c1 < c2) by (unfold c1, c2; lia).
  assert (Hroot5 : h5 !! length h0 = Some root2).
  { rewrite Hframe5 by lia. unfold h4. apply list_lookup_insert_eq.
    rewrite length_app. lia. }
  split; [done|].
  split.
  { unfold root2, root1. cbn [obj_set o_props]. rewrite !assoc_props_set.
    rewrite String.eqb_refl. by destruct (String.eqb_spec k1 k2). }
  split.
  { unfold root2. cbn [obj_set o_props]. rewrite assoc_props_set.
    by rewrite String.eqb_refl. }
  split; [lia|]. split; [unfold c1; lia|]. split; [unfold c1 in Hc12; lia|].
  split; [done|].
  split.
  { rewrite Hframe5 by lia. unfold h4. rewrite list_lookup_insert_ne by (unfold c2; lia).
    rewrite lookup_app_r by (unfold c2; lia). by rewrite Nat.sub_diag. }
  split; [by rewrite Hkind5, Hkind3; apply (Hempty h1 Hag1)|].
  split; [by apply (Hempty h3 Hag3)|].
  split; [|unfold new2; by destruct (isArray h3 (VRef o))].
  intros k. destruct (decide (k ∈ obj_keys oo)) as [Hk | Hk]; [by apply Hin5|].
  rewrite (Hout5 k Hk), (Hout3 k Hk).
  apply assoc_None in Hk. rewrite Hk. unfold new1. by destruct (isArray h1 (VRef o)).
Qed.
End SharedContainer.

(** *** An invariant of the heap and the visitor state over a walk *)

Section WorldInvariant.
Context {St : Type} (callback : visitor St) (cfg : config).
Context (I : heap * St → Prop).
Context (HI : ∀ k o p σ, I σ → I (callback k o p σ).2).

Definition holds (w : world St) : Prop := I (w_heap w, w_state w).

Lemma forEach_holds (f : string → M (world St) unit) ks :
  (∀ k w, holds w → holds (f k w).2) → ∀ w, holds w → holds (forEach ks f w).2.
Proof.
  intros Hf. induction ks as [|k ks IH]; intros w Hw; [done|].
  cbn [forEach]. unfold bind. specialize (Hf k w Hw).
  destruct (f k w) as [[[]| | |] w1]; cbn [snd] in Hf |- *; try done.
  by apply IH.
Qed.

Lemma walk_key_holds recurse o acc k :
  (∀ l next w, holds w → holds (recurse l next w).2) →
  ∀ w, holds w → holds (walk_key recurse o callback acc cfg k w).2.
Proof.
  intros Hrec w Hw.
  unfold walk_key, bind, lift_outcome, call, gets, ret.
  destruct (getPath_get acc (w_heap w) o k) as [p| | |]; try done.
  pose proof (HI k o p (w_heap w, w_state w) Hw) as Hσ.
  destruct (callback k o p (w_heap w, w_state w)) as [[r| | |] [h' s']];
    cbn [snd] in Hσ |- *; try done.
  destruct (truthy r); [done|]. cbn [w_heap].
  destruct (isPlainObject _ _ || doArrayWalk _ _ _ _ _); [|done].
  destruct (heap_get h' o k) as [| | | | | |d]; try done.
  cbn [w_heap].
  destruct (getPath_set acc h' o k) as [next| | |]; try done.
  by apply Hrec.
Qed.

Lemma _walkObject_holds fuel :
  ∀ o acc w, holds w → holds (_walkObject fuel o callback acc cfg w).2.
Proof.
  induction fuel as [|fuel IH]; intros o acc w Hw; [done|].
  cbn [_walkObject]. unfold bind at 1, gets at 1.
  apply forEach_holds; [|done]. intros k w' Hw'. by apply walk_key_holds.
Qed.
End WorldInvariant.

(** *** The table of the copy, for every input *)

(** [indexOf] finds the first index that holds the value. *)
Lemma indexOf_first xs x i :
  indexOf xs x = Some i →
  xs !! i = Some x ∧ x ≠ VNaN
  ∧ ∀ i', i' < i → xs !! i' ≠ Some x.
Proof.
  revert i. induction xs as [|y xs IH]; intros i; cbn [indexOf]; [done|].
  destruct (strictEqual y x) eqn:E.
  - intros [= <-]. apply strictEqual_true in E as [-> Hn].
    split; [done|]. split; [done|]. intros i' Hi'. lia.
  - destruct (indexOf xs x) as [j|] eqn:Ej; [|done]. cbn. intros [= <-].
    destruct (IH j eq_refl) as (Hj & Hn & Hfirst).
    split; [done|]. split; [done|].
    intros [|i'] Hi'; cbn.
    + intros [= ->]. assert (strictEqual x x = true) by (by apply strictEqual_true).
      congruence.
    + apply Hfirst. lia.
Qed.

(** An assignment to an object of the copy leaves the walk in step with
    the table. *)
Lemma assign_copying h0 q k v h ins outs :
  copying h0 h ins outs → length h0 ≤ q →
  copying h0 (assign q k v h).2 ins outs.
Proof.
  intros [Hag Hlen Houts] Hq.
  destruct (assign_frame q k v h) as [Hl Hframe].
  split; [|done|].
  - destruct Hag as [Hle Hag]. split; [lia|].
    intros l Hl0. rewrite Hframe by lia. by apply Hag.
  - intros i q' Hq'. rewrite Hl. by apply (Houts i).
Qed.

Section Table.
Context {U : Type} (callback : visitor U) (h0 : heap).
Context (Hcb : input_only callback h0).

(** The input registered at the index [j] was registered before, at a
    smaller index: [j] is not the index that [indexOf] finds. *)
Definition later_occurrence (ins : list value) (j : nat) : Prop :=
  ∃ i v, i < j ∧ ins !! i = Some v ∧ ins !! j = Some v.

(** The state of the table during a copy: it starts with the input and
    its output object; the output objects are objects of the copy, all
    different; and the output object registered for a later occurrence of
    an input is as it was allocated, empty. *)
Record tabled (input : value) (h : heap) (ins : list value) (outs : list loc)
  : Prop := {
  tb_copying : copying h0 h ins outs;
  tb_head : ins !! 0 = Some input ∧ outs !! 0 = Some (length h0);
  tb_nodup : NoDup outs;
  tb_empty : ∀ j q, later_occurrence ins j → outs !! j = Some q →
               h !! q = Some empty_object ∨ h !! q = Some empty_array
}.

Definition tabled_state (input : value) (σ : heap * copier U) : Prop :=
  tabled input σ.1 (inputObjects σ.2) (outputObjects σ.2).

(** Writing into the output object of the index that [indexOf] finds
    keeps the table. *)
Lemma assign_tabled input h ins outs p i q k v :
  tabled input h ins outs →
  indexOf ins (VRef p) = Some i → outs !! i = Some q →
  tabled input (assign q k v h).2 ins outs.
Proof.
  intros [Hcp Hhead Hnd Hempty] Hi Hq.
  destruct (cp_outs _ _ _ _ Hcp i q Hq) as [Hq0 _].
  destruct (assign_frame q k v h) as [Hl Hframe].
  split; [by apply assign_copying | done | done |].
  intros j qj Hlater Hqj.
  assert (Hne : qj ≠ q).
  { intros ->. assert (j = i) as -> by (by eapply NoDup_lookup).
    destruct Hlater as (i' & v' & Hlt & Hi' & Hv').
    destruct (indexOf_first _ _ _ Hi) as (Hfound & _ & Hfirst).
    apply (Hfirst i' Hlt). congruence. }
  rewrite (Hframe qj Hne). by apply (Hempty j).
Qed.

(** Registering a new container keeps the table. *)
Lemma push_tabled input h ins outs v new :
  tabled input h ins outs → new = empty_object ∨ new = empty_array →
  tabled input (h ++ [new]) (ins ++ [v]) (outs ++ [length h]).
Proof.
  intros [Hcp Hhead Hnd Hempty] Hnew.
  pose proof Hcp as [Hag Hlen Houts].
  split.
  - split; [by apply agrees_alloc | rewrite !length_app; cbn; lia |].
    intros i q Hq. rewrite length_app. cbn.
    apply lookup_app_Some in Hq as [Hq | [_ Hq]].
    + specialize (Houts i q Hq). lia.
    + apply list_lookup_singleton_Some in Hq as [_ <-]. destruct Hag. lia.
  - destruct Hhead as [H1 H2]. split; by apply lookup_app_l_Some.
  - apply NoDup_app. split; [done|]. split; [|apply NoDup_singleton].
    intros q (i & Hq)%list_elem_of_lookup ->%list_elem_of_singleton.
    specialize (Houts i _ Hq). lia.
  - intros j q (i & v' & Hlt & Hi & Hj) Hq.
    apply lookup_app_Some in Hq as [Hq | [Hge Hq]].
    + pose proof (lookup_lt_Some _ _ _ Hq) as Hjl.
      rewrite lookup_app_l in Hj by lia. rewrite lookup_app_l in Hi by lia.
      rewrite lookup_app_l by (specialize (Houts j q Hq); lia).
      apply (Hempty j q); [|done]. by exists i, v'.
    + apply list_lookup_singleton_Some in Hq as [_ <-].
      rewrite lookup_app_r by lia. rewrite Nat.sub_diag. cbn.
      destruct Hnew as [-> | ->]; [by left | by right].
Qed.

Lemma walkCallback_tabled input k o p σ :
  tabled_state input σ → tabled_state input (walkCallback callback k o p σ).2.
Proof.
  destruct σ as [h [ins outs u]]. unfold tabled_state.
  cbn [fst snd inputObjects outputObjects].
  intros Htb. pose proof (cp_agrees _ _ _ _ (tb_copying _ _ _ _ Htb)) as Hag.
  destruct (Hcb k o p h u Hag) as (r & u1 & Hrun & _).
  unfold walkCallback, bind, call_user, gets, on_heap, ret, push, modify, alloc, throw.
  cbn [user inputObjects outputObjects]. rewrite Hrun.
  destruct (strictEqual r (VBool false)); [done|].
  cbn -[isPlainObject isArray heap_get assign indexOf].
  destruct (isPlainObject h (heap_get h o k) || _).
  - set (new := if (if isPlainObject h (heap_get h o k) then false
                    else isArray h (heap_get h o k)) then empty_array else empty_object).
    assert (Htb1 : tabled input (h ++ [new]) (ins ++ [heap_get h o k])
                    (outs ++ [length h])).
    { apply push_tabled; [done|]. unfold new.
      destruct (if isPlainObject _ _ then _ else _); [by right | by left]. }
    destruct (indexOf ins (VRef o)) as [i|] eqn:Ei; [|done]. cbn [mbind option_bind].
    destruct (outs !! i) as [q|] eqn:Eq; [|done].
    pose proof (assign_tabled input (h ++ [new]) _ _ o i q k (VRef (length h)) Htb1
                  (indexOf_app_l _ _ _ _ Ei) (lookup_app_l_Some _ _ _ _ Eq)) as Htb2.
    by destruct (assign q k (VRef (length h)) (h ++ [new])) as [[[]| | |] h3].
  - destruct (indexOf ins (VRef o)) as [i|] eqn:Ei; [|done]. cbn [mbind option_bind].
    destruct (outs !! i) as [q|] eqn:Eq; [|done].
    pose proof (assign_tabled input h _ _ o i q k (heap_get h o k) Htb Ei Eq) as Htb2.
    by destruct (assign q k (heap_get h o k) h) as [[[]| | |] h3].
Qed.

(** The table at the end of the walk that [copyObject] starts. *)
Lemma copy_walk_tabled input fuel u l0 :
  let new := if isArray h0 input then empty_array else empty_object in
  holds (tabled_state input)
    (walkObject fuel input (walkCallback callback) copy_config
       (World (h0 ++ [new]) (Copier [input] [length h0] u) l0)).2.
Proof.
  intros new.
  assert (Htb1 : holds (tabled_state input)
                    (World (h0 ++ [new]) (Copier [input] [length h0] u) l0)).
  { unfold holds, tabled_state. cbn [fst snd w_heap w_state inputObjects outputObjects].
    split.
    - split; [apply agrees_alloc, agrees_refl | done |].
      intros i q Hq. rewrite length_app. cbn.
      apply list_lookup_singleton_Some in Hq as [_ <-]. lia.
    - done.
    - apply NoDup_singleton.
    - intros j q (i & v & Hlt & Hi & Hj) _.
      apply list_lookup_singleton_Some in Hj as [-> _]. lia. }
  unfold walkObject, bind at 1, gets at 1. cbn [w_heap].
  destruct (negb _); [exact Htb1|].
  destruct input as [| | | | | |l]; try exact Htb1.
  exact (_walkObject_holds (walkCallback callback) copy_config (tabled_state (VRef l))
           (walkCallback_tabled (VRef l)) fuel l (getPath (pathType copy_config) None)
           (World (h0 ++ [new]) (Copier [VRef l] [length h0] u) l0) Htb1).
Qed.
End Table.

(** [o = {x: {y: 1}}] at 1 and [{a: o, n: 5, b: o}] at 0. *)
Definition heap_shared_nested : heap :=
  [ Obj Plain [("a", VRef 1); ("n", VNum 5); ("b", VRef 1)] 0;
    Obj Plain [("x", VRef 2)] 0;
    Obj Plain [("y", VNum 1)] 0 ].

(** C10: a container that occurs more than once in the input.  The
    table of the copy pairs every input container with an output object,
    and [indexOf] looks an input up by identity, at the first index that
    holds it (first part).  At every key that holds a plain object or an
    array, and for which the callback did not return [false], one step
    of the copy allocates a new empty object or array, registers the
    input value with it at the end of the table, and assigns it to that
    key of the output object that the table gives for the parent; at a
    key that holds any other value, the value is assigned to that key of
    the output object that the table gives for the parent (second and
    third part; the key is not [__proto__] nor the [length] of an
    array).  For every input, a tree or not, every callback that only
    reads, and however the walk ends (fourth part): the output objects
    in the table are objects of the copy and all different, and the
    output object registered for an occurrence of an input container
    that is not its first one is empty.  So the children found on every
    walk of a shared container go to the output object of its first
    occurrence.  For an input with two keys [k1] and [k2] that hold the
    same container of leaves (fifth part): the copy returns; its output
    has two different new objects under [k1] and [k2], the one under
    [k1] with every property of the shared container and the one under
    [k2] with none.  The runs: [{a: o, b: o}] with [o = {x: 1}] is
    copied to [{a: {x: 1}, b: {}}]; and [{a: o, n: 5, b: o}] with
    [o = {x: {y: 1}}] is copied to [{a: {x: {}}, n: 5, b: {}}], where
    the second walk of [o] has put a new empty object under [x] of the
    first output object, and [y] went both times to the object first
    registered for [{y: 1}], which the output no longer holds. *)
Theorem shared_container_copied_once :
  (∀ ins x i,
     indexOf ins x = Some i →
     ins !! i = Some x ∧ x ≠ VNaN ∧ ∀ i', i' < i → ins !! i' ≠ Some x)
  ∧ (∀ U (callback : visitor U) k p path h ins outs u r u' i q oq,
       callback k p path (h, u) = (Returned r, (h, u')) →
       strictEqual r (VBool false) = false →
       indexOf ins (VRef p) = Some i → outs !! i = Some q → h !! q = Some oq →
       k ≠ "__proto__" → ¬ (o_kind oq = Arr ∧ k = "length") →
       is_container h (heap_get h p k) = true →
       walkCallback callback k p path (h, Copier ins outs u)
       = (Returned (VBool false),
          (<[q := obj_set oq k (VRef (length h))]>
             (h ++ [if isArray h (heap_get h p k) then empty_array else empty_object]),
           Copier (ins ++ [heap_get h p k]) (outs ++ [length h]) u')))
  ∧ (∀ U (callback : visitor U) k p path h ins outs u r u' i q oq,
       callback k p path (h, u) = (Returned r, (h, u')) →
       strictEqual r (VBool false) = false →
       indexOf ins (VRef p) = Some i → outs !! i = Some q → h !! q = Some oq →
       k ≠ "__proto__" → ¬ (o_kind oq = Arr ∧ k = "length") →
       is_container h (heap_get h p k) = false →
       walkCallback callback k p path (h, Copier ins outs u)
       = (Returned (VBool false),
          (<[q := obj_set oq k (heap_get h p k)]> h, Copier ins outs u')))
  ∧ (∀ U (callback : visitor U) h0 fuel input u l0,
       input_only callback h0 →
       let new := if isArray h0 input then empty_array else empty_object in
       let res := walkObject fuel input (walkCallback callback) copy_config
                    (World (h0 ++ [new]) (Copier [input] [length h0] u) l0) in
       let h' := w_heap res.2 in
       let ins := inputObjects (w_state res.2) in
       let outs := outputObjects (w_state res.2) in
       w_heap (copyObject fuel input callback (World h0 u l0)).2 = h'
       ∧ ins !! 0 = Some input ∧ outs !! 0 = Some (length h0)
       ∧ length ins = length outs
       ∧ NoDup outs
       ∧ (∀ j q, outs !! j = Some q → length h0 ≤ q < length h')
       ∧ (∀ i j v q, i < j → ins !! i = Some v → ins !! j = Some v →
            outs !! j = Some q →
            h' !! q = Some empty_object ∨ h' !! q = Some empty_array))
  ∧ (∀ U (callback : visitor U) h0 r o kr lr k1 k2 oo fuel u l0,
       heap_ok h0 → input_only callback h0 → never_false callback h0 →
       h0 !! r = Some (Obj kr [(k1, VRef o); (k2, VRef o)] lr) →
       is_container h0 (VRef r) = true →
       h0 !! o = Some oo → is_container h0 (VRef o) = true → leaves_only h0 oo →
       ∃ h' u' l' oroot c1 c2 o1 o2,
         copyObject (S (S fuel)) (VRef r) callback (World h0 u l0)
         = (Returned (VRef (length h0)), World h' u' l')
         ∧ h' !! length h0 = Some oroot
         ∧ assoc k1 (o_props oroot) = Some (VRef c1)
         ∧ assoc k2 (o_props oroot) = Some (VRef c2)
         ∧ c1 ≠ c2 ∧ length h0 < c1 ∧ length h0 < c2
         ∧ h' !! c1 = Some o1 ∧ h' !! c2 = Some o2
         ∧ o_kind o1 = o_kind oo ∧ o_kind o2 = o_kind oo
         ∧ (∀ k, assoc k (o_props o1) = assoc k (o_props oo))
         ∧ o_props o2 = [])
  ∧ (∀ fuel,
       copyObject (S (S fuel)) (VRef 0) always_true (start heap_shared tt)
       = (Returned (VRef 2),
          World (heap_shared ++ [Obj Plain [("a", VRef 3); ("b", VRef 4)] 0;
                                 Obj Plain [("x", VNum 1)] 0;
                                 Obj Plain [] 0])
                tt
                [Event "a" 0 (PathArr []) (VBool false);
                 Event "x" 1 (PathArr ["a"]) (VBool false);
                 Event "b" 0 (PathArr []) (VBool false);
                 Event "x" 1 (PathArr ["b"]) (VBool false)]))
  ∧ (∀ fuel,
       copyObject (S (S (S fuel))) (VRef 0) always_true (start heap_shared_nested tt)
       = (Returned (VRef 3),
          World (heap_shared_nested
                   ++ [Obj Plain [("a", VRef 4); ("n", VNum 5); ("b", VRef 6)] 0;
                       Obj Plain [("x", VRef 7)] 0;
                       Obj Plain [("y", VNum 1)] 0;
                       Obj Plain [] 0;
                       Obj Plain [] 0])
                tt
                [Event "a" 0 (PathArr []) (VBool false);
                 Event "x" 1 (PathArr ["a"]) (VBool false);
                 Event "y" 2 (PathArr ["a"; "x"]) (VBool false);
                 Event "n" 0 (PathArr []) (VBool false);
                 Event "b" 0 (PathArr []) (VBool false);
                 Event "x" 1 (PathArr ["b"]) (VBool false);
                 Event "y" 2 (PathArr ["b"; "x"]) (VBool false)])).
Proof.
  split; [apply indexOf_first|].
  split; [intros U callback; apply walkCallback_container|].
  split; [intros U callback; apply walkCallback_leaf|].
  split.
  { intros U callback h0 fuel input u l0 Hcb new res h' ins outs.
    pose proof (copy_walk_tabled callback h0 Hcb input fuel u l0) as Htb.
    cbv zeta in Htb. fold new in Htb. fold res in Htb.
    destruct Htb as [Hcp [Hhi Hho] Hnd Hempty].
    cbn [fst snd] in Hcp, Hhi, Hho, Hnd, Hempty.
    split.
    { unfold h', res, new, copyObject. cbn [w_heap w_state w_log].
      change (Config (VBool true) None VUndefined) with copy_config.
      by destruct (walkObject _ _ _ _ _) as [[[]| | |] w']. }
    split; [done|]. split; [done|].
    split; [exact (cp_len _ _ _ _ Hcp)|]. split; [done|].
    split; [exact (cp_outs _ _ _ _ Hcp)|].
    intros i j v q Hlt Hi Hj Hq. apply (Hempty j q); [|done]. by exists i, v. }
  split.
  { intros U callback h0 r o kr lr k1 k2 oo fuel u l0 Hok Hcb Hnf.
    by apply copyObject_shared. }
  split; intros fuel; reflexivity.
Qed.

Lemma shared_container_copied_once_witness :
  input_only always_true heap_cyclic
  ∧ let new := if isArray heap_cyclic (VRef 0) then empty_array else empty_object in
    let res := walkObject 4 (VRef 0) (walkCallback always_true) copy_config
                 (World (heap_cyclic ++ [new]) (Copier [VRef 0] [length heap_cyclic] tt) []) in
    let h' := w_heap res.2 in
    let ins := inputObjects (w_state res.2) in
    let outs := outputObjects (w_state res.2) in
    w_heap (copyObject 4 (VRef 0) always_true (World heap_cyclic tt [])).2 = h'
    ∧ ins !! 0 = Some (VRef 0) ∧ outs !! 0 = Some (length heap_cyclic)
    ∧ length ins = length outs
    ∧ NoDup outs
    ∧ (∀ j q, outs !! j = Some q → length heap_cyclic ≤ q < length h')
    ∧ (∀ i j v q, i < j → ins !! i = Some v → ins !! j = Some v →
         outs !! j = Some q →
         h' !! q = Some empty_object ∨ h' !! q = Some empty_array).
Proof.
  split; [apply always_true_input_only|].
  exact (proj1 (proj2 (proj2 (proj2 shared_container_copied_once))) unit always_true
           heap_cyclic 4 (VRef 0) tt [] (always_true_input_only heap_cyclic)).
Defined.

(** * Further properties *)

(** ** shallowEqual beyond two objects with the same keys *)

Definition is_ref (v : value) : bool :=
  match v with VRef _ => true | _ => false end.

(** X1: a first argument that is not an object (a number, a string, a
    boolean, [null], [undefined], [NaN]) has no keys for [R.keys], so
    nothing is compared: [shallowEqual(a, b)] returns true when [a === b]
    or when [b] has no own enumerable key, and false otherwise, and it
    never throws.  Any two values that are not objects are [shallowEqual]:
    [shallowEqual(1, 2)] is true. *)
Theorem shallowEqual_non_object strict hidden h a b :
  is_ref a = false →
  shallowEqual strict hidden h a b
  = Returned (strictEqual a b || bool_decide (Ramda.keys h b = []))
  ∧ (is_ref b = false → shallowEqual strict hidden h a b = Returned true).
Proof.
  intros Ha.
  assert (Hk : Ramda.keys h a = []) by (by destruct a).
  assert (Heq : shallowEqual strict hidden h a b
                = Returned (strictEqual a b || bool_decide (Ramda.keys h b = []))).
  { unfold shallowEqual. destruct (strictEqual a b); [done|].
    rewrite Hk. cbn. f_equal. rewrite andb_true_r.
    destruct (Ramda.keys h b); by cbn. }
  split; [done|]. intros Hb. rewrite Heq.
  assert (Ramda.keys h b = []) as -> by (by destruct b).
  by rewrite bool_decide_eq_true_2, orb_true_r.
Qed.

Lemma shallowEqual_non_object_witness :
  is_ref (VNum 1) = false
  ∧ shallowEqual true (λ _ _, VUndefined) [] (VNum 1) (VNum 2)
    = Returned (strictEqual (VNum 1) (VNum 2) || bool_decide (Ramda.keys [] (VNum 2) = []))
  ∧ (is_ref (VNum 2) = false →
     shallowEqual true (λ _ _, VUndefined) [] (VNum 1) (VNum 2) = Returned true).
Proof.
  split; [reflexivity|].
  exact (shallowEqual_non_object true (λ _ _, VUndefined) [] (VNum 1) (VNum 2) eq_refl).
Defined.








(** [{x: undefined}] at 0, [{y: 1}] at 1, [{x: 1, y: 2}] at 2 and
    [{y: 2, x: 1}] at 3. *)
Definition heap_keys : heap :=
  [ Obj Plain [("x", VUndefined)] 0; Obj Plain [("y", VNum 1)] 0;
    Obj Plain [("x", VNum 1); ("y", VNum 2)] 0;
    Obj Plain [("y", VNum 2); ("x", VNum 1)] 0 ].

(** The two runs in which a property is [undefined], a value that the
    other object yields for the name [x], which it does not know. *)
Lemma shallowEqual_undefined_asymmetric strict :
  shallowEqual strict inherits_toString heap_keys (VRef 0) (VRef 1) = Returned true
  ∧ shallowEqual strict inherits_toString heap_keys (VRef 1) (VRef 0) = Returned false.
Proof. by destruct strict. Qed.


Definition nullish (v : value) : Prop := v = VUndefined ∨ v = VNull.






(** ** align: a second run, and elements that are not arrays *)

(** A run of [align] on an array of arrays. *)
Lemma align_runs legacy h data ls :
  array_of_arrays h data ls →
  ∃ h', align legacy data h = (Returned (VRef data), h')
        ∧ aligned h h' ls (list_max (map (len_at h) ls)).
Proof.
  intros Hdata. set (n := list_max (map (len_at h) ls)).
  assert (Hn : ∀ l, l ∈ ls → len_at h l ≤ n).
  { intros l Hl. apply list_max_ge. apply list_elem_of_fmap. by exists l. }
  pose proof Hdata as (o & Ho & Hkind & Hlen & Hels).
  unfold align, bind at 1, gets at 1. rewrite Ho.
  rewrite bool_decide_eq_true_2 by done. unfold bind at 1.
  rewrite Hlen, (map_lengths_arrays h o ls).
  2:{ intros i l Hi. destruct (Hels i l Hi) as (? & _ & a & ? & ? & _). eauto. }
  rewrite reduce_max_list_max. fold n. change (default 0 (Some n)) with n.
  destruct (align_loop_aligned h data ls n Hdata Hn (length ls) 0 h
              (S (Nat.max (length ls) n))) as (h' & Hrun & Hal);
    [lia | lia | lia | |].
  { split; [done|]. split; [done|]. intros l Hl. by apply elem_of_nil in Hl. }
  exists h'. unfold bind at 1. by rewrite Hrun.
Qed.

(** What [align] leaves behind is an array of arrays again. *)
Lemma aligned_array_of_arrays h h' data ls n :
  array_of_arrays h data ls → aligned h h' ls n →
  (∀ l, l ∈ ls → len_at h l ≤ n) →
  array_of_arrays h' data ls ∧ ∀ l, l ∈ ls → len_at h' l = n.
Proof.
  intros (o & Ho & Hkind & Hlen & Hels) (Hlenh & Hout & Hin) Hn.
  assert (Hdata_out : data ∉ ls).
  { intros (i & Hi)%list_elem_of_lookup. by destruct (Hels i data Hi) as (_ & ? & _). }
  split.
  - exists o. rewrite (Hout data Hdata_out). repeat (split; [done|]).
    intros i l Hi. destruct (Hels i l Hi) as (Hassoc & Hne & a & Ha & Hka & Hwf).
    repeat (split; [done|]).
    assert (Hl : l ∈ ls) by (by eapply list_elem_of_lookup_2).
    destruct (Hin l Hl) as (a0 & a' & Ha0 & Ha' & Hk' & Hl' & Hp').
    assert (a0 = a) as -> by congruence.
    exists a'. repeat (split; [done|]).
    intros k v j Hkv Hj. rewrite Hp' in Hkv. rewrite Hl'.
    specialize (Hwf k v j Hkv Hj). specialize (Hn l Hl).
    unfold len_at in Hn. rewrite Ha in Hn. lia.
  - intros l Hl. destruct (Hin l Hl) as (a0 & a' & Ha0 & Ha' & Hk' & Hl' & Hp').
    unfold len_at. by rewrite Ha'.
Qed.

Lemma list_max_const {A} (f : A → nat) (ls : list A) n :
  ls ≠ [] → (∀ l, l ∈ ls → f l = n) → list_max (map f ls) = n.
Proof.
  induction ls as [|l ls IH]; [done|]. intros _ Hall.
  change (list_max (map f (l :: ls))) with (Nat.max (f l) (list_max (map f ls))).
  rewrite (Hall l) by left.
  destruct ls as [|l' ls]; [cbn; lia|].
  rewrite IH; [lia | done |]. intros l0 Hl0. apply Hall. by right.
Qed.

(** X6: [align] is idempotent.  After [align(data)] every contained array
    has the common length already, so a second [align(data)] returns
    [data] again and changes no object. *)
Theorem align_idempotent legacy h data ls :
  array_of_arrays h data ls →
  ∃ h', align legacy data h = (Returned (VRef data), h')
        ∧ align legacy data h' = (Returned (VRef data), h').
Proof.
  intros Hdata.
  destruct (align_runs legacy h data ls Hdata) as (h' & Hrun & Hal).
  exists h'. split; [done|].
  assert (Hn : ∀ l, l ∈ ls → len_at h l ≤ list_max (map (len_at h) ls)).
  { intros l Hl. apply list_max_ge. apply list_elem_of_fmap. by exists l. }
  destruct (aligned_array_of_arrays h h' data ls _ Hdata Hal Hn) as [Hdata' Hlens].
  destruct (align_runs legacy h' data ls Hdata') as (h'' & Hrun' & (Hlenh & Hout & Hin)).
  rewrite Hrun'. f_equal. f_equal.
  apply list_eq. intros i.
  destruct (decide (i ∈ ls)) as [Hi | Hi]; [|by apply Hout].
  destruct (Hin i Hi) as (a' & a'' & Ha' & Ha'' & Hk & Hl & Hp).
  rewrite Ha', Ha''. f_equal.
  rewrite (list_max_const (len_at h') ls (list_max (map (len_at h) ls))) in Hl;
    [|intros ->; by apply elem_of_nil in Hi | done].
  destruct Hal as (_ & _ & Hin0).
  destruct (Hin0 i Hi) as (a0 & a1 & _ & Ha1 & Hk1 & Hl1 & _).
  assert (a1 = a') as -> by congruence.
  destruct a' as [k' p' l'], a'' as [k'' p'' l'']. cbn in *. by subst.
Qed.

Lemma align_idempotent_witness :
  array_of_arrays heap_ragged 0 [1; 2]
  ∧ ∃ h', align false 0 heap_ragged = (Returned (VRef 0), h')
          ∧ align false 0 h' = (Returned (VRef 0), h').
Proof.
  split; [apply heap_ragged_array_of_arrays|].
  exact (align_idempotent false heap_ragged 0 [1; 2] heap_ragged_array_of_arrays).
Defined.

(** An element of [data] that [align] can read the length of, or that is
    missing: an array, or an empty slot. *)
Definition array_or_hole (h : heap) (o : obj) (i : nat) : Prop :=
  assoc (key_of_index i) (o_props o) = None
  ∨ ∃ l a, assoc (key_of_index i) (o_props o) = Some (VRef l)
           ∧ h !! l = Some a ∧ o_kind a = Arr.

Lemma map_lengths_nullish h o i v :
  assoc (key_of_index i) (o_props o) = Some v → nullish v →
  ∀ n j, j ≤ i < j + n →
    (∀ i', j ≤ i' < i → array_or_hole h o i') →
    map_lengths h o (seq j n) = Threw TypeError.
Proof.
  intros Hi Hv. induction n as [|n IH]; intros j Hj Hbefore; [lia|].
  cbn [seq map_lengths].
  destruct (decide (j = i)) as [-> | Hne].
  { rewrite Hi. by destruct Hv as [-> | ->]. }
  rewrite (IH (S j)) by (lia || (intros i' Hi'; apply Hbefore; lia)).
  destruct (Hbefore j ltac:(lia)) as [-> | (l & a & -> & Ha & Hk)]; [done|].
  cbn [length_of]. rewrite Ha. by rewrite bool_decide_eq_true_2.
Qed.

(** X7: the lengths are read from all elements before any length is
    written.  When an element of [data] is [undefined] or [null] (an
    element that is present, not an empty slot), and the elements before it
    are arrays or empty slots, reading its [length] throws a TypeError in
    the first pass, and no array has been changed. *)
Theorem align_nullish_element legacy h data o i v :
  h !! data = Some o → o_kind o = Arr → i < o_len o →
  assoc (key_of_index i) (o_props o) = Some v → nullish v →
  (∀ i', i' < i → array_or_hole h o i') →
  align legacy data h = (Threw TypeError, h).
Proof.
  intros Ho Hk Hlt Hi Hv Hbefore.
  unfold align, bind at 1, gets at 1. rewrite Ho.
  rewrite bool_decide_eq_true_2 by done. unfold bind at 1.
  rewrite (map_lengths_nullish h o i v Hi Hv (o_len o) 0); [done | lia |].
  intros i' Hi'. apply Hbefore. lia.
Qed.

(** [[[1], undefined]] at 0. *)
Definition heap_undefined_element : heap :=
  [ Obj Arr [("0", VRef 1); ("1", VUndefined)] 2; Obj Arr [("0", VNum 1)] 1 ].

Lemma align_nullish_element_witness :
  align true 0 heap_undefined_element = (Threw TypeError, heap_undefined_element).
Proof.
  apply (align_nullish_element true heap_undefined_element 0
           (Obj Arr [("0", VRef 1); ("1", VUndefined)] 2) 1 VUndefined);
    [reflexivity | reflexivity | cbn; lia | reflexivity | by left |].
  intros [|i'] Hi'; [|lia].
  right. exists 1, (Obj Arr [("0", VNum 1)] 1). by repeat split.
Defined.

(** ** align: an empty slot in [data] *)

Lemma map_lengths_returns h o n :
  ∀ j, (∀ i, j ≤ i < j + n → array_or_hole h o i) →
    ∃ lens, map_lengths h o (seq j n) = Returned lens
            ∧ (∀ i l a, j ≤ i < j + n →
                 assoc (key_of_index i) (o_props o) = Some (VRef l) →
                 h !! l = Some a → Some (o_len a) ∈ lens)
            ∧ (∀ i, j ≤ i < j + n →
                 assoc (key_of_index i) (o_props o) = None → None ∈ lens).
Proof.
  induction n as [|n IH]; intros j Hall.
  { exists []. split; [done|]. split; [intros i l a Hi; lia | intros i Hi; lia]. }
  destruct (IH (S j)) as (lens & Hrun & Hlens & Hholes).
  { intros i Hi. apply Hall. lia. }
  cbn [seq map_lengths]. rewrite Hrun.
  destruct (Hall j ltac:(lia)) as [Hnone | (l & a & Hsome & Ha & Hk)].
  - rewrite Hnone. exists (None :: lens). split; [done|]. split.
    + intros i l a Hi Hil Ha.
      destruct (decide (i = j)) as [-> | Hne]; [congruence|].
      right. apply (Hlens i l a); [lia | done..].
    + intros i Hi Hin. destruct (decide (i = j)) as [-> | Hne]; [left|].
      right. apply (Hholes i); [lia | done].
  - rewrite Hsome. cbn [length_of]. rewrite Ha, bool_decide_eq_true_2 by done.
    exists (Some (o_len a) :: lens). split; [done|]. split.
    + intros i l' a' Hi Hil Ha'.
      destruct (decide (i = j)) as [-> | Hne].
      * assert (l' = l) as -> by congruence. assert (a' = a) as -> by congruence. left.
      * right. apply (Hlens i l' a'); [lia | done..].
    + intros i Hi Hin. destruct (decide (i = j)) as [-> | Hne]; [congruence|].
      right. apply (Hholes i); [lia | done].
Qed.

(** The older [R.max] never answers [undefined] for a number and an
    [undefined]: the maximum is a number, not less than any length. *)
Lemma reduce_max_legacy lens :
  ∃ m, reduce_max true lens = Some m ∧ ∀ n, Some n ∈ lens → n ≤ m.
Proof.
  unfold reduce_max.
  assert (H : ∀ acc, ∃ m, fold_left (Ramda.max true) lens (Some acc) = Some m
                          ∧ acc ≤ m ∧ ∀ n, Some n ∈ lens → n ≤ m).
  { induction lens as [|x lens IH]; intros acc.
    - exists acc. split; [done|]. split; [done|]. intros n Hin. by apply elem_of_nil in Hin.
    - cbn [fold_left]. destruct x as [k|].
      + rewrite Ramda_max_max. destruct (IH (Nat.max acc k)) as (m & Hm & Hacc & Hin).
        exists m. split; [done|]. split; [lia|].
        intros n [[= <-] | Hin']%elem_of_cons; [lia | by apply Hin].
      + cbn [Ramda.max]. destruct (IH acc) as (m & Hm & Hacc & Hin).
        exists m. split; [done|]. split; [done|].
        intros n [[=] | Hin']%elem_of_cons. by apply Hin. }
  destruct (H 0) as (m & Hm & _ & Hin). by exists m.
Qed.

(** The newer [R.max] answers [undefined] once it has met one. *)
Lemma reduce_max_undefined lens : None ∈ lens → reduce_max false lens = None.
Proof.
  unfold reduce_max.
  assert (Hnone : ∀ l, fold_left (Ramda.max false) l None = None).
  { induction l as [|x l IH]; [done|]. by cbn [fold_left Ramda.max]. }
  assert (H : ∀ acc, None ∈ lens → fold_left (Ramda.max false) lens acc = None).
  { induction lens as [|x lens IH]; intros acc Hin; [by apply elem_of_nil in Hin|].
    cbn [fold_left]. apply elem_of_cons in Hin as [<- | Hin]; [|by apply IH].
    destruct acc; cbn [Ramda.max]; apply Hnone. }
  apply H.
Qed.

Section AlignSparse.
Context (h : heap) (data : loc) (o : obj) (ls : list loc) (m : nat).
Context (Hlt : length ls < o_len o).
Context (Hels : ∀ j l, ls !! j = Some l →
           assoc (key_of_index j) (o_props o) = Some (VRef l)
           ∧ l ≠ data ∧ ∃ a, h !! l = Some a ∧ o_kind a = Arr).
Context (Hhole : assoc (key_of_index (length ls)) (o_props o) = None).

(** The loop has set the lengths of the first [j] arrays. *)
Definition padded (j : nat) (hj : heap) : Prop :=
  hj !! data = Some o
  ∧ (∀ l, l ∈ ls → ∃ a, hj !! l = Some a ∧ o_kind a = Arr)
  ∧ (∀ l, l ∈ take j ls → len_at hj l = m)
  ∧ (∀ l, l ∉ ls → hj !! l = h !! l).

Lemma align_loop_hole k :
  ∀ j hj fuel,
    k = length ls - j → j ≤ length ls → k < fuel → padded j hj →
    ∃ h', align_loop fuel data (Some m) j hj = (Threw TypeError, h')
          ∧ padded (length ls) h'.
Proof.
  induction k as [|k IH]; intros j hj fuel Hk Hj Hfuel (Hdata & Harrs & Hdone & Hout);
    (destruct fuel as [|fuel]; [lia|]);
    cbn [align_loop]; unfold bind at 1, gets at 1; rewrite Hdata;
    rewrite bool_decide_eq_true_2 by lia.
  - assert (j = length ls) as -> by lia. rewrite Hhole.
    exists hj. split; [done|]. by repeat split.
  - destruct (ls !! j) as [l|] eqn:El; [|apply lookup_ge_None in El; lia].
    destruct (Hels j l El) as (Hassoc & Hne & _).
    assert (Hl_in : l ∈ ls) by (by eapply list_elem_of_lookup_2).
    destruct (Harrs l Hl_in) as (a & Ha & Hka).
    rewrite Hassoc. unfold bind at 1, gets at 1. rewrite Ha.
    rewrite bool_decide_eq_true_2 by done. unfold bind at 1, modify at 1.
    apply IH; [lia | lia | lia |].
    split; [by rewrite list_lookup_insert_ne|]. split; [|split].
    + intros l' Hl'. destruct (decide (l' = l)) as [-> | Hne'].
      * exists (set_length a m). split; [|done].
        apply list_lookup_insert_eq. by eapply lookup_lt_Some.
      * rewrite list_lookup_insert_ne by done. by apply Harrs.
    + intros l' Hl'. rewrite (take_S_r _ _ _ El) in Hl'. unfold len_at.
      destruct (decide (l' = l)) as [-> | Hne'].
      * rewrite list_lookup_insert_eq by (by eapply lookup_lt_Some). done.
      * rewrite list_lookup_insert_ne by done.
        apply elem_of_app in Hl' as [Hl' | ->%list_elem_of_singleton]; [|done].
        by apply Hdone.
    + intros l' Hl'. rewrite list_lookup_insert_ne by (by intros ->). by apply Hout.
Qed.

(** With an [undefined] length the loop throws at its first step: a
    TypeError when the first slot is the empty one, else the RangeError
    of an invalid array length. *)
Lemma align_loop_undefined fuel :
  h !! data = Some o →
  align_loop (S fuel) data None 0 h
  = (Threw (match ls with [] => TypeError | _ => RangeError end), h).
Proof.
  intros Hdata. cbn [align_loop]. unfold bind at 1, gets at 1. rewrite Hdata.
  rewrite bool_decide_eq_true_2 by lia.
  destruct ls as [|l ls'] eqn:Els.
  - cbn [length] in Hhole. by rewrite Hhole.
  - destruct (Hels 0 l eq_refl) as (Hassoc & _ & a & Ha & Hka).
    rewrite Hassoc. unfold bind at 1, gets at 1. rewrite Ha.
    by rewrite bool_decide_eq_true_2.
Qed.
End AlignSparse.

(** X8: [align] on a sparse [data].  The slot at one index is empty, the
    elements before it are the arrays [ls] and the elements after it are
    arrays or empty slots.  The empty slot is read as [undefined] when
    the maximum of the lengths is taken, and what happens next depends
    on [R.max], whose version is not pinned.  With the older [R.max] the
    maximum is a number [m], not less than the length of any array in
    [data]; the loop sets the length of every array in [ls] to [m] and
    then throws a TypeError at the empty slot: [align] is not atomic.
    With the newer [R.max] the maximum is [undefined]; the loop throws
    at its first step (a RangeError for the invalid length, or the
    TypeError if the empty slot comes first) and no object is changed. *)
Theorem align_empty_slot (h : heap) (data : loc) (o : obj) (ls : list loc) :
  h !! data = Some o → o_kind o = Arr → length ls < o_len o →
  (∀ j l, ls !! j = Some l →
     assoc (key_of_index j) (o_props o) = Some (VRef l)
     ∧ l ≠ data ∧ ∃ a, h !! l = Some a ∧ o_kind a = Arr) →
  assoc (key_of_index (length ls)) (o_props o) = None →
  (∀ j, length ls < j < o_len o → array_or_hole h o j) →
  ∃ lens,
    map_lengths h o (seq 0 (o_len o)) = Returned lens
    ∧ (∃ h' m,
         reduce_max true lens = Some m
         ∧ align true data h = (Threw TypeError, h')
         ∧ (∀ l, l ∈ ls → len_at h' l = m)
         ∧ (∀ j l a, j < o_len o → assoc (key_of_index j) (o_props o) = Some (VRef l) →
                     h !! l = Some a → o_len a ≤ m)
         ∧ (∀ l, l ∉ ls → h' !! l = h !! l))
    ∧ reduce_max false lens = None
    ∧ align false data h
      = (Threw (match ls with [] => TypeError | _ => RangeError end), h).
Proof.
  intros Ho Hk Hlt Hels Hhole Hafter.
  destruct (map_lengths_returns h o (o_len o) 0) as (lens & Hmap & Hlens & Hholes).
  { intros i Hi.
    destruct (decide (i < length ls)) as [Hi1 | Hi1].
    - destruct (ls !! i) as [l|] eqn:El; [|apply lookup_ge_None in El; lia].
      destruct (Hels i l El) as (Hassoc & _ & a & Ha & Hka).
      right. by exists l, a.
    - destruct (decide (i = length ls)) as [-> | Hi2]; [by left|].
      apply Hafter. lia. }
  exists lens. split; [done|].
  assert (Hundef : reduce_max false lens = None).
  { apply reduce_max_undefined. apply (Hholes (length ls)); [lia | done]. }
  split; [|split; [done|]].
  - destruct (reduce_max_legacy lens) as (m & Hm & Hge).
    destruct (align_loop_hole h data o ls m Hlt Hels Hhole (length ls) 0 h
                (S (Nat.max (o_len o) m))) as (h' & Hrun & Hpad); [lia | lia | lia | |].
    { split; [done|]. split; [|split; [|done]].
      - intros l (j & Hj)%list_elem_of_lookup.
        by destruct (Hels j l Hj) as (_ & _ & a & Ha & Hka); exists a.
      - intros l Hl. by apply elem_of_nil in Hl. }
    exists h', m. split; [done|]. split.
    { unfold align, bind at 1, gets at 1. rewrite Ho.
      rewrite bool_decide_eq_true_2 by done. unfold bind at 1. rewrite Hmap, Hm.
      change (default 0 (Some m)) with m. unfold bind at 1. by rewrite Hrun. }
    destruct Hpad as (_ & _ & Hdone & Hout). rewrite firstn_all in Hdone.
    split; [done|]. split; [|done].
    intros j l a Hj Hassoc Ha. apply Hge. apply (Hlens j l a); [lia | done..].
  - unfold align, bind at 1, gets at 1. rewrite Ho.
    rewrite bool_decide_eq_true_2 by done. unfold bind at 1. rewrite Hmap, Hundef.
    unfold bind at 1.
    by rewrite (align_loop_undefined h data o ls Hlt Hels Hhole _ Ho).
Qed.

(** [[[1], , [1, 1, 1]]] at 0: the slot at index 1 is empty. *)
Definition heap_sparse : heap :=
  [ Obj Arr [("0", VRef 1); ("2", VRef 2)] 3;
    Obj Arr [("0", VNum 1)] 1;
    Obj Arr [("0", VNum 1); ("1", VNum 1); ("2", VNum 1)] 3 ].

Lemma align_empty_slot_witness :
  ∃ lens,
    map_lengths heap_sparse (Obj Arr [("0", VRef 1); ("2", VRef 2)] 3) (seq 0 3)
    = Returned lens
    ∧ (∃ h' m,
         reduce_max true lens = Some m
         ∧ align true 0 heap_sparse = (Threw TypeError, h')
         ∧ (∀ l, l ∈ [1] → len_at h' l = m)
         ∧ (∀ j l a, j < 3 →
              assoc (key_of_index j) [("0", VRef 1); ("2", VRef 2)] = Some (VRef l) →
              heap_sparse !! l = Some a → o_len a ≤ m)
         ∧ (∀ l, l ∉ [1] → h' !! l = heap_sparse !! l))
    ∧ reduce_max false lens = None
    ∧ align false 0 heap_sparse = (Threw RangeError, heap_sparse).
Proof.
  apply (align_empty_slot heap_sparse 0
           (Obj Arr [("0", VRef 1); ("2", VRef 2)] 3) [1]);
    [reflexivity | reflexivity | cbn; lia | | reflexivity |].
  - intros [|j] l [= <-]. split; [done|]. split; [done|].
    by exists (Obj Arr [("0", VNum 1)] 1).
  - intros j Hj. cbn in Hj. assert (j = 2) as -> by lia.
    right. exists 2, (Obj Arr [("0", VNum 1); ("1", VNum 1); ("2", VNum 1)] 3).
    by repeat split.
Defined.

(** The two runs of the witness: with the older [R.max] the first array
    has the length 3 when the call throws; with the newer one nothing
    has changed. *)
Lemma align_heap_sparse :
  align true 0 heap_sparse
  = (Threw TypeError,
     [ Obj Arr [("0", VRef 1); ("2", VRef 2)] 3;
       Obj Arr [("0", VNum 1)] 3;
       Obj Arr [("0", VNum 1); ("1", VNum 1); ("2", VNum 1)] 3 ])
  ∧ align false 0 heap_sparse = (Threw RangeError, heap_sparse).
Proof. split; reflexivity. Qed.

(** ** Paths: the nestedProperty mode and makeAttrSetterPath *)

Lemma makeAttrSetterPath_strip parts :
  makeAttrSetterPath parts = emit_parts true (strip_prefixes parts).
Proof.
  unfold makeAttrSetterPath, strip_prefixes.
  change (strip "_fullData" 2 parts) with (strip "_fullData" 2 (drop 0 parts)).
  rewrite !strip_drop. cbn zeta.
  set (i1 := if part_is (parts !! 0) "_fullData" then 0 + 2 else 0).
  set (i2 := if part_is (parts !! i1) "_fullInput" then i1 + 1 else i1).
  set (i3 := if part_is (parts !! i2) "_fullLayout" then i2 + 1 else i2).
  rewrite (loop_emit parts i3 i3 "") by done.
  by rewrite bool_decide_eq_true_2.
Qed.

(** The accumulators of a descent: [path.set(object, key)] for each object
    walked into and the key of it that led further, outermost first. *)
Fixpoint descend_path (acc : accumulator) (h : heap) (steps : list (loc * string))
  : outcome accumulator :=
  match steps with
  | [] => Returned acc
  | (o, k) :: rest =>
      match getPath_set acc h o k with
      | Returned acc' => descend_path acc' h rest
      | Threw e => Threw e
      | OutOfFuel => OutOfFuel
      | OutsideModel => OutsideModel
      end
  end.

(** The part that stands for a step in the list [makeAttrSetterPath]
    takes: for a key of an array, the number whose decimal form is the
    key, or the list of the key alone; and the key itself otherwise. *)
Definition part_matches (h : heap) (step : loc * string) (p : part) : Prop :=
  if isArray h (VRef step.1)
  then (∃ n, p = PartNum n ∧ step.2 = string_of_Z n) ∨ p = PartArr [PartStr step.2]
  else p = PartStr step.2.

(** The steps lead from the object [a] to the object [o]: each step is an
    object and an own key of it, which holds the object of the next
    step. *)
Fixpoint chain (h : heap) (a : loc) (steps : list (loc * string)) (o : loc) : Prop :=
  match steps with
  | [] => a = o
  | (a', k) :: rest =>
      a' = a ∧ k ∈ Object_keys h a ∧ ∃ d, heap_get h a k = VRef d ∧ chain h d rest o
  end.

Definition nested_acc (s : string) : accumulator :=
  Accumulator (VStr "nestedProperty") (PathStr s).

Lemma string_length_0 (s : string) : String.length s = 0 ↔ s = "".
Proof. by destruct s. Qed.

Lemma append_nonempty (a b : string) : a ≠ "" → a +:+ b ≠ "".
Proof. by destruct a. Qed.

Lemma getPath_set_nested s h o k :
  getPath_set (nested_acc s) h o k
  = Returned (nested_acc
      (if bool_decide (s = "") then k
       else if isArray h (VRef o) then s +:+ "[" +:+ k +:+ "]"
       else s +:+ "." +:+ k)).
Proof.
  unfold getPath_set, nested_acc. cbn [acc_pathType acc_path path_length path_to_string].
  change (strictEqual (VStr "nestedProperty") (VStr "array")) with false.
  change (strictEqual (VStr "nestedProperty") (VStr "nestedProperty")) with true.
  cbv iota. f_equal.
  assert (Hget : ∀ x, getPath (VStr "nestedProperty") (Some (PathStr x))
                      = Accumulator (VStr "nestedProperty") (PathStr x)).
  { intros x. unfold getPath. cbn -[String.eqb].
    destruct (String.eqb_spec x ""); by subst. }
  destruct (decide (s = "")) as [-> | Hs].
  - cbn. apply Hget.
  - rewrite (bool_decide_eq_false_2 (String.length s = 0)) by (by rewrite string_length_0).
    rewrite (bool_decide_eq_false_2 (s = "")) by done.
    destruct (isArray h (VRef o)); apply Hget.
Qed.

Lemma emit_parts_false_cons p ps :
  emit_parts false (p :: ps) = emit_part false p +:+ emit_parts false ps.
Proof. done. Qed.

Lemma descend_path_nested h steps :
  ∀ parts s, s ≠ "" → Forall2 (part_matches h) steps parts →
    descend_path (nested_acc s) h steps
    = Returned (nested_acc (s +:+ emit_parts false parts)).
Proof.
  induction steps as [|[o k] steps IH]; intros parts s Hs Hm.
  { apply Forall2_nil_inv_l in Hm as ->. cbn. by rewrite append_empty_r. }
  apply Forall2_cons_inv_l in Hm as (p & parts' & Hp & Hm & ->).
  cbn [descend_path]. rewrite getPath_set_nested.
  rewrite (bool_decide_eq_false_2 (s = "")) by done.
  rewrite emit_parts_false_cons.
  unfold part_matches in Hp. cbn [fst snd] in Hp.
  destruct (isArray h (VRef o)).
  - destruct Hp as [(n & -> & ->) | ->];
      rewrite (IH parts') by (done || by apply append_nonempty);
      cbn [emit_part part_to_string]; by rewrite !append_assoc.
  - subst p. rewrite (IH parts') by (done || by apply append_nonempty).
    cbn [emit_part]. by rewrite !append_assoc.
Qed.

Lemma descend_path_snoc acc h steps o k :
  descend_path acc h (steps ++ [(o, k)])
  = match descend_path acc h steps with
    | Returned acc' => getPath_set acc' h o k
    | r => r
    end.
Proof.
  revert acc. induction steps as [|[o' k'] steps IH]; intros acc; cbn [app descend_path].
  - by destruct (getPath_set acc h o k).
  - destruct (getPath_set acc h o' k'); [apply IH | done..].
Qed.

Lemma chain_snoc h a steps o k d :
  chain h a steps o → k ∈ Object_keys h o → heap_get h o k = VRef d →
  chain h a (steps ++ [(o, k)]) d.
Proof.
  revert a. induction steps as [|[a' k'] steps IH]; intros a; cbn.
  - intros -> Hk Hget. split; [done|]. split; [done|]. by exists d.
  - intros (-> & Hk' & d' & Hget' & Hch) Hk Hget.
    split; [done|]. split; [done|]. exists d'. split; [done|]. by apply IH.
Qed.

(** The path at the end of a descent in the [nestedProperty] mode, from
    an input whose first key is not empty and none of the prefixes. *)
Lemma descend_path_attr h o0 k0 rest parts init o k :
  k0 ≠ "" → k0 ∉ ["_fullData"; "_fullInput"; "_fullLayout"] →
  Forall2 (part_matches h) rest parts →
  (o0, k0) :: rest = init ++ [(o, k)] →
  ∃ acc,
    descend_path (getPath (VStr "nestedProperty") None) h init = Returned acc
    ∧ getPath_get acc h o k
      = Returned (PathStr (makeAttrSetterPath (PartStr k0 :: parts))).
Proof.
  intros Hk0 Hpre Hm Hsteps.
  assert (Hstart : getPath (VStr "nestedProperty") None = nested_acc "") by done.
  assert (Hall : descend_path (nested_acc "") h ((o0, k0) :: rest)
                 = Returned (nested_acc (makeAttrSetterPath (PartStr k0 :: parts)))).
  { cbn [descend_path]. rewrite getPath_set_nested. cbn [bool_decide decide_rel].
    rewrite bool_decide_eq_true_2 by done.
    rewrite (descend_path_nested h rest parts k0 Hk0 Hm).
    rewrite makeAttrSetterPath_strip. do 2 f_equal.
    assert (Hstrip : strip_prefixes (PartStr k0 :: parts) = PartStr k0 :: parts).
    { unfold strip_prefixes, strip.
      rewrite !not_elem_of_cons in Hpre. destruct Hpre as (H1 & H2 & H3 & _).
      apply String.eqb_neq in H1, H2, H3. by rewrite H1, H2, H3. }
    by rewrite Hstrip. }
  rewrite Hsteps, descend_path_snoc, <- Hstart in Hall.
  destruct (descend_path (getPath (VStr "nestedProperty") None) h init) as [acc| | |];
    try done.
  exists acc. split; [done|].
  unfold getPath_get. rewrite Hall.
  assert (Hmode : acc_pathType acc = VStr "nestedProperty").
  { unfold getPath_set in Hall.
    destruct (strictEqual (acc_pathType acc) (VStr "array")) eqn:E1.
    { injection Hall as Hall. unfold getPath in Hall.
      apply strictEqual_true in E1 as [E1 _]. rewrite E1 in Hall. cbn in Hall.
      by destruct (acc_path acc). }
    destruct (strictEqual (acc_pathType acc) (VStr "nestedProperty")) eqn:E2; [|done].
    by apply strictEqual_true in E2 as [E2 _]. }
  by rewrite Hmode.
Qed.

Section WalkNestedMode.
Context {St : Type} (callback : visitor St) (cfg : config) (h : heap) (root : loc).
Context (Hpure : heap_preserving callback).

(** A call whose parent is reached from [root] by steps of the walk, for
    a key the parent has, and whose path is what [path.get] makes at the
    end of these steps. *)
Definition reached (e : event) : Prop :=
  ∃ steps acc,
    chain h root steps (ev_parent e)
    ∧ ev_key e ∈ Object_keys h (ev_parent e)
    ∧ descend_path (getPath (VStr "nestedProperty") None) h steps = Returned acc
    ∧ getPath_get acc h (ev_parent e) (ev_key e) = Returned (ev_path e).

(** The heap stays, and every call added to the log is [reached]. *)
Definition reaches (w : world St) (res : outcome unit * world St) : Prop :=
  w_heap res.2 = h ∧ ∃ Δ, w_log res.2 = w_log w ++ Δ ∧ ∀ e, e ∈ Δ → reached e.

Lemma reaches_nothing {A} w (r : outcome A) r' w' :
  w_heap w' = h → w_log w' = w_log w → reaches w (r', w').
Proof.
  intros Hh Hl. split; [done|]. exists []. split; [by rewrite app_nil_r|].
  intros e He. by apply elem_of_nil in He.
Qed.

Definition descends (recurse : loc → accumulator → M (world St) unit) : Prop :=
  ∀ d next steps w,
    chain h root steps d →
    descend_path (getPath (VStr "nestedProperty") None) h steps = Returned next →
    w_heap w = h → reaches w (recurse d next w).

Lemma walk_key_reaches recurse o acc steps k :
  descends recurse →
  chain h root steps o →
  descend_path (getPath (VStr "nestedProperty") None) h steps = Returned acc →
  k ∈ Object_keys h o →
  ∀ w, w_heap w = h → reaches w (walk_key recurse o callback acc cfg k w).
Proof.
  intros Hrec Hch Hacc Hk w Hh.
  unfold walk_key, bind, lift_outcome, call, gets, ret. rewrite Hh.
  destruct (getPath_get acc h o k) as [p| | |] eqn:Hp;
    try (by apply (reaches_nothing (A := unit) w (Returned tt))).
  pose proof (Hpure k o p (h, w_state w)) as Hheap.
  destruct (callback k o p (h, w_state w)) as [r [h1 s1]]. cbn [fst snd] in Hheap.
  subst h1.
  destruct r as [r| | |]; try (by apply (reaches_nothing (A := unit) w (Returned tt))).
  set (e0 := Event k o p r).
  set (w1 := World h s1 (w_log w ++ [e0])).
  assert (He0 : reached e0) by (by exists steps, acc).
  assert (Hone : ∀ r', reaches w (r', w1)).
  { intros r'. split; [done|]. exists [e0]. split; [done|].
    by intros e ->%list_elem_of_singleton. }
  destruct (truthy r); [apply Hone|].
  change (w_heap w1) with h.
  destruct (heap_get h o k) as [| | | | | |d] eqn:Hget;
    try (destruct (isPlainObject _ _ || doArrayWalk _ _ _ _ _); apply Hone).
  destruct (isPlainObject h (VRef d) || doArrayWalk h k (VRef d) _ _); [|apply Hone].
  change (w_heap w1) with h.
  destruct (getPath_set acc h o k) as [next| | |] eqn:Hnext; try apply Hone.
  assert (Hch' : chain h root (steps ++ [(o, k)]) d) by (by apply chain_snoc).
  assert (Hacc' : descend_path (getPath (VStr "nestedProperty") None) h
                    (steps ++ [(o, k)]) = Returned next).
  { by rewrite descend_path_snoc, Hacc. }
  destruct (Hrec d next _ w1 Hch' Hacc' eq_refl) as (Hh2 & Δ2 & Hlog2 & Hall2).
  split; [done|]. exists (e0 :: Δ2). split.
  { rewrite Hlog2. unfold w1. cbn [w_log]. by rewrite <- app_assoc. }
  intros e [-> | He]%elem_of_cons; [done | by apply Hall2].
Qed.

Lemma forEach_reaches recurse o acc steps :
  descends recurse →
  chain h root steps o →
  descend_path (getPath (VStr "nestedProperty") None) h steps = Returned acc →
  ∀ ks w, ks ⊆ Object_keys h o → w_heap w = h →
    reaches w (forEach ks (walk_key recurse o callback acc cfg) w).
Proof.
  intros Hrec Hch Hacc ks. induction ks as [|k ks IH]; intros w Hks Hh.
  { by apply (reaches_nothing (A := unit) w (Returned tt)). }
  cbn [forEach]. unfold bind at 1.
  assert (Hk : k ∈ Object_keys h o) by (apply Hks; left).
  destruct (walk_key_reaches recurse o acc steps k Hrec Hch Hacc Hk w Hh)
    as (Hh1 & Δ1 & Hlog1 & Hall1).
  destruct (walk_key recurse o callback acc cfg k w) as [r1 w1].
  cbn [fst snd] in Hh1, Hlog1.
  assert (Hstop : reaches w (r1, w1)) by (split; [done|]; by exists Δ1).
  destruct r1 as [[]| | |]; try (destruct Hstop as [? ?]; by split).
  assert (Hks' : ks ⊆ Object_keys h o) by (intros k' Hk'; apply Hks; by right).
  destruct (IH w1 Hks' Hh1) as (Hh2 & Δ2 & Hlog2 & Hall2).
  split; [done|]. exists (Δ1 ++ Δ2). split; [by rewrite Hlog2, Hlog1, <- app_assoc|].
  intros e [He | He]%elem_of_app; [by apply Hall1 | by apply Hall2].
Qed.

Lemma _walkObject_reaches fuel : descends (λ d next, _walkObject fuel d callback next cfg).
Proof.
  induction fuel as [|fuel IH]; intros o acc steps w Hch Hacc Hh.
  { by apply (reaches_nothing (A := unit) w (Returned tt)). }
  cbn [_walkObject]. unfold bind at 1, gets at 1. rewrite Hh.
  by apply (forEach_reaches _ o acc steps).
Qed.
End WalkNestedMode.

(** [{a: [{b: 1}]}] at 0. *)
Definition heap_nested : heap :=
  [ Obj Plain [("a", VRef 1)] 0; Obj Arr [("0", VRef 2)] 1; Obj Plain [("b", VNum 1)] 0 ].

(** X9: the string a visitor receives from [walkObject] in the
    [nestedProperty] mode is the string [makeAttrSetterPath] makes of the
    keys that lead to the visited key, that key included.  With a visitor
    that leaves the heap as it is, every call [callback(key, parent, path)]
    that [walkObject(input, ...)] makes has a parent that is reached from
    [input] by steps through own keys, and [path] is
    [makeAttrSetterPath(parts)] for every list [parts] that gives the
    first key as a string and each further key as the string it is, when
    it is a key of a plain object, and as the number it is the decimal
    form of, or as the list of the key alone, when it is a key of an
    array.  The own keys of the input are not empty and none of the three
    prefixes that [makeAttrSetterPath] removes; the key of the input
    itself is taken as a string, also when the input is an array.  This
    holds for every input and also for the calls made before a throw or
    on a cycle. *)
Theorem nestedProperty_path_is_attr_setter_path {St : Type} (callback : visitor St)
    (cfg : config) (fuel : nat) (l : loc) (h : heap) (s : St) (e : event) :
  pathType cfg = VStr "nestedProperty" →
  heap_preserving callback →
  (∀ k, k ∈ Object_keys h l → k ≠ "" ∧ k ∉ ["_fullData"; "_fullInput"; "_fullLayout"]) →
  e ∈ w_log (walkObject fuel (VRef l) callback cfg (start h s)).2 →
  ∃ steps,
    chain h l steps (ev_parent e)
    ∧ ev_key e ∈ Object_keys h (ev_parent e)
    ∧ ∀ o0 k0 rest parts,
        (o0, k0) :: rest = steps ++ [(ev_parent e, ev_key e)] →
        Forall2 (part_matches h) rest parts →
        ev_path e = PathStr (makeAttrSetterPath (PartStr k0 :: parts)).
Proof.
  intros Hmode Hpure Hkeys He.
  unfold walkObject, bind at 1, gets at 1 in He. cbn [w_heap start] in He.
  destruct (negb _); [by apply elem_of_nil in He|]. rewrite Hmode in He.
  destruct (_walkObject_reaches callback cfg h l Hpure fuel l
              (getPath (VStr "nestedProperty") None) [] (World h s [])
              eq_refl eq_refl eq_refl) as (_ & Δ & Hlog & Hall).
  cbn [w_log app] in Hlog. unfold start in He. rewrite Hlog in He.
  destruct (Hall e He) as (steps & acc & Hch & Hk & Hacc & Hget).
  exists steps. split; [done|]. split; [done|].
  intros o0 k0 rest parts Hsteps Hm.
  assert (Hk0 : k0 ∈ Object_keys h l).
  { destruct steps as [|[a k'] steps]; cbn in Hsteps, Hch.
    - injection Hsteps as -> -> _. by subst l.
    - injection Hsteps as -> -> _. by destruct Hch as (_ & ? & _). }
  destruct (Hkeys k0 Hk0) as [Hne Hpre].
  destruct (descend_path_attr h o0 k0 rest parts steps _ _ Hne Hpre Hm Hsteps)
    as (acc' & Hacc' & Hget').
  congruence.
Qed.

Lemma nestedProperty_path_is_attr_setter_path_witness :
  let cfg := Config (VBool true) None (VStr "nestedProperty") in
  let e := Event "b" 2 (PathStr "a[0].b") VUndefined in
  pathType cfg = VStr "nestedProperty"
  ∧ heap_preserving visit_all
  ∧ (∀ k, k ∈ Object_keys heap_nested 0 →
       k ≠ "" ∧ k ∉ ["_fullData"; "_fullInput"; "_fullLayout"])
  ∧ e ∈ w_log (walkObject 3 (VRef 0) visit_all cfg (start heap_nested tt)).2
  ∧ ∃ steps,
      chain heap_nested 0 steps (ev_parent e)
      ∧ ev_key e ∈ Object_keys heap_nested (ev_parent e)
      ∧ ∀ o0 k0 rest parts,
          (o0, k0) :: rest = steps ++ [(ev_parent e, ev_key e)] →
          Forall2 (part_matches heap_nested) rest parts →
          ev_path e = PathStr (makeAttrSetterPath (PartStr k0 :: parts)).
Proof.
  intros cfg e.
  assert (Hkeys : ∀ k, k ∈ Object_keys heap_nested 0 →
            k ≠ "" ∧ k ∉ ["_fullData"; "_fullInput"; "_fullLayout"]).
  { intros k Hk. apply list_elem_of_singleton in Hk as ->.
    split; [done|]. apply (bool_decide_unpack _). vm_compute. exact I. }
  assert (Hin : e ∈ w_log (walkObject 3 (VRef 0) visit_all cfg (start heap_nested tt)).2).
  { vm_compute. do 2 right. left. }
  split; [done|]. split; [apply visit_all_heap_preserving|].
  split; [done|]. split; [done|].
  exact (nestedProperty_path_is_attr_setter_path visit_all cfg 3 0 heap_nested tt e
           eq_refl visit_all_heap_preserving Hkeys Hin).
Defined.

(** ** walkObject on an input without cycles: the order of the calls *)

Section WalkTree.
Context {St : Type} (callback : visitor St) (cfg : config) (h : heap).

(** What the visitor answers in the heap [h], and the state it leaves. *)
Definition answer (k : string) (a : loc) (p : pathval) (s : St) : value * St :=
  match callback k a p (h, s) with
  | (Returned r, (_, s')) => (r, s')
  | (_, (_, s')) => (VUndefined, s')
  end.

(** The object the walk goes into at the key [k], whose value unfolds to
    [t]: a plain object, or an array when the configuration lets it. *)
Definition enters (k : string) (t : itree) : option loc :=
  match t with
  | INode d Plain _ _ => Some d
  | INode d Arr _ _ =>
      if truthy (walkArrays cfg)
         || match walkArraysMatchingKeys cfg with
            | Some keys => includes keys k
            | None => false
            end
      then Some d else None
  | _ => None
  end.

(** [path.get(object, key)] and [path.set(object, key)] where they return. *)
Definition path_at (acc : accumulator) (a : loc) (k : string) : pathval :=
  match getPath_get acc h a k with
  | Returned p => p
  | _ => acc_path acc
  end.

Definition acc_below (acc : accumulator) (a : loc) (k : string) : accumulator :=
  match getPath_set acc h a k with
  | Returned acc' => acc'
  | _ => acc
  end.

Section TraceChildren.
Context (rec : itree → accumulator → St → list event * St).
Context (a : loc) (acc : accumulator).

Fixpoint trace_children (cs : list (string * itree)) (s : St) : list event * St :=
  match cs with
  | [] => ([], s)
  | (k, t) :: cs' =>
      let p := path_at acc a k in
      let '(r, s1) := answer k a p s in
      let '(inner, s2) :=
        if truthy r then ([], s1)
        else match enters k t with
             | Some _ => rec t (acc_below acc a k) s1
             | None => ([], s1)
             end in
      let '(rest, s3) := trace_children cs' s2 in
      (Event k a p r :: inner ++ rest, s3)
  end.
End TraceChildren.

(** The calls of a walk, as a function of the input unfolded into a tree:
    the keys of an object in their order, and the calls below a key right
    after the call for the key. *)
Fixpoint trace (t : itree) (acc : accumulator) (s : St) : list event * St :=
  match t with
  | ILeaf _ => ([], s)
  | INode a _ _ children => trace_children trace a acc children s
  end.

(** The visitor returns and leaves the heap [h] as it is. *)
Definition observes : Prop :=
  ∀ k a p s, ∃ r s', callback k a p (h, s) = (Returned r, (h, s')).

(** An accumulator of one of the two modes. *)
Definition known_mode (acc : accumulator) : Prop :=
  acc_pathType acc = VStr "array" ∨ acc_pathType acc = VStr "nestedProperty".

Lemma known_mode_start : recognized (pathType cfg) → known_mode (getPath (pathType cfg) None).
Proof. intros [-> | [-> | ->]]; [by left | by left | by right]. Qed.

Lemma known_mode_set acc a k :
  known_mode acc →
  getPath_set acc h a k = Returned (acc_below acc a k) ∧ known_mode (acc_below acc a k).
Proof.
  intros Hm. unfold acc_below, getPath_set.
  destruct Hm as [-> | ->].
  - change (strictEqual (VStr "array") (VStr "array")) with true. cbv iota.
    split; [done|]. by left.
  - change (strictEqual (VStr "nestedProperty") (VStr "array")) with false.
    change (strictEqual (VStr "nestedProperty") (VStr "nestedProperty")) with true.
    cbv iota. split; [done|]. by right.
Qed.

Lemma known_mode_get acc a k :
  known_mode acc → getPath_get acc h a k = Returned (path_at acc a k).
Proof.
  intros Hm. unfold path_at, getPath_get.
  destruct (strictEqual (acc_pathType acc) (VStr "array")); [done|].
  destruct (known_mode_set acc a k Hm) as [-> _]. done.
Qed.

Lemma walk_key_observed recurse o acc k s l0 r s' :
  known_mode acc →
  callback k o (path_at acc o k) (h, s) = (Returned r, (h, s')) →
  walk_key recurse o callback acc cfg k (World h s l0)
  = let w1 := World h s' (l0 ++ [Event k o (path_at acc o k) r]) in
    if truthy r then (Returned tt, w1)
    else match descent h cfg o k with
         | Some d => recurse d (acc_below acc o k) w1
         | None => (Returned tt, w1)
         end.
Proof.
  intros Hm Hcb.
  unfold walk_key, bind, lift_outcome, call, gets, ret, descent.
  cbn [w_heap w_state w_log].
  rewrite (known_mode_get acc o k Hm), Hcb. cbv zeta.
  destruct (truthy r); [done|]. cbn [w_heap].
  destruct (heap_get h o k) as [| | | | | |d];
    try by destruct (isPlainObject _ _ || doArrayWalk _ _ _ _ _).
  destruct (isPlainObject _ _ || doArrayWalk _ _ _ _ _); [|done].
  cbn [w_heap]. by destruct (known_mode_set acc o k Hm) as [-> _].
Qed.

Lemma reify_INode n v d kind len children :
  reify n h v = Some (INode d kind len children) →
  v = VRef d ∧ ∃ o, h !! d = Some o ∧ kind = o_kind o ∧ is_container h v = true.
Proof.
  intros Hre. destruct (is_container h v) eqn:Hc.
  - destruct (reify_node _ _ _ _ Hre Hc) as (n' & a & o & ch & _ & -> & Ho & Ht & _).
    injection Ht as -> -> -> ->. split; [done|]. by exists o.
  - pose proof (reify_leaf _ _ _ _ Hre Hc) as Hx. discriminate Hx.
Qed.

Lemma descent_enters n a k t :
  reify n h (heap_get h a k) = Some t → descent h cfg a k = enters k t.
Proof.
  intros Hre. unfold descent.
  destruct t as [v | d kind len children].
  - cbn [enters].
    assert (Hc : is_container h (heap_get h a k) = false).
    { destruct (is_container h (heap_get h a k)) eqn:Hc; [|done].
      by destruct (reify_node _ _ _ _ Hre Hc) as (? & ? & ? & ? & _ & _ & _ & ? & _). }
    destruct (heap_get h a k) as [| | | | | |d]; try done.
    unfold is_container in Hc. apply orb_false_iff in Hc as [Hp Ha].
    unfold doArrayWalk. by rewrite Hp, Ha.
  - destruct (reify_INode _ _ _ _ _ _ Hre) as (-> & o & Ho & -> & Hc).
    destruct (container_kind h d o Ho Hc) as [Hne Harr].
    unfold doArrayWalk. rewrite Harr.
    unfold isPlainObject, kind_of. rewrite Ho. cbn [fmap option_fmap option_map enters].
    destruct (o_kind o) eqn:Ek; try done.
    cbn. by destruct (truthy (walkArrays cfg) || _).
Qed.

Context (Hobs : observes).

Definition walks_tree (fuel n : nat) : Prop :=
  ∀ a kind len children acc s l0,
    known_mode acc →
    reify n h (VRef a) = Some (INode a kind len children) →
    _walkObject fuel a callback acc cfg (World h s l0)
    = (Returned tt,
       World h (trace (INode a kind len children) acc s).2
               (l0 ++ (trace (INode a kind len children) acc s).1)).

Lemma trace_children_runs fuel n :
  walks_tree fuel n →
  ∀ children ks a acc s l0,
    known_mode acc →
    Forall2 (λ k kt, kt.1 = k ∧ reify n h (heap_get h a k) = Some kt.2) ks children →
    forEach ks
      (walk_key (λ l next, _walkObject fuel l callback next cfg) a callback acc cfg)
      (World h s l0)
    = (Returned tt,
       World h (trace_children trace a acc children s).2
               (l0 ++ (trace_children trace a acc children s).1)).
Proof.
  intros Hrec children.
  induction children as [|[k t] children IH]; intros ks a acc s l0 Hm Hre.
  { apply Forall2_nil_inv_r in Hre as ->. cbn. by rewrite app_nil_r. }
  apply Forall2_cons_inv_r in Hre as (k' & ks' & [Hk Ht] & Hre & ->).
  cbn in Hk, Ht. subst k'.
  destruct (Hobs k a (path_at acc a k) s) as (r & s1 & Hcb).
  cbn [forEach trace_children]. unfold bind at 1.
  rewrite (walk_key_observed _ a acc k s l0 r s1 Hm Hcb). cbv zeta.
  assert (Hans : answer k a (path_at acc a k) s = (r, s1)).
  { unfold answer. by rewrite Hcb. }
  rewrite Hans, (descent_enters n a k t Ht).
  destruct (truthy r).
  { rewrite (IH ks' a acc s1 _ Hm Hre).
    destruct (trace_children trace a acc children s1) as [rest s3].
    cbn [fst snd app]. by rewrite <- app_assoc. }
  destruct (enters k t) as [d|] eqn:Ed.
  2:{ rewrite (IH ks' a acc s1 _ Hm Hre).
      destruct (trace_children trace a acc children s1) as [rest s3].
      cbn [fst snd app]. by rewrite <- app_assoc. }
  assert (∃ kind len ch, t = INode d kind len ch) as (kind & len & ch & ->).
  { destruct t as [|d' [] len ch]; cbn in Ed; try done.
    - injection Ed as <-. by eexists _, _, _.
    - destruct (truthy (walkArrays cfg) || _); [|done].
      injection Ed as <-. by eexists _, _, _. }
  destruct (reify_INode _ _ _ _ _ _ Ht) as (Hget & _).
  rewrite Hget in Ht.
  destruct (known_mode_set acc a k Hm) as [_ Hm'].
  rewrite (Hrec d kind len ch (acc_below acc a k) s1 _ Hm' Ht).
  destruct (trace (INode d kind len ch) (acc_below acc a k) s1) as [inner s2].
  cbn [fst snd].
  rewrite (IH ks' a acc s2 _ Hm Hre).
  destruct (trace_children trace a acc children s2) as [rest s3].
  cbn [fst snd app]. by rewrite <- !app_assoc.
Qed.

Lemma walk_tree n : ∀ fuel, n ≤ fuel → walks_tree fuel n.
Proof.
  induction n as [|n IH]; intros fuel Hfuel a kind len children acc s l0 Hm Hre.
  { cbn in Hre. by destruct (is_container h (VRef a)). }
  destruct fuel as [|fuel]; [lia|].
  destruct (reify_INode _ _ _ _ _ _ Hre) as (_ & o' & Ho' & _ & Hc).
  destruct (reify_node _ _ _ _ Hre Hc)
    as (n' & a' & o & children' & Hn & Ha & Ho & Ht & Hgre).
  injection Hn as <-. injection Ha as <-. injection Ht as -> -> <-.
  cbn [_walkObject trace]. unfold bind at 1, gets at 1. cbn [w_heap].
  unfold Object_keys. rewrite Ho.
  apply (trace_children_runs fuel n (IH fuel ltac:(lia)) children (obj_keys o) a acc s l0
           Hm Hgre).
Qed.

Lemma walkObject_trace fuel n l t s l0 :
  recognized (pathType cfg) →
  is_container h (VRef l) = true →
  reify n h (VRef l) = Some t →
  n ≤ fuel →
  walkObject fuel (VRef l) callback cfg (World h s l0)
  = (Returned tt,
     World h (trace t (getPath (pathType cfg) None) s).2
             (l0 ++ (trace t (getPath (pathType cfg) None) s).1)).
Proof.
  intros Hrec Hc Hre Hfuel.
  unfold walkObject, bind at 1, gets at 1. cbn [w_heap].
  change (isPlainObject h (VRef l) || isArray h (VRef l)) with (is_container h (VRef l)).
  rewrite Hc. cbn [negb].
  destruct (reify_node _ _ _ _ Hre Hc)
    as (n' & a' & o & children' & Hn & Ha & Ho & Ht & Hgre).
  injection Ha as <-. subst t n.
  by apply (walk_tree (S n') fuel Hfuel l _ _ _ _ s l0 (known_mode_start Hrec)).
Qed.
End WalkTree.

(** X10: on an input no container of which contains itself ([reify]
    unfolds it into a finite tree; a container may occur twice), with a
    visitor that returns and leaves the objects alone, and in either path
    mode, [walkObject] returns, changes nothing, and has called the visitor
    in depth-first order, parents first: for each own key of an object in
    [Object.keys] order, the call for the key and then, unless the visitor
    returned a truthy value, the calls for the object or admitted array at
    that key, before the call for the next key.  The path of a call is
    what [path.get] makes of the keys above.  The two runs are the walk of
    [{a: [{b: 1}]}] in the [nestedProperty] mode with [walkArrays: true],
    and the walk of [{a: o, b: o}] with [o = {x: 1}], where [x] is visited
    under [a] and under [b]. *)
Theorem walkObject_preorder :
  (∀ St (callback : visitor St) cfg h fuel n l t s l0,
     observes callback h →
     recognized (pathType cfg) →
     is_container h (VRef l) = true →
     reify n h (VRef l) = Some t →
     n ≤ fuel →
     walkObject fuel (VRef l) callback cfg (World h s l0)
     = (Returned tt,
        World h (trace callback cfg h t (getPath (pathType cfg) None) s).2
                (l0 ++ (trace callback cfg h t (getPath (pathType cfg) None) s).1)))
  ∧ (∀ fuel,
       walkObject (S (S (S fuel))) (VRef 0) visit_all
         (Config (VBool true) None (VStr "nestedProperty")) (start heap_nested tt)
       = (Returned tt,
          World heap_nested tt
            [Event "a" 0 (PathStr "a") VUndefined;
             Event "0" 1 (PathStr "a[0]") VUndefined;
             Event "b" 2 (PathStr "a[0].b") VUndefined]))
  ∧ (∀ fuel,
       walkObject (S (S fuel)) (VRef 0) visit_all default_config (start heap_shared tt)
       = (Returned tt,
          World heap_shared tt
            [Event "a" 0 (PathArr []) VUndefined;
             Event "x" 1 (PathArr ["a"]) VUndefined;
             Event "b" 0 (PathArr []) VUndefined;
             Event "x" 1 (PathArr ["b"]) VUndefined])).
Proof.
  split; [|split; intros fuel; reflexivity].
  intros St callback cfg h fuel n l t s l0 Hobs. by apply walkObject_trace.
Qed.

Lemma visit_all_observes h : observes visit_all h.
Proof. intros k a p s. by exists VUndefined, s. Qed.

Lemma walkObject_preorder_witness :
  observes visit_all heap_abc
  ∧ recognized (pathType default_config)
  ∧ is_container heap_abc (VRef 0) = true
  ∧ reify 3 heap_abc (VRef 0) = Some tree_abc
  ∧ 3 ≤ 4
  ∧ walkObject 4 (VRef 0) visit_all default_config (World heap_abc tt [])
    = (Returned tt,
       World heap_abc
         (trace visit_all default_config heap_abc tree_abc
            (getPath (pathType default_config) None) tt).2
         ([] ++ (trace visit_all default_config heap_abc tree_abc
                   (getPath (pathType default_config) None) tt).1)).
Proof.
  assert (Hrec : recognized (pathType default_config)) by (by left).
  split; [apply visit_all_observes|]. split; [done|].
  split; [reflexivity|]. split; [reflexivity|]. split; [lia|].
  apply (proj1 walkObject_preorder unit visit_all default_config heap_abc 4 3 0 tree_abc
           tt [] (visit_all_observes heap_abc) Hrec eq_refl eq_refl).
  lia.
Defined.

(** ** walkObject: what the walk itself never does *)

Section WalkOnly.
Context {St : Type} (callback : visitor St) (cfg : config).

Lemma forEach_heap (f : string → M (world St) unit) ks :
  (∀ k w, w_heap (f k w).2 = w_heap w) →
  ∀ w, w_heap (forEach ks f w).2 = w_heap w.
Proof.
  intros Hf. induction ks as [|k ks IH]; intros w; [done|].
  cbn [forEach]. unfold bind. specialize (Hf k w).
  destruct (f k w) as [[[]| | |] w1]; cbn in Hf |- *; try done.
  by rewrite IH.
Qed.

Lemma walk_key_heap recurse o acc k :
  heap_preserving callback →
  (∀ l next w, w_heap (recurse l next w).2 = w_heap w) →
  ∀ w, w_heap (walk_key recurse o callback acc cfg k w).2 = w_heap w.
Proof.
  intros Hpure Hrec w.
  unfold walk_key, bind, lift_outcome, call, gets, ret.
  destruct (getPath_get acc (w_heap w) o k) as [p| | |]; try done.
  pose proof (Hpure k o p (w_heap w, w_state w)) as Hh.
  destruct (callback k o p (w_heap w, w_state w)) as [[r| | |] [h' s']];
    cbn in Hh; subst h'; try done.
  destruct (truthy r); [done|]. cbn [w_heap].
  destruct (isPlainObject _ _ || doArrayWalk _ _ _ _ _); [|done].
  destruct (heap_get (w_heap w) o k) as [| | | | | |d]; try done.
  cbn [w_heap].
  destruct (getPath_set acc (w_heap w) o k) as [next| | |]; try done.
  by rewrite Hrec.
Qed.

Lemma _walkObject_heap fuel :
  heap_preserving callback →
  ∀ o acc w, w_heap (_walkObject fuel o callback acc cfg w).2 = w_heap w.
Proof.
  intros Hpure. induction fuel as [|fuel IH]; intros o acc w; [done|].
  cbn [_walkObject]. unfold bind at 1, gets at 1.
  apply forEach_heap. intros k w'. by apply walk_key_heap.
Qed.

(** The visitor returns on every call. *)
Definition always_returns : Prop :=
  ∀ k o p σ, ∃ r σ', callback k o p σ = (Returned r, σ').

Definition ends_well (r : outcome unit) : Prop := r = Returned tt ∨ r = OutOfFuel.

Lemma forEach_ends_well (f : string → M (world St) unit) ks :
  (∀ k w, ends_well (f k w).1) → ∀ w, ends_well (forEach ks f w).1.
Proof.
  intros Hf. induction ks as [|k ks IH]; intros w; [by left|].
  cbn [forEach]. unfold bind. specialize (Hf k w).
  destruct (f k w) as [[[]| | |] w1]; cbn in Hf |- *; [apply IH | | by right |];
    by destruct Hf.
Qed.

Lemma walk_key_ends_well recurse o acc k :
  always_returns → known_mode acc →
  (∀ l next w, known_mode next → ends_well (recurse l next w).1) →
  ∀ w, ends_well (walk_key recurse o callback acc cfg k w).1.
Proof.
  intros Hret Hm Hrec w.
  unfold walk_key, bind, lift_outcome, call, gets, ret.
  rewrite (known_mode_get (w_heap w) acc o k Hm).
  destruct (Hret k o (path_at (w_heap w) acc o k) (w_heap w, w_state w))
    as (r & [h' s'] & ->).
  destruct (truthy r); [by left|]. cbn [w_heap].
  destruct (isPlainObject _ _ || doArrayWalk _ _ _ _ _); [|by left].
  destruct (heap_get h' o k) as [| | | | | |d]; try by left.
  cbn [w_heap].
  destruct (known_mode_set h' acc o k Hm) as [-> Hm'].
  by apply Hrec.
Qed.

Lemma _walkObject_ends_well fuel :
  always_returns →
  ∀ o acc w, known_mode acc → ends_well (_walkObject fuel o callback acc cfg w).1.
Proof.
  intros Hret. induction fuel as [|fuel IH]; intros o acc w Hm; [by right|].
  cbn [_walkObject]. unfold bind at 1, gets at 1.
  apply forEach_ends_well. intros k w'. apply walk_key_ends_well; [done..|].
  intros l next w'' Hm'. by apply IH.
Qed.
End WalkOnly.

(** X11: [walkObject] writes to no object.  With a visitor that leaves the
    heap as it is, the heap after the call is the heap before it, for
    every input, every configuration and path mode, and whether the call
    returns, throws, or recurses without end. *)
Theorem walkObject_read_only {St : Type} (callback : visitor St) (cfg : config)
    (fuel : nat) (input : value) (w : world St) :
  heap_preserving callback →
  w_heap (walkObject fuel input callback cfg w).2 = w_heap w.
Proof.
  intros Hpure. unfold walkObject, bind, gets.
  destruct (negb _); [done|].
  destruct input as [| | | | | |l]; try done.
  by apply _walkObject_heap.
Qed.

Lemma walkObject_read_only_witness :
  heap_preserving visit_all
  ∧ w_heap (walkObject 5 (VRef 0) visit_all walk_arrays_config (start heap_abc tt)).2
    = w_heap (start heap_abc tt).
Proof.
  split; [apply visit_all_heap_preserving|].
  exact (walkObject_read_only visit_all walk_arrays_config 5 (VRef 0) (start heap_abc tt)
           visit_all_heap_preserving).
Defined.

(** X12: [walkObject] has two errors of its own, for an input that is no
    object or array and for a path mode it does not know.  On an object or
    array, in a mode it knows and with a visitor that returns on every
    call, it throws nothing, whatever the visitor does to the objects: it
    returns, or (on an input with a cycle) recurses until the budget of
    the model, the call stack of an engine, is used up. *)
Theorem walkObject_throws_nothing {St : Type} (callback : visitor St) (cfg : config)
    (fuel : nat) (l : loc) (w : world St) :
  always_returns callback →
  recognized (pathType cfg) →
  is_container (w_heap w) (VRef l) = true →
  ends_well (walkObject fuel (VRef l) callback cfg w).1.
Proof.
  intros Hret Hrec Hc. unfold walkObject, bind at 1, gets at 1.
  change (isPlainObject (w_heap w) (VRef l) || isArray (w_heap w) (VRef l))
    with (is_container (w_heap w) (VRef l)).
  rewrite Hc. cbn [negb].
  apply _walkObject_ends_well; [done|]. by apply known_mode_start.
Qed.

Lemma visit_all_always_returns : always_returns visit_all.
Proof. intros k o p σ. by exists VUndefined, σ. Qed.

Lemma walkObject_throws_nothing_witness :
  always_returns visit_all
  ∧ recognized (pathType default_config)
  ∧ is_container (w_heap (start heap_cyclic tt)) (VRef 0) = true
  ∧ ends_well (walkObject 7 (VRef 0) visit_all default_config (start heap_cyclic tt)).1.
Proof.
  assert (Hrec : recognized (pathType default_config)) by (by left).
  split; [apply visit_all_always_returns|]. split; [done|]. split; [reflexivity|].
  exact (walkObject_throws_nothing visit_all default_config 7 0 (start heap_cyclic tt)
           visit_all_always_returns Hrec eq_refl).
Defined.

(** ** The path of a call in array mode *)

(** Following keys from an object: [o[k1][k2]...]. *)
Fixpoint resolve (h : heap) (o : loc) (path : list string) : option loc :=
  match path with
  | [] => Some o
  | k :: rest =>
      match heap_get h o k with
      | VRef d => resolve h d rest
      | _ => None
      end
  end.

Lemma resolve_snoc h root p o k a :
  resolve h root p = Some o → heap_get h o k = VRef a →
  resolve h root (p ++ [k]) = Some a.
Proof.
  revert root. induction p as [|k' p IH]; intros root; cbn.
  - intros [= ->] ->. done.
  - destruct (heap_get h root k') as [| | | | | |d]; try done. apply IH.
Qed.

Section PathSound.
Context {St : Type} (callback : visitor St) (cfg : config).
Context (Hpure : heap_preserving callback).

(** A call whose path leads from [root] to its parent, for a key the
    parent has. *)
Definition well_addressed (h : heap) (root : loc) (e : event) : Prop :=
  ∃ p, ev_path e = PathArr p
       ∧ resolve h root p = Some (ev_parent e)
       ∧ ev_key e ∈ Object_keys h (ev_parent e).

Lemma walks_well_addressed root o p ks σ b Δ σ' :
  walks callback cfg o p ks σ b Δ σ' →
  resolve σ.1 root p = Some o →
  ks ⊆ Object_keys σ.1 o →
  ∀ e, e ∈ Δ → well_addressed σ.1 root e.
Proof.
  intros Hw. induction Hw as
    [ | | o p k ks σ r σ1 Ecb _
      | o p k ks σ r σ1 b Δ σ2 Ecb Hr Hw IH
      | o p k ks σ r σ1 b Δ σ2 Ecb Hr _ Hw IH
      | o p k ks σ r σ1 a b1 Δ1 σ2 b2 Δ2 σ3 Ecb Hr Hd Hw1 IH1 Hw2 IH2 ];
    intros Hres Hks;
    try (intros e He; by apply elem_of_nil in He);
    pose proof (callback_heap callback Hpure _ _ _ _ _ _ Ecb) as Hσ1;
    assert (Hk : k ∈ Object_keys σ.1 o) by (apply Hks; left);
    assert (Hks' : ks ⊆ Object_keys σ.1 o) by (intros k' Hk'; apply Hks; by right).
  - intros e [-> | He]%elem_of_cons; [by exists p|].
    rewrite <- Hσ1. apply IH; by rewrite ?Hσ1.
  - intros e [-> | He]%elem_of_cons; [by exists p|].
    rewrite <- Hσ1. apply IH; by rewrite ?Hσ1.
  - pose proof (walks_heap callback cfg Hpure _ _ _ _ _ _ _ Hw1) as Hσ2.
    intros e [-> | [He | He]%elem_of_app]%elem_of_cons; [by exists p | |].
    + rewrite <- Hσ1. apply IH1; [|done|done].
      apply (resolve_snoc _ _ _ o); [by rewrite Hσ1|].
      by apply (descent_Some _ cfg).
    + rewrite <- Hσ1, <- Hσ2. apply IH2; by rewrite ?Hσ2, ?Hσ1.
Qed.
End PathSound.

(** X13: in array mode the path of every call leads to the parent of the
    call.  With a visitor that leaves the heap as it is, for every call
    [callback(key, parent, path)] that [walkObject(input, ...)] makes,
    [path] is an array of keys, following these keys from [input] arrives
    at [parent], and [key] is an own key of [parent]; so
    [input[path[0]]...[path[n-1]][key]] is the value the call is about.
    This holds for every input and also for the calls made before a throw
    or on a cycle. *)
Theorem walkObject_path_leads_to_parent {St : Type} (callback : visitor St)
    (cfg : config) (fuel : nat) (l : loc) (h : heap) (s : St) (e : event) :
  array_mode cfg → heap_preserving callback →
  e ∈ w_log (walkObject fuel (VRef l) callback cfg (start h s)).2 →
  well_addressed h l e.
Proof.
  intros Hmode Hpure He.
  destruct (walkObject_walks callback cfg fuel (VRef l) h s Hmode)
    as [[Hlog _] | (l' & [= <-] & Hw)].
  { rewrite Hlog in He. by apply elem_of_nil in He. }
  by apply (walks_well_addressed callback cfg Hpure l _ _ _ _ _ _ _ Hw).
Qed.

Lemma walkObject_path_leads_to_parent_witness :
  array_mode walk_arrays_config ∧ heap_preserving visit_all
  ∧ Event "1" 2 (PathArr ["c"]) VUndefined
    ∈ w_log (walkObject 3 (VRef 0) visit_all walk_arrays_config (start heap_abc tt)).2
  ∧ well_addressed heap_abc 0 (Event "1" 2 (PathArr ["c"]) VUndefined).
Proof.
  assert (Hmode : array_mode walk_arrays_config) by (by left).
  assert (Hin : Event "1" 2 (PathArr ["c"]) VUndefined
    ∈ w_log (walkObject 3 (VRef 0) visit_all walk_arrays_config (start heap_abc tt)).2).
  { vm_compute. do 4 right. left. }
  split; [done|]. split; [apply visit_all_heap_preserving|]. split; [done|].
  exact (walkObject_path_leads_to_parent visit_all walk_arrays_config 3 0 heap_abc tt _
           Hmode visit_all_heap_preserving Hin).
Defined.

(** ** walkObject: the keys are listed before the first call *)

Section InitialKeys.
Context {St : Type} (callback : visitor St) (cfg : config).

(** The calls for the keys of the object reached by [p] itself. *)
Definition calls_at (p : list string) (Δ : list event) : list event :=
  List.filter (λ e, bool_decide (ev_path e = PathArr p)) Δ.

Lemma walks_paths o p ks σ b Δ σ' :
  walks callback cfg o p ks σ b Δ σ' →
  ∀ e, e ∈ Δ → ∃ q, ev_path e = PathArr (p ++ q).
Proof.
  intros Hw. induction Hw as
    [ | | o p k ks σ r σ1 Ecb _
      | o p k ks σ r σ1 b Δ σ2 Ecb Hr Hw IH
      | o p k ks σ r σ1 b Δ σ2 Ecb Hr _ Hw IH
      | o p k ks σ r σ1 a b1 Δ1 σ2 b2 Δ2 σ3 Ecb Hr Hd Hw1 IH1 Hw2 IH2 ];
    try (intros e He; by apply elem_of_nil in He).
  - intros e [-> | He]%elem_of_cons; [exists []; by rewrite app_nil_r | by apply IH].
  - intros e [-> | He]%elem_of_cons; [exists []; by rewrite app_nil_r | by apply IH].
  - intros e [-> | [He | He]%elem_of_app]%elem_of_cons.
    + exists []. by rewrite app_nil_r.
    + destruct (IH1 e He) as [q Hq]. exists (k :: q). by rewrite Hq, <- app_assoc.
    + by apply IH2.
Qed.

Lemma calls_at_deeper p k Δ :
  (∀ e, e ∈ Δ → ∃ q, ev_path e = PathArr ((p ++ [k]) ++ q)) → calls_at p Δ = [].
Proof.
  intros Hall. unfold calls_at.
  induction Δ as [|e Δ IH]; [done|]. cbn [List.filter].
  destruct (Hall e) as [q Hq]; [left|].
  rewrite bool_decide_eq_false_2.
  - apply IH. intros e' He'. apply Hall. by right.
  - rewrite Hq. intros [= Heq]. apply (f_equal length) in Heq.
    rewrite !length_app in Heq. cbn in Heq. lia.
Qed.

Lemma walks_own_calls o p ks σ Δ σ' :
  walks callback cfg o p ks σ true Δ σ' →
  map ev_key (calls_at p Δ) = ks ∧ ∀ e, e ∈ calls_at p Δ → ev_parent e = o.
Proof.
  intros Hw. remember true as b eqn:Hb.
  induction Hw as
    [ | | o p k ks σ r σ1 Ecb _
      | o p k ks σ r σ1 b Δ σ2 Ecb Hr Hw IH
      | o p k ks σ r σ1 b Δ σ2 Ecb Hr _ Hw IH
      | o p k ks σ r σ1 a b1 Δ1 σ2 b2 Δ2 σ3 Ecb Hr Hd Hw1 IH1 Hw2 IH2 ];
    try done.
  - split; [done|]. intros e He. by apply elem_of_nil in He.
  - destruct (IH Hb) as [IHk IHo]. unfold calls_at in *. cbn [List.filter ev_path].
    rewrite bool_decide_eq_true_2 by done. cbn [map ev_key]. split; [by rewrite IHk|].
    intros e [-> | He]%elem_of_cons; [done | by apply IHo].
  - destruct (IH Hb) as [IHk IHo]. unfold calls_at in *. cbn [List.filter ev_path].
    rewrite bool_decide_eq_true_2 by done. cbn [map ev_key]. split; [by rewrite IHk|].
    intros e [-> | He]%elem_of_cons; [done | by apply IHo].
  - apply andb_true_iff in Hb as [-> ->].
    destruct (IH2 eq_refl) as [IHk IHo].
    pose proof (calls_at_deeper p k Δ1 (walks_paths _ _ _ _ _ _ _ Hw1)) as Hdeep.
    unfold calls_at in *. cbn [List.filter ev_path].
    rewrite bool_decide_eq_true_2 by done.
    rewrite List.filter_app, Hdeep. cbn [app map ev_key]. split; [by rewrite IHk|].
    intros e [-> | He]%elem_of_cons; [done | by apply IHo].
Qed.
End InitialKeys.

(** X14: [Object.keys(object)] is evaluated once, when the walk of an
    object begins.  In array mode, whatever the visitor does to the heap,
    a walk that returns has called the visitor for the input itself
    exactly once for each key the input had at the start, in the order of
    [Object.keys], with the input as parent: a key the visitor adds to the
    input meanwhile is not visited, and a key it removes is visited
    still. *)
Theorem walkObject_visits_initial_keys {St : Type} (callback : visitor St)
    (cfg : config) (fuel : nat) (l : loc) (h : heap) (s : St) :
  array_mode cfg →
  is_returned (walkObject fuel (VRef l) callback cfg (start h s)).1 = true →
  map ev_key (calls_at [] (w_log (walkObject fuel (VRef l) callback cfg (start h s)).2))
  = Object_keys h l
  ∧ ∀ e, e ∈ calls_at [] (w_log (walkObject fuel (VRef l) callback cfg (start h s)).2) →
         ev_parent e = l.
Proof.
  intros Hmode Hret.
  destruct (walkObject_walks callback cfg fuel (VRef l) h s Hmode)
    as [[_ Hno] | (l' & [= <-] & Hw)]; [congruence|].
  rewrite Hret in Hw. by apply (walks_own_calls callback cfg _ _ _ _ _ _ Hw).
Qed.

(** A visitor that adds the key [z] to the parent at every call. *)
Definition add_z : visitor unit :=
  λ _ parent _ '(h, s),
    let '(_, h') := assign parent "z" (VNum 0) h in (Returned VUndefined, (h', s)).

Lemma walkObject_visits_initial_keys_witness :
  array_mode default_config
  ∧ is_returned (walkObject 3 (VRef 0) add_z default_config (start heap_ab tt)).1 = true
  ∧ Object_keys (w_heap (walkObject 3 (VRef 0) add_z default_config (start heap_ab tt)).2) 0
    = ["a"; "z"]
  ∧ map ev_key
      (calls_at [] (w_log (walkObject 3 (VRef 0) add_z default_config (start heap_ab tt)).2))
    = Object_keys heap_ab 0
  ∧ ∀ e, e ∈ calls_at []
               (w_log (walkObject 3 (VRef 0) add_z default_config (start heap_ab tt)).2) →
         ev_parent e = 0.
Proof.
  assert (Hmode : array_mode default_config) by (by left).
  split; [done|]. split; [reflexivity|]. split; [reflexivity|].
  exact (walkObject_visits_initial_keys add_z default_config 3 0 heap_ab tt Hmode eq_refl).
Defined.

(** ** copyObject: empty inputs, rejected keys and flat objects *)

(** Writing a property or a length keeps the keys of an object apart. *)
Lemma props_replace_keys k v ps : map fst (props_replace k v ps) = map fst ps.
Proof.
  induction ps as [|[k' v'] ps IH]; [done|]. cbn [props_replace].
  destruct (String.eqb_spec k k') as [-> | Hne]; [done|]. cbn. by rewrite IH.
Qed.

Lemma props_insert_index_keys i k v ps :
  map fst (props_insert_index i k v ps) ≡ₚ k :: map fst ps.
Proof.
  induction ps as [|[k' v'] ps IH]; [done|]. cbn [props_insert_index].
  destruct (index_of_key k') as [j|]; [|done].
  destruct (Nat.ltb i j); [done|].
  cbn [map fst]. rewrite IH. apply Permutation_swap.
Qed.

Lemma props_set_nodup k v ps :
  NoDup (map fst ps) → NoDup (map fst (props_set k v ps)).
Proof.
  intros Hnd. unfold props_set.
  destruct (assoc k ps) as [v0|] eqn:E; [by rewrite props_replace_keys|].
  apply assoc_None in E.
  destruct (index_of_key k) as [i|].
  - rewrite props_insert_index_keys. by apply NoDup_cons.
  - rewrite map_app. cbn. apply NoDup_app. split; [done|].
    split; [|apply NoDup_singleton].
    intros x Hx ->%list_elem_of_singleton. done.
Qed.

Lemma filter_keys_nodup (f : string * value → bool) ps :
  NoDup (map fst ps) → NoDup (map fst (List.filter f ps)).
Proof.
  induction ps as [|[k v] ps IH]; [done|]. cbn [map fst List.filter].
  intros [Hk Hnd]%NoDup_cons.
  destruct (f (k, v)); [|by apply IH].
  cbn [map fst]. apply NoDup_cons. split; [|by apply IH].
  intros Hin. apply Hk.
  apply list_elem_of_fmap in Hin as ([k' v'] & -> & Hin).
  apply list_elem_of_In, filter_In in Hin as [Hin _].
  apply list_elem_of_fmap. exists (k', v'). split; [done|]. by apply list_elem_of_In.
Qed.

Lemma keys_nodup_alloc h o : keys_nodup h → NoDup (obj_keys o) → keys_nodup (h ++ [o]).
Proof.
  intros Hh Ho l. unfold Object_keys.
  destruct (decide (l < length h)) as [Hl | Hl].
  - rewrite lookup_app_l by done. apply Hh.
  - rewrite lookup_app_r by lia.
    destruct (l - length h) as [|n]; [done|]. cbn. constructor.
Qed.

Lemma keys_nodup_insert h q o :
  keys_nodup h → NoDup (obj_keys o) → keys_nodup (<[q := o]> h).
Proof.
  intros Hh Ho l. unfold Object_keys.
  destruct (decide (l = q)) as [-> | Hne].
  - destruct (decide (q < length h)) as [Hq | Hq].
    + by rewrite list_lookup_insert_eq.
    + rewrite list_insert_ge by lia. apply Hh.
  - rewrite list_lookup_insert_ne by done. apply Hh.
Qed.

Lemma assign_keys_nodup l k v h : keys_nodup h → keys_nodup (assign l k v h).2.
Proof.
  intros Hh. unfold assign.
  destruct (h !! l) as [o|] eqn:Ho; [|done].
  assert (Hnd : NoDup (obj_keys o)).
  { pose proof (Hh l) as H. unfold Object_keys in H. by rewrite Ho in H. }
  destruct (String.eqb k "__proto__").
  { by destruct (o_kind o), v. }
  destruct (bool_decide (o_kind o = Arr) && (k =? "length")%string).
  - destruct v as [| | |n| | |]; try done.
    destruct ((0 <=? n)%Z && (n <? 4294967296)%Z); [|done]. cbn.
    apply keys_nodup_insert; [done|]. by apply filter_keys_nodup.
  - cbn. apply keys_nodup_insert; [done|]. by apply props_set_nodup.
Qed.

Lemma walkCallback_keeps {U} (callback : visitor U) :
  keeps callback keys_nodup → keeps (walkCallback callback) keys_nodup.
Proof.
  intros Hkeeps k o path [h [ins outs u]] Hh. cbn [fst] in Hh.
  pose proof (Hkeeps k o path (h, u) Hh) as Hh1.
  unfold walkCallback, bind, call_user, gets, on_heap, ret, push, modify, alloc, throw.
  cbn [user inputObjects outputObjects].
  destruct (callback k o path (h, u)) as [[r| | |] [h1 u1]]; cbn [fst snd] in Hh1 |- *;
    try done.
  destruct (strictEqual r (VBool false)); [done|].
  cbn -[isPlainObject isArray heap_get assign indexOf].
  destruct (isPlainObject h1 (heap_get h1 o k) || _) eqn:Ec.
  - set (new := if (if isPlainObject h1 (heap_get h1 o k) then false
                    else isArray h1 (heap_get h1 o k)) then empty_array else empty_object).
    assert (Hh2 : keys_nodup (h1 ++ [new])).
    { apply keys_nodup_alloc; [done|]. unfold new.
      destruct (if isPlainObject _ _ then _ else _); constructor. }
    destruct (indexOf ins (VRef o) ≫= λ i, outs !! i) as [q|]; [|done].
    pose proof (assign_keys_nodup q k (VRef (length h1)) _ Hh2) as Hh3.
    by destruct (assign q k (VRef (length h1)) (h1 ++ [new])) as [[[]| | |] h3].
  - destruct (indexOf ins (VRef o) ≫= λ i, outs !! i) as [q|]; [|done].
    pose proof (assign_keys_nodup q k (heap_get h1 o k) _ Hh1) as Hh3.
    by destruct (assign q k (heap_get h1 o k) h1) as [[[]| | |] h3].
Qed.

(** What [walkCallback] returns: [true] when the callback returned
    exactly [false], and [false] otherwise. *)
Lemma walkCallback_result {U} (callback : visitor U) k p path h st r σ' :
  walkCallback callback k p path (h, st) = (Returned r, σ') →
  ∃ ru hu uu, callback k p path (h, user st) = (Returned ru, (hu, uu))
              ∧ r = VBool (strictEqual ru (VBool false)).
Proof.
  unfold walkCallback, bind, call_user, gets, on_heap, ret, push, modify, alloc, throw.
  destruct (callback k p path (h, user st)) as [[ru| | |] [hu uu]]; try done.
  intros Hrun. exists ru, hu, uu. split; [done|].
  destruct (strictEqual ru (VBool false)); [by injection Hrun as <- _|].
  revert Hrun. destruct st as [ins outs u].
  cbn -[isPlainObject isArray heap_get assign indexOf]. intros Hrun.
  destruct (isPlainObject hu (heap_get hu p k) || _).
  - destruct (indexOf ins (VRef p) ≫= λ i, outs !! i) as [q|]; [|done].
    destruct (assign q k _ _) as [[[]| | |] h3]; try done. by injection Hrun as <- _.
  - destruct (indexOf ins (VRef p) ≫= λ i, outs !! i) as [q|]; [|done].
    destruct (assign q k _ _) as [[[]| | |] h3]; try done. by injection Hrun as <- _.
Qed.

(** The log of [copyObject] is the log of its walk. *)
Lemma copyObject_log {U} (callback : visitor U) fuel input h u l0 :
  w_log (copyObject fuel input callback (World h u l0)).2
  = w_log (walkObject fuel input (walkCallback callback) copy_config
             (World (h ++ [if isArray h input then empty_array else empty_object])
                    (Copier [input] [length h] u) l0)).2
  ∧ w_heap (copyObject fuel input callback (World h u l0)).2
    = w_heap (walkObject fuel input (walkCallback callback) copy_config
                (World (h ++ [if isArray h input then empty_array else empty_object])
                       (Copier [input] [length h] u) l0)).2.
Proof.
  unfold copyObject. cbn [w_heap w_state w_log].
  change (Config (VBool true) None VUndefined) with copy_config.
  by destruct (walkObject _ _ _ _ _) as [[[]| | |] w'].
Qed.

(** X15: a key for which the callback returned exactly [false] is not
    entered.  [walkCallback] answers the walk with [true] exactly when the
    callback returned [false]; and for every input, also one that is no
    tree, no call of the callback is made below a key for which that
    happened (the path of a call names its position). *)
Theorem copyObject_rejected_not_entered :
  (∀ U (callback : visitor U) k p path h st r σ',
     walkCallback callback k p path (h, st) = (Returned r, σ') →
     ∃ ru hu uu, callback k p path (h, user st) = (Returned ru, (hu, uu))
                 ∧ r = VBool (strictEqual ru (VBool false)))
  ∧ (∀ U (callback : visitor U) fuel input h u,
       keys_nodup h → keeps callback keys_nodup →
       ∀ e e', e ∈ w_log (copyObject fuel input callback (start h u)).2 →
               e' ∈ w_log (copyObject fuel input callback (start h u)).2 →
               ev_result e = VBool true → ¬ below e e').
Proof.
  split; [intros U callback; apply walkCallback_result|].
  intros U callback fuel input h u Hh Hkeeps e e' He He' Hr Hbel.
  unfold start in He, He'.
  rewrite (proj1 (copyObject_log callback fuel input h u [])) in He, He'.
  set (new := if isArray h input then empty_array else empty_object) in *.
  assert (Hh1 : keys_nodup (h ++ [new])).
  { apply keys_nodup_alloc; [done|]. unfold new. destruct (isArray h input); constructor. }
  destruct (walkObject_walks (walkCallback callback) copy_config fuel input (h ++ [new])
              (Copier [input] [length h] u) ltac:(by left))
    as [[Hlog _] | (l & -> & Hw)]; unfold start in *.
  { rewrite Hlog in He. by apply elem_of_nil in He. }
  destruct (walks_tidy (walkCallback callback) copy_config keys_nodup
              (walkCallback_keeps callback Hkeeps) _ _ _ _ _ _ _
              (λ _ H, H) Hw (Hh1 l) Hh1) as [_ Hbelow].
  destruct (Hbelow e e' He He' Hbel) as [Hf _]. by rewrite Hr in Hf.
Qed.


Lemma not_a_keeps Inv : keeps not_a Inv.
Proof. by intros k o path [h s]. Qed.

Lemma copyObject_rejected_not_entered_witness :
  keys_nodup heap_abc2 ∧ keeps not_a keys_nodup
  ∧ Event "a" 0 (PathArr []) (VBool true)
    ∈ w_log (copyObject 4 (VRef 0) not_a (start heap_abc2 tt)).2
  ∧ Event "c" 0 (PathArr []) (VBool false)
    ∈ w_log (copyObject 4 (VRef 0) not_a (start heap_abc2 tt)).2
  ∧ ¬ below (Event "a" 0 (PathArr []) (VBool true)) (Event "c" 0 (PathArr []) (VBool false)).
Proof.
  assert (Ha : Event "a" 0 (PathArr []) (VBool true)
               ∈ w_log (copyObject 4 (VRef 0) not_a (start heap_abc2 tt)).2).
  { vm_compute. left. }
  assert (Hc : Event "c" 0 (PathArr []) (VBool false)
               ∈ w_log (copyObject 4 (VRef 0) not_a (start heap_abc2 tt)).2).
  { vm_compute. right. left. }
  split; [apply (ok_nodup _ heap_ok_heap_abc2)|]. split; [apply not_a_keeps|].
  split; [done|]. split; [done|].
  exact (proj2 copyObject_rejected_not_entered unit not_a 4 (VRef 0) heap_abc2 tt
           (ok_nodup _ heap_ok_heap_abc2) (not_a_keeps keys_nodup) _ _ Ha Hc eq_refl).
Defined.

(** X16: an object or array without own keys.  [copyObject] returns a new
    empty object or array and calls the callback not once.  The length of
    the input is not copied: an array that has empty slots only, like
    [new Array(3)], is copied to [[]]. *)
Theorem copyObject_no_keys {U : Type} (callback : visitor U) (fuel : nat) (l : loc)
    (o : obj) (h : heap) (u : U) (l0 : list event) :
  h !! l = Some o → o_props o = [] → o_kind o ≠ Exotic →
  copyObject (S fuel) (VRef l) callback (World h u l0)
  = (Returned (VRef (length h)), World (h ++ [Obj (o_kind o) [] 0]) u l0).
Proof.
  intros Ho Hprops Hkind.
  assert (Hc : is_container h (VRef l) = true).
  { unfold is_container, isPlainObject, isArray, kind_of. rewrite Ho. cbn.
    destruct (o_kind o); by cbn. }
  destruct (container_kind h l o Ho Hc) as [_ Harr].
  assert (Hnew : (if isArray h (VRef l) then empty_array else empty_object)
                 = Obj (o_kind o) [] 0).
  { rewrite Harr. by destruct (o_kind o). }
  unfold copyObject. cbn [w_heap w_state w_log]. rewrite Hnew.
  unfold walkObject, bind at 1, gets at 1. cbn [w_heap].
  unfold isPlainObject, isArray.
  rewrite (kind_of_alloc h _ (VRef l)) by (by eapply lookup_lt_Some).
  fold (isPlainObject h (VRef l)). fold (isArray h (VRef l)).
  change (isPlainObject h (VRef l) || isArray h (VRef l)) with (is_container h (VRef l)).
  rewrite Hc. cbn [negb _walkObject]. unfold bind at 1, gets at 1. cbn [w_heap].
  unfold Object_keys. rewrite lookup_app_l by (by eapply lookup_lt_Some).
  rewrite Ho. unfold obj_keys. rewrite Hprops. done.
Qed.

(** [new Array(3)] at 0. *)
Definition heap_slots : heap := [ Obj Arr [] 3 ].

Lemma copyObject_no_keys_witness :
  copyObject 1 (VRef 0) always_true (World heap_slots tt [])
  = (Returned (VRef 1), World (heap_slots ++ [Obj Arr [] 0]) tt []).
Proof.
  apply (copyObject_no_keys always_true 0 0 (Obj Arr [] 3) heap_slots tt []);
    [reflexivity | reflexivity | discriminate].
Defined.

(** ** copyObject and shallowEqual *)









(** ** copyObject writes to its own objects only *)

Section InputUntouched.
Context {U : Type} (callback : visitor U) (h0 : heap).
Context (Hcb : input_only callback h0).

Definition copying_state (σ : heap * copier U) : Prop :=
  copying h0 σ.1 (inputObjects σ.2) (outputObjects σ.2).

Lemma walkCallback_copying k o p σ :
  copying_state σ → copying_state (walkCallback callback k o p σ).2.
Proof.
  destruct σ as [h [ins outs u]]. unfold copying_state.
  cbn [fst snd inputObjects outputObjects].
  intros Hcp. pose proof Hcp as [Hag Hlen Houts].
  destruct (Hcb k o p h u Hag) as (r & u1 & Hrun & _).
  unfold walkCallback, bind, call_user, gets, on_heap, ret, push, modify, alloc, throw.
  cbn [user inputObjects outputObjects]. rewrite Hrun.
  destruct (strictEqual r (VBool false)); [done|].
  cbn -[isPlainObject isArray heap_get assign indexOf].
  assert (Hparent : ∀ q, (indexOf ins (VRef o) ≫= λ i, outs !! i) = Some q →
                         length h0 ≤ q < length h).
  { intros q Hq. destruct (indexOf ins (VRef o)) as [i|]; [|done]. by apply (Houts i). }
  destruct (isPlainObject h (heap_get h o k) || _).
  - set (new := if (if isPlainObject h (heap_get h o k) then false
                    else isArray h (heap_get h o k)) then empty_array else empty_object).
    assert (Hcp1 : copying h0 (h ++ [new]) (ins ++ [heap_get h o k]) (outs ++ [length h])).
    { split; [by apply agrees_alloc | rewrite !length_app; cbn; lia |].
      intros i q Hq. rewrite length_app. cbn. destruct Hag as [Hle _].
      apply lookup_app_Some in Hq as [Hq | [_ Hq]].
      - specialize (Houts i q Hq). lia.
      - apply list_lookup_singleton_Some in Hq as [_ <-]. lia. }
    destruct (indexOf ins (VRef o) ≫= λ i, outs !! i) as [q|] eqn:Eq; [|done].
    destruct (Hparent q eq_refl) as [Hq _].
    pose proof (assign_copying h0 q k (VRef (length h)) _ _ _ Hcp1 Hq) as Hcp2.
    by destruct (assign q k (VRef (length h)) (h ++ [new])) as [[[]| | |] h3].
  - destruct (indexOf ins (VRef o) ≫= λ i, outs !! i) as [q|] eqn:Eq; [|done].
    destruct (Hparent q eq_refl) as [Hq _].
    pose proof (assign_copying h0 q k (heap_get h o k) _ _ _ Hcp Hq) as Hcp2.
    by destruct (assign q k (heap_get h o k) h) as [[[]| | |] h3].
Qed.
End InputUntouched.

(** X19: [copyObject] writes to the objects it allocates and to no other.
    With a callback that only reads, every object that existed before the
    call is after it as it was before, for every input, a tree or not,
    and whether the call returns, throws, or recurses without end. *)
Theorem copyObject_input_untouched {U : Type} (callback : visitor U) (h0 : heap)
    (fuel : nat) (input : value) (u : U) (l0 : list event) :
  input_only callback h0 →
  agrees h0 (w_heap (copyObject fuel input callback (World h0 u l0)).2).
Proof.
  intros Hcb.
  rewrite (proj2 (copyObject_log callback fuel input h0 u l0)).
  set (new := if isArray h0 input then empty_array else empty_object).
  assert (Hcp1 : copying h0 (h0 ++ [new]) [input] [length h0]).
  { split; [apply agrees_alloc, agrees_refl | done |].
    intros i q Hq. rewrite length_app. cbn.
    apply list_lookup_singleton_Some in Hq as [_ <-]. lia. }
  unfold walkObject, bind at 1, gets at 1. cbn [w_heap].
  destruct (negb _); [exact (cp_agrees _ _ _ _ Hcp1)|].
  destruct input as [| | | | | |l]; try exact (cp_agrees _ _ _ _ Hcp1).
  pose proof (_walkObject_holds (walkCallback callback) copy_config (copying_state h0)
                (walkCallback_copying callback h0 Hcb) fuel l
                (getPath (pathType copy_config) None)
                (World (h0 ++ [new]) (Copier [VRef l] [length h0] u) l0) Hcp1) as Hcp.
  exact (cp_agrees _ _ _ _ Hcp).
Qed.

Lemma copyObject_input_untouched_witness :
  input_only always_true heap_cyclic
  ∧ agrees heap_cyclic
      (w_heap (copyObject 6 (VRef 0) always_true (World heap_cyclic tt [])).2).
Proof.
  split; [apply always_true_input_only|].
  exact (copyObject_input_untouched always_true heap_cyclic 6 (VRef 0) tt []
           (always_true_input_only heap_cyclic)).
Defined.

